(** * Cord internals of absl-cpp: a shallow embedding and its properties

    The development follows four source files:
    - [absl/strings/internal/cord_internal.h]: [RefcountAndFlags],
      [CordRep], [CordRepSubstring] and [InlineData];
    - [absl/strings/internal/cord_rep_flat.h]: the size <-> tag codec of
      flat nodes;
    - [absl/strings/internal/cordz_handle.h] and [cordz_handle.cc]: the
      global delete queue of [CordzHandle].

    Conventions.  A C++ integer of width [w] is a [Z] together with the
    wrap-around of its type written out.  A pointer to a node or to a
    handle is an [option nat], an address of the modelled heap or [None]
    for [nullptr]; inside [InlineData], where the bits of a pointer matter,
    it is its 64-bit value.  A function that can fail returns an [outcome]:
    [Abort] is a failed [assert] or a fatal log, [Undefined] is behaviour
    the C++ standard leaves undefined, [OutOfFuel] is a loop that was given
    too little fuel.  [assert] is compiled out when [NDEBUG] is defined; the
    functions that contain one take that build switch as their first
    argument [ndebug].  The code is modelled as run by one thread at a time
    (the queue operations hold the queue mutex; the atomics are read and
    written without interference). *)

From Stdlib Require Import ZArith Lia List Bool.
From Stdlib.Strings Require Import Byte.
From stdpp Require Import base option list gmap.

(** ** Machine integers *)

Module MachineInt.
Local Open Scope Z_scope.

(** Conversion to an unsigned type of [w] bits. *)
Definition to_unsigned (w x : Z) : Z := x mod 2 ^ w.

(** Conversion to a signed, two's complement type of [w] bits. *)
Definition to_signed (w x : Z) : Z :=
  (x + 2 ^ (w - 1)) mod 2 ^ w - 2 ^ (w - 1).

Definition to_uint8 : Z -> Z := to_unsigned 8.
Definition to_int8 : Z -> Z := to_signed 8.
Definition to_int32 : Z -> Z := to_signed 32.
Definition to_int64 : Z -> Z := to_signed 64.
Definition to_uint64 : Z -> Z := to_unsigned 64.
Definition to_size_t : Z -> Z := to_unsigned 64.

Definition is_int32 (x : Z) : Prop := - 2 ^ 31 <= x < 2 ^ 31.
Definition is_size_t (x : Z) : Prop := 0 <= x < 2 ^ 64.

End MachineInt.
Export MachineInt.

(** ** Outcomes of fallible code *)

Inductive outcome (A : Type) : Type :=
  | Ret (a : A)
  | Abort
  | Undefined
  | OutOfFuel.
Arguments Ret {A} a.
Arguments Abort {A}.
Arguments Undefined {A}.
Arguments OutOfFuel {A}.

Definition obind {A B : Type} (m : outcome A) (k : A -> outcome B)
  : outcome B :=
  match m with
  | Ret a => k a
  | Abort => Abort
  | Undefined => Undefined
  | OutOfFuel => OutOfFuel
  end.

Declare Scope outcome_scope.
Delimit Scope outcome_scope with outcome.
Notation "x <- m ;; k" := (obind m (fun x => k))
  (at level 100, m at next level, right associativity) : outcome_scope.
Notation "m ;;; k" := (obind m (fun _ => k))
  (at level 100, right associativity) : outcome_scope.
Local Open Scope outcome_scope.

(** [assert(c)]: aborts when [c] is false, unless [NDEBUG] removed it. *)
Definition assert_ (ndebug c : bool) : outcome unit :=
  if ndebug || c then Ret tt else Abort.

(** ** [RefcountAndFlags] (cord_internal.h) *)

Module RefcountAndFlags.
Local Open Scope Z_scope.

(** [enum Flags]. *)
Definition kNumFlags : Z := 1.
Definition kImmortalFlag : Z := 1.
Definition kRefIncrement : Z := Z.shiftl 1 kNumFlags.

(** The state is the value of [std::atomic<int32_t> count_]. *)
Definition RefcountAndFlags_default : Z := kRefIncrement.
Definition RefcountAndFlags_Immortal : Z := kImmortalFlag.

(** [fetch_add] and [fetch_sub] wrap around in two's complement. *)
Definition Increment (count_ : Z) : Z := to_int32 (count_ + kRefIncrement).

Definition has_flag (refcount flag : Z) : bool :=
  negb (Z.land refcount flag =? 0).

(** Returns the result and the new value of [count_].  The subtraction is
    skipped when the value loaded first equals [kRefIncrement]. *)
Definition Decrement (ndebug : bool) (count_ : Z) : outcome (bool * Z) :=
  let refcount := count_ in
  assert_ ndebug ((0 <? refcount) || has_flag refcount kImmortalFlag) ;;;
  if negb (refcount =? kRefIncrement)
  then Ret (negb (count_ =? kRefIncrement), to_int32 (count_ - kRefIncrement))
  else Ret (false, count_).

Definition DecrementExpectHighRefcount (ndebug : bool) (count_ : Z)
  : outcome (bool * Z) :=
  let refcount := count_ in
  let count_' := to_int32 (count_ - kRefIncrement) in
  assert_ ndebug ((0 <? refcount) || has_flag refcount kImmortalFlag) ;;;
  Ret (negb (refcount =? kRefIncrement), count_').

(** [static_cast<size_t>(count_ >> kNumFlags)]: the shift of a negative
    [int32_t] is arithmetic, the conversion extends the sign. *)
Definition Get (count_ : Z) : Z := to_size_t (Z.shiftr count_ kNumFlags).

Definition IsOne (count_ : Z) : bool := count_ =? kRefIncrement.

Definition IsImmortal (count_ : Z) : bool := has_flag count_ kImmortalFlag.

(** [n] calls of [Decrement] in a row, with the value each one returned. *)
Fixpoint Decrement_times (ndebug : bool) (n : nat) (count_ : Z)
  : outcome (list bool * Z) :=
  match n with
  | O => Ret ([], count_)
  | S n' =>
      r <- Decrement ndebug count_ ;;
      rs <- Decrement_times ndebug n' (snd r) ;;
      Ret (fst r :: fst rs, snd rs)
  end.

(** [n] calls of [Increment] in a row. *)
Fixpoint Increment_times (n : nat) (count_ : Z) : Z :=
  match n with
  | O => count_
  | S n' => Increment (Increment_times n' count_)
  end.

(** [n] calls of [DecrementExpectHighRefcount] in a row, with the value
    each one returned. *)
Fixpoint DecrementExpectHighRefcount_times (ndebug : bool) (n : nat)
    (count_ : Z) : outcome (list bool * Z) :=
  match n with
  | O => Ret ([], count_)
  | S n' =>
      r <- DecrementExpectHighRefcount ndebug count_ ;;
      rs <- DecrementExpectHighRefcount_times ndebug n' (snd r) ;;
      Ret (fst r :: fst rs, snd rs)
  end.

End RefcountAndFlags.

(** ** [CordRepKind] (cord_internal.h) *)

Module CordRepKind.
Local Open Scope Z_scope.
Definition UNUSED_0 : Z := 0.
Definition SUBSTRING : Z := 1.
Definition CRC : Z := 2.
Definition BTREE : Z := 3.
Definition UNUSED_4 : Z := 4.
Definition EXTERNAL : Z := 5.
Definition FLAT : Z := 6.
Definition MAX_FLAT_TAG : Z := 248.
End CordRepKind.
Export CordRepKind.

(** ** The size <-> tag codec (cord_rep_flat.h) *)

Module CordRepFlat.
Local Open Scope Z_scope.

Definition kMinFlatSize : Z := 32.
Definition kMaxFlatSize : Z := 4096.
Definition kMaxLargeFlatSize : Z := 256 * 1024.

Definition kTagBase : Z := to_uint8 (FLAT - 4).

(** [size] is a [size_t]; the sums are taken in [size_t] and the result is
    cast to [uint8_t]. *)
Definition AllocatedSizeToTagUnchecked (size : Z) : Z :=
  to_uint8
    (if size <=? 512 then to_size_t (kTagBase + size / 8)
     else if size <=? 8192
          then to_size_t (kTagBase + 512 / 8 + size / 64 - 512 / 64)
          else to_size_t (kTagBase + 512 / 8 + ((8192 - 512) / 64)
                          + size / 4096 - 8192 / 4096)).

(** [tag] is a [uint8_t]; the arithmetic is done in [int] (no overflow for
    a tag below 256) and converted to [size_t] on return. *)
Definition TagToAllocatedSize (tag : Z) : Z :=
  to_size_t
    (if tag <=? kTagBase + 512 / 8 then tag * 8 - kTagBase * 8
     else if tag <=? kTagBase + (512 / 8) + ((8192 - 512) / 64)
          then 512 + tag * 64 - kTagBase * 64 - 512 / 8 * 64
          else 8192 + tag * 4096 - kTagBase * 4096
               - ((512 / 8) + ((8192 - 512) / 64)) * 4096).

(** [(n + m - 1) & (0 - m)] on [size_t]. *)
Definition RoundUp (n m : Z) : Z :=
  Z.land (to_size_t (n + m - 1)) (to_size_t (0 - m)).

Definition RoundUpForTag (size : Z) : Z :=
  RoundUp size (if size <=? 512 then 8 else if size <=? 8192 then 64 else 4096).

Definition AllocatedSizeToTag (ndebug : bool) (size : Z) : outcome Z :=
  let tag := AllocatedSizeToTagUnchecked size in
  assert_ ndebug (tag <=? MAX_FLAT_TAG) ;;;
  Ret tag.

(** The sizes a tag can express: the three bands of the comment on
    [CordRepKind]. *)
Definition representable (size : Z) : Prop :=
  (kMinFlatSize <= size <= 512 /\ size mod 8 = 0) \/
  (512 < size <= 8192 /\ size mod 64 = 0) \/
  (8192 < size <= kMaxLargeFlatSize /\ size mod 4096 = 0).

(** The three bands, tag by tag: [band t s] when [s] is the size that the
    tag [t] stands for. *)
Inductive band : Z -> Z -> Prop :=
  | band_8 t : 6 <= t <= 66 -> band t (8 * (t - 2))
  | band_64 t : 67 <= t <= 186 -> band t (512 + 64 * (t - 66))
  | band_4096 t : 187 <= t <= 248 -> band t (8192 + 4096 * (t - 186)).

End CordRepFlat.

(** ** Raw memory: byte buffers, [memcpy], [memset], little endian words *)

Module Memory.

(** [byte_of_Z] keeps the low 8 bits. *)
Definition byte_of_Z (z : Z) : byte :=
  match Byte.of_N (Z.to_N (z mod 256)) with
  | Some b => b
  | None => Byte.x00
  end.

Definition Z_of_byte (b : byte) : Z := Z.of_N (Byte.to_N b).

(** [memcpy(&buf, p + off, k)]: the [k] bytes at offset [off] of the
    object [p] points into.  Reading past its end is undefined. *)
Definition mem_read (p : list byte) (off k : nat) : outcome (list byte) :=
  if decide (off + k <= length p)%nat
  then Ret (take k (drop off p))
  else Undefined.

(** [memcpy(p + off, bs, length bs)]. *)
Definition mem_write (p : list byte) (off : nat) (bs : list byte)
  : outcome (list byte) :=
  if decide (off + length bs <= length p)%nat
  then Ret (take off p ++ bs ++ drop (off + length bs) p)
  else Undefined.

(** [memset(p + off, 0, k)]. *)
Definition mem_zero (p : list byte) (off k : nat) : outcome (list byte) :=
  mem_write p off (replicate k Byte.x00).

(** Little endian value of a byte sequence, and the [n] low bytes of a
    value. *)
Fixpoint le_combine (bs : list byte) : Z :=
  match bs with
  | [] => 0
  | b :: bs' => (Z_of_byte b + 256 * le_combine bs')%Z
  end.

Fixpoint le_split (n : nat) (w : Z) : list byte :=
  match n with
  | O => []
  | S n' => byte_of_Z w :: le_split n' (w / 256)%Z
  end.

End Memory.
Export Memory.

(** ** [SmallMemmove] and [InlineData] (cord_internal.h)

    The target is a little endian host with 64-bit pointers
    ([ABSL_IS_BIG_ENDIAN] is not defined, so [LittleEndianByte] and
    [little_endian::FromHost64] are the identity), built without a
    sanitizer ([poison] and [unpoison] do nothing).  [Rep] is the memory
    image of the union: 16 bytes, seen either as [char data[16]] or as
    [AsTree], [cordz_info] at offset 0 and [rep] at offset 8. *)

Module InlineData.

Definition kMaxInline : nat := 15.

(** [dst] is the buffer [dst] points to, [src] the one [src] points to:
    two objects that do not overlap, as in [set_inline_data]. *)
Definition SmallMemmove (ndebug nullify_tail : bool)
    (dst src : list byte) (n : nat) : outcome (list byte) :=
  if decide (8 <= n)%nat then
    assert_ ndebug (bool_decide (n <= 15)%nat) ;;;
    buf1 <- mem_read src 0 8 ;;
    buf2 <- mem_read src (n - 8) 8 ;;
    dst <- (if nullify_tail then mem_zero dst 7 8 else Ret dst) ;;
    dst <- mem_write dst 0 buf1 ;;
    mem_write dst (n - 8) buf2
  else if decide (4 <= n)%nat then
    buf1 <- mem_read src 0 4 ;;
    buf2 <- mem_read src (n - 4) 4 ;;
    dst <- (if nullify_tail
            then (dst <- mem_zero dst 4 4 ;; mem_zero dst 7 8)
            else Ret dst) ;;
    dst <- mem_write dst 0 buf1 ;;
    mem_write dst (n - 4) buf2
  else
    dst <- (if decide (n ≠ 0)%nat
            then
              b <- mem_read src 0 1 ;;
              dst <- mem_write dst 0 b ;;
              b <- mem_read src (n / 2) 1 ;;
              dst <- mem_write dst (n / 2) b ;;
              b <- mem_read src (n - 1) 1 ;;
              mem_write dst (n - 1) b
            else Ret dst) ;;
    if nullify_tail
    then (dst <- mem_zero dst 7 8 ;; mem_zero dst n 8)
    else Ret dst.

Local Open Scope Z_scope.

Definition LittleEndianByte (value : Z) : Z := value.
Definition kNullCordzInfo : Z := LittleEndianByte 1.

(** *** [InlineData::Rep] *)

Definition Rep_default : list byte := replicate 16 Byte.x00.

(** [reinterpret_cast<const int8_t*>(this)[0]]. *)
Definition Rep_tag (r : list byte) : outcome Z :=
  b <- mem_read r 0 1 ;; Ret (to_int8 (le_combine b)).

Definition Rep_set_tag (r : list byte) (rhs : Z) : outcome (list byte) :=
  mem_write r 0 [byte_of_Z rhs].

(** [data + 1]: the 15 bytes after the tag. *)
Definition Rep_as_chars (r : list byte) : list byte := drop 1 r.

Definition Rep_is_tree (r : list byte) : outcome bool :=
  t <- Rep_tag r ;; Ret (negb (Z.land t 1 =? 0)).

Definition Rep_inline_size (ndebug : bool) (r : list byte) : outcome Z :=
  tree <- Rep_is_tree r ;;
  assert_ ndebug (negb tree) ;;;
  t <- Rep_tag r ;;
  Ret (Z.shiftr (to_size_t t) 1).


Definition Rep_tree (r : list byte) : outcome Z :=
  b <- mem_read r 8 8 ;; Ret (le_combine b).

Definition Rep_set_tree (r : list byte) (rhs : Z) : outcome (list byte) :=
  mem_write r 8 (le_split 8 rhs).

Definition Rep_cordz_info (r : list byte) : outcome Z :=
  b <- mem_read r 0 8 ;; Ret (to_int64 (le_combine b)).

Definition Rep_set_cordz_info (r : list byte) (rhs : Z)
  : outcome (list byte) :=
  mem_write r 0 (le_split 8 rhs).

Definition Rep_make_tree (r : list byte) (tree : Z) : outcome (list byte) :=
  r <- Rep_set_tree r tree ;;
  Rep_set_cordz_info r kNullCordzInfo.

(** [Rep(CordRep* rep) : as_tree(rep)], with the default member
    initializer [cordz_info = kNullCordzInfo]. *)
Definition Rep_of_tree (rep : Z) : list byte :=
  le_split 8 kNullCordzInfo ++ le_split 8 rep.

(** *** [InlineData]: a pointer is its 64-bit value, [nullptr] is 0 *)

Definition InlineData_default : list byte := Rep_default.

Definition InlineData_of_tree (ndebug : bool) (rep : Z)
  : outcome (list byte) :=
  let rep_ := Rep_of_tree rep in
  assert_ ndebug (negb (rep =? 0)) ;;;
  Ret rep_.

Definition is_tree (d : list byte) : outcome bool := Rep_is_tree d.

Definition is_profiled (ndebug : bool) (d : list byte) : outcome bool :=
  tree <- is_tree d ;;
  assert_ ndebug tree ;;;
  info <- Rep_cordz_info d ;;
  Ret (negb (info =? kNullCordzInfo)).

Definition is_either_profiled (ndebug : bool) (data1 data2 : list byte)
  : outcome bool :=
  tree1 <- is_tree data1 ;;
  tree2 <- is_tree data2 ;;
  assert_ ndebug (tree1 && tree2) ;;;
  info1 <- Rep_cordz_info data1 ;;
  info2 <- Rep_cordz_info data2 ;;
  Ret (negb (Z.lor info1 info2 =? kNullCordzInfo)).

(** [reinterpret_cast<uintptr_t>(cordz_info) | 1], stored as [int64_t]. *)
Definition set_cordz_info (ndebug : bool) (d : list byte) (cordz_info : Z)
  : outcome (list byte) :=
  tree <- is_tree d ;;
  assert_ ndebug tree ;;;
  let info := Z.lor cordz_info 1 in
  Rep_set_cordz_info d (to_int64 info).

Definition clear_cordz_info (ndebug : bool) (d : list byte)
  : outcome (list byte) :=
  tree <- is_tree d ;;
  assert_ ndebug tree ;;;
  Rep_set_cordz_info d kNullCordzInfo.

(** The [const] overload, which asserts that the value is inline. *)
Definition as_chars (ndebug : bool) (d : list byte) : outcome (list byte) :=
  tree <- is_tree d ;;
  assert_ ndebug (negb tree) ;;;
  Ret (Rep_as_chars d).

Definition as_tree (ndebug : bool) (d : list byte) : outcome Z :=
  tree <- is_tree d ;;
  assert_ ndebug tree ;;;
  Rep_tree d.

(** [data] is the buffer the argument points to, [n] the byte count. *)
Definition set_inline_data (ndebug : bool) (d : list byte)
    (data : list byte) (n : nat) : outcome (list byte) :=
  assert_ ndebug (bool_decide (n <= kMaxInline)%nat) ;;;
  d <- Rep_set_tag d (to_int8 (to_size_t (Z.shiftl (Z.of_nat n) 1))) ;;
  chars <- SmallMemmove ndebug true (Rep_as_chars d) data n ;;
  mem_write d 1 chars.

Definition make_tree (d : list byte) (rep : Z) : outcome (list byte) :=
  Rep_make_tree d rep.

Definition set_tree (ndebug : bool) (d : list byte) (rep : Z)
  : outcome (list byte) :=
  tree <- is_tree d ;;
  assert_ ndebug tree ;;;
  Rep_set_tree d rep.

Definition inline_size (ndebug : bool) (d : list byte) : outcome Z :=
  Rep_inline_size ndebug d.

(** The memory image of an inline value holding [data]: the tag byte,
    the characters, and zeroes up to 15 characters. *)
Definition inline_image (data : list byte) : list byte :=
  byte_of_Z (2 * Z.of_nat (length data))
    :: data ++ replicate (15 - length data) Byte.x00.

(** The values that hold a tree and whose [cordz_info] was written by
    [make_tree], [set_cordz_info] and [clear_cordz_info] only ([set_tree]
    leaves [cordz_info] alone). *)
Inductive tree_value (ndebug : bool) : list byte -> Prop :=
  | tv_make_tree d rep d' :
      length d = 16%nat -> is_size_t rep ->
      make_tree d rep = Ret d' -> tree_value ndebug d'
  | tv_set_cordz_info d info d' :
      tree_value ndebug d -> is_size_t info ->
      set_cordz_info ndebug d info = Ret d' -> tree_value ndebug d'
  | tv_clear_cordz_info d d' :
      tree_value ndebug d ->
      clear_cordz_info ndebug d = Ret d' -> tree_value ndebug d'
  | tv_set_tree d rep d' :
      tree_value ndebug d -> is_size_t rep ->
      set_tree ndebug d rep = Ret d' -> tree_value ndebug d'.

(** *** The [constexpr] constructors, comparison and the remaining
    accessors of [InlineData] *)

(** [GetOrNull(data, pos)]. *)
Definition GetOrNull (data : list byte) (pos : nat) : byte :=
  match data !! pos with
  | Some c => c
  | None => Byte.x00
  end.

(** [Rep(absl::string_view chars)]: the tag is
    [static_cast<char>(chars.size() << 1)]. *)
Definition Rep_of_chars (chars : list byte) : list byte :=
  [byte_of_Z (to_size_t (Z.shiftl (Z.of_nat (length chars)) 1));
   GetOrNull chars 0; GetOrNull chars 1; GetOrNull chars 2;
   GetOrNull chars 3; GetOrNull chars 4; GetOrNull chars 5;
   GetOrNull chars 6; GetOrNull chars 7; GetOrNull chars 8;
   GetOrNull chars 9; GetOrNull chars 10; GetOrNull chars 11;
   GetOrNull chars 12; GetOrNull chars 13; GetOrNull chars 14].

(** [constexpr InlineData(absl::string_view sv, CordRep* rep)]. *)
Definition InlineData_of (sv : list byte) (rep : Z) : list byte :=
  if negb (rep =? 0) then Rep_of_tree rep else Rep_of_chars sv.

(** [memcmp(&lhs, &rhs, sizeof(lhs)) == 0]. *)
Definition memcmp_eq (l r : list byte) : bool :=
  bool_decide (Z_of_byte <$> l = Z_of_byte <$> r).

Definition operator_eq (lhs rhs : list byte) : outcome bool :=
  l <- mem_read lhs 0 16 ;;
  r <- mem_read rhs 0 16 ;;
  Ret (memcmp_eq l r).

Definition operator_ne (lhs rhs : list byte) : outcome bool :=
  b <- operator_eq lhs rhs ;; Ret (negb b).


(** [InlineData::cordz_info()]: the pointer is returned as its 64-bit
    value. *)
Definition cordz_info (ndebug : bool) (d : list byte) : outcome Z :=
  tree <- is_tree d ;;
  assert_ ndebug tree ;;;
  i <- Rep_cordz_info d ;;
  let info := to_int64 (to_uint64 i) in
  assert_ ndebug (negb (Z.land info 1 =? 0)) ;;;
  Ret (to_uint64 (info - 1)).



(** [absl::big_endian::FromHost64] on the little endian host: the bytes
    of the word in reverse order. *)
Definition big_endian_FromHost64 (x : Z) : Z :=
  le_combine (reverse (le_split 8 x)).

(** The private [Compare(const Rep&, const Rep&)]; the two early
    [return]s of the equal case deliver the result at once, the other
    paths reach the big endian comparison of the last words read. *)
Definition Rep_Compare (ndebug : bool) (lhs rhs : list byte) : outcome Z :=
  bx <- mem_read (Rep_as_chars lhs) 0 8 ;;
  by_ <- mem_read (Rep_as_chars rhs) 0 8 ;;
  let x := le_combine bx in
  let y := le_combine by_ in
  r <- (if x =? y then
          bx <- mem_read (Rep_as_chars lhs) 7 8 ;;
          by_ <- mem_read (Rep_as_chars rhs) 7 8 ;;
          let x := le_combine bx in
          let y := le_combine by_ in
          if x =? y then
            l <- Rep_inline_size ndebug lhs ;;
            r <- Rep_inline_size ndebug rhs ;;
            if l =? r then Ret (inl 0)
            else
              l <- Rep_inline_size ndebug lhs ;;
              r <- Rep_inline_size ndebug rhs ;;
              Ret (inl (if l <? r then -1 else 1))
          else Ret (inr (x, y))
        else Ret (inr (x, y))) ;;
  match r with
  | inl result => Ret result
  | inr (x, y) =>
      let x := big_endian_FromHost64 x in
      let y := big_endian_FromHost64 y in
      Ret (if x <? y then -1 else 1)
  end.

Definition Compare (ndebug : bool) (d rhs : list byte) : outcome Z :=
  Rep_Compare ndebug d rhs.

(** [swap(lhs, rhs)] through [SwapValue]: the pair of the new values of
    [lhs] and [rhs]. *)
Definition Rep_SwapValue (this rhs refrhs : list byte)
  : outcome (list byte * list byte) :=
  b <- mem_read this 0 16 ;;
  refrhs <- mem_write refrhs 0 b ;;
  b <- mem_read rhs 0 16 ;;
  this <- mem_write this 0 b ;;
  Ret (this, refrhs).

Definition swap (lhs rhs : list byte) : outcome (list byte * list byte) :=
  Rep_SwapValue lhs rhs rhs.

(** The order of [std::string] comparison: byte by byte as unsigned
    values, a proper prefix first. *)
Fixpoint lexicographic (a b : list byte) : Z :=
  match a, b with
  | [], [] => 0
  | [], _ :: _ => -1
  | _ :: _, [] => 1
  | x :: a', y :: b' =>
      if Z_of_byte x <? Z_of_byte y then -1
      else if Z_of_byte y <? Z_of_byte x then 1
      else lexicographic a' b'
  end.

End InlineData.

(** ** [CordRep] and [CordRepSubstring] (cord_internal.h)

    Nodes live in a heap, a finite map from addresses to nodes.  The
    address [operator new] hands out is an argument of the functions that
    allocate; handing out a live address breaks the allocator's contract. *)

Module CordRep.
Local Open Scope Z_scope.

(** The fields the derived classes add to [CordRep]. *)
Inductive derived : Type :=
  | NoFields
  | SubstringFields (start : Z) (child : option nat)
  | ExternalFields (base : Z) (releaser_invoker : Z).

Record CordRep : Type := mkCordRep {
  length : Z;
  refcount : Z;
  tag : Z;
  fields : derived;
}.

Definition IsSubstring (r : CordRep) : bool := tag r =? SUBSTRING.
Definition IsCrc (r : CordRep) : bool := tag r =? CRC.
Definition IsExternal (r : CordRep) : bool := tag r =? EXTERNAL.
Definition IsFlat (r : CordRep) : bool := FLAT <=? tag r.
Definition IsBtree (r : CordRep) : bool := tag r =? BTREE.

(** Reading through a pointer: [nullptr] and dangling pointers are
    undefined behaviour. *)
Definition deref (h : gmap nat CordRep) (p : option nat)
  : outcome (nat * CordRep) :=
  match p with
  | None => Undefined
  | Some a => match h !! a with
              | Some r => Ret (a, r)
              | None => Undefined
              end
  end.

(** [rep->substring()], then its two fields. *)
Definition substring (ndebug : bool) (r : CordRep)
  : outcome (Z * option nat) :=
  assert_ ndebug (IsSubstring r) ;;;
  match fields r with
  | SubstringFields start child => Ret (start, child)
  | _ => Undefined
  end.

(** [CordRep::Ref]: [ABSL_ASSUME(rep != nullptr)], then
    [rep->refcount.Increment()]. *)
Definition Ref (ndebug : bool) (h : gmap nat CordRep) (rep : option nat)
  : outcome (gmap nat CordRep * option nat) :=
  assert_ ndebug (bool_decide (rep ≠ None)) ;;;
  ar <- deref h rep ;;
  let '(a, r) := ar in
  Ret (<[a := mkCordRep (length r) (RefcountAndFlags.Increment (refcount r))
                        (tag r) (fields r)]> h,
       rep).

(** [new CordRepSubstring()] at address [a]: value initialization zeroes
    the members, then the constructor of [RefcountAndFlags] runs. *)
Definition new_CordRepSubstring (h : gmap nat CordRep) (a : nat)
  : outcome (gmap nat CordRep) :=
  match h !! a with
  | Some _ => Undefined
  | None =>
      Ret (<[a := mkCordRep 0 RefcountAndFlags.RefcountAndFlags_default 0
                            (SubstringFields 0 None)]> h)
  end.

(** Assignment to the members of the node at [a]. *)
Definition store (h : gmap nat CordRep) (a : nat) (f : CordRep -> CordRep)
  : outcome (gmap nat CordRep) :=
  ar <- deref h (Some a) ;;
  Ret (<[a := f (snd ar)]> h).

Definition set_start (start : Z) (r : CordRep) : outcome CordRep :=
  match fields r with
  | SubstringFields _ child =>
      Ret (mkCordRep (length r) (refcount r) (tag r)
                     (SubstringFields start child))
  | _ => Undefined
  end.

Definition set_child (child : option nat) (r : CordRep) : outcome CordRep :=
  match fields r with
  | SubstringFields start _ =>
      Ret (mkCordRep (length r) (refcount r) (tag r)
                     (SubstringFields start child))
  | _ => Undefined
  end.

(** [CordRepSubstring::Substring(rep, pos, n)]; [fresh] is the address
    [operator new] returns if it is called. *)
Definition Substring (ndebug : bool) (h : gmap nat CordRep) (fresh : nat)
    (rep : option nat) (pos n : Z)
  : outcome (gmap nat CordRep * option nat) :=
  assert_ ndebug (bool_decide (rep ≠ None)) ;;;
  assert_ ndebug (negb (n =? 0)) ;;;
  ar <- deref h rep ;;
  assert_ ndebug (pos <? length (snd ar)) ;;;
  assert_ ndebug (n <=? to_size_t (length (snd ar) - pos)) ;;;
  if n =? length (snd ar) then Ref ndebug h rep
  else
    pr <- (if IsSubstring (snd ar)
           then
             s <- substring ndebug (snd ar) ;;
             Ret (to_size_t (pos + fst s), snd s)
           else Ret (pos, rep)) ;;
    let '(pos, rep) := pr in
    h <- new_CordRepSubstring h fresh ;;
    let substr := fresh in
    h <- store h substr (fun r => mkCordRep n (refcount r) (tag r) (fields r)) ;;
    h <- store h substr
           (fun r => mkCordRep (length r) (refcount r) SUBSTRING (fields r)) ;;
    ar <- deref h (Some substr) ;;
    r <- set_start pos (snd ar) ;;
    h <- store h substr (fun _ => r) ;;
    hc <- Ref ndebug h rep ;;
    ar <- deref (fst hc) (Some substr) ;;
    r <- set_child (snd hc) (snd ar) ;;
    h <- store (fst hc) substr (fun _ => r) ;;
    Ret (h, Some substr).

(** [LogFatalNodeType(rep)]: cord_internal.h declares it
    [ABSL_ATTRIBUTE_NORETURN] and documents that it emits a fatal error
    and aborts the program; its body is in cord_internal.cc.  It does so
    in every build. *)
Definition LogFatalNodeType {A : Type} (rep : option nat) : outcome A :=
  Abort.

(** [CordRepSubstring::Create(child, pos, n)]; [fresh] is the address
    [operator new] returns.  The new node takes over the caller's
    reference to [child]: no [Ref]. *)
Definition Create (ndebug : bool) (h : gmap nat CordRep) (fresh : nat)
    (child : option nat) (pos n : Z)
  : outcome (gmap nat CordRep * option nat) :=
  assert_ ndebug (bool_decide (child ≠ None)) ;;;
  assert_ ndebug (0 <? n) ;;;
  ar <- deref h child ;;
  assert_ ndebug (n <? length (snd ar)) ;;;
  assert_ ndebug (pos <? length (snd ar)) ;;;
  assert_ ndebug (n <=? to_size_t (length (snd ar) - pos)) ;;;
  (if negb (IsExternal (snd ar) || IsFlat (snd ar))
   then LogFatalNodeType child
   else Ret tt) ;;;
  h <- new_CordRepSubstring h fresh ;;
  let rep := fresh in
  h <- store h rep (fun r => mkCordRep n (refcount r) (tag r) (fields r)) ;;
  h <- store h rep
         (fun r => mkCordRep (length r) (refcount r) SUBSTRING (fields r)) ;;
  ar <- deref h (Some rep) ;;
  r <- set_start pos (snd ar) ;;
  h <- store h rep (fun _ => r) ;;
  ar <- deref h (Some rep) ;;
  r <- set_child child (snd ar) ;;
  h <- store h rep (fun _ => r) ;;
  Ret (h, Some rep).

(** [CordRep::Unref(rep)].  [CordRep::Destroy] is defined in
    cord_internal.cc; it is the argument [Destroy], which receives the
    heap after the decrement. *)
Definition Unref (ndebug : bool)
    (Destroy : gmap nat CordRep -> option nat -> outcome (gmap nat CordRep))
    (h : gmap nat CordRep) (rep : option nat)
  : outcome (gmap nat CordRep) :=
  assert_ ndebug (bool_decide (rep ≠ None)) ;;;
  ar <- deref h rep ;;
  let '(a, r) := ar in
  bc <- RefcountAndFlags.DecrementExpectHighRefcount ndebug (refcount r) ;;
  let h := <[a := mkCordRep (length r) (snd bc) (tag r) (fields r)]> h in
  if negb (fst bc) then Destroy h rep else Ret h.

(** The bytes a node stands for: the node that holds them, the offset
    of the first one and their number.  A substring node stands for a
    range of its child, every other node for all of itself. *)
Definition range_of (h : gmap nat CordRep) (a : nat)
  : option (nat * Z * Z) :=
  match h !! a with
  | None => None
  | Some r =>
      if IsSubstring r then
        match fields r with
        | SubstringFields start (Some c) => Some (c, start, length r)
        | _ => None
        end
      else Some (a, 0, length r)
  end.

(** Heaps as [Create] and [Substring] build them: lengths fit [size_t],
    and a substring node is a non-empty range within a live child that
    is not a substring node itself. *)
Definition substring_ok (h : gmap nat CordRep) (s : CordRep) : Prop :=
  exists start c cn,
    fields s = SubstringFields start (Some c) /\
    h !! c = Some cn /\ IsSubstring cn = false /\
    0 <= start /\ 0 < length s /\ start + length s <= length cn.

Definition well_formed (h : gmap nat CordRep) : Prop :=
  forall a r, h !! a = Some r ->
    is_size_t (length r) /\ (IsSubstring r = true -> substring_ok h r).

End CordRep.

(** ** [CordRepFlat]: allocation (cord_rep_flat.h)

    A flat node is its [CordRep] header followed by the payload.  On the
    64-bit target [length] takes 8 bytes, [refcount] 4 and [tag] 1, so
    [storage] is at offset 13 of a 16-byte header, and a node allocated
    with [operator new(size)] has [size - 13] bytes from [storage] on.  A
    block of the heap records the header, the size it was allocated with
    and these bytes; a byte that was never written is [None]. *)

Module FlatAlloc.
Import CordRep CordRepFlat.
Local Open Scope Z_scope.

(** [offsetof(CordRep, storage)]. *)
Definition kFlatOverhead : Z := 13.

Definition kMaxFlatLength : Z := kMaxFlatSize - kFlatOverhead.
Definition kMinFlatLength : Z := kMinFlatSize - kFlatOverhead.
Definition kMaxLargeFlatLength : Z := kMaxLargeFlatSize - kFlatOverhead.

Definition TagToLength (tag : Z) : Z :=
  to_size_t (TagToAllocatedSize tag - kFlatOverhead).

Record block : Type := mkBlock {
  header : CordRep;
  allocated : Z;
  storage : list (option byte);
}.

(** [NewImpl<max_flat_size>(len)]; [fresh] is the address that
    [operator new] returns.  The placement [new CordRepFlat()] zeroes the
    header, [storage[3]] included, and runs the constructor of the
    counter. *)
Definition NewImpl (ndebug : bool) (max_flat_size : Z)
    (h : gmap nat block) (fresh : nat) (len : Z)
  : outcome (gmap nat block * nat) :=
  let len :=
    if len <=? kMinFlatLength then kMinFlatLength
    else if to_size_t (max_flat_size - kFlatOverhead) <? len
         then to_size_t (max_flat_size - kFlatOverhead)
         else len in
  let size := RoundUpForTag (to_size_t (len + kFlatOverhead)) in
  match h !! fresh with
  | Some _ => Undefined
  | None =>
      let bytes := replicate 3 (Some Byte.x00)
                   ++ replicate (Z.to_nat (size - 16)) None in
      tag <- AllocatedSizeToTag ndebug size ;;
      Ret (<[fresh := mkBlock
                        (mkCordRep 0 RefcountAndFlags.RefcountAndFlags_default
                                   tag NoFields)
                        size bytes]> h,
           fresh)
  end.

Definition New (ndebug : bool) (h : gmap nat block) (fresh : nat) (len : Z)
  : outcome (gmap nat block * nat) :=
  NewImpl ndebug kMaxFlatSize h fresh len.

Definition New_Large (ndebug : bool) (h : gmap nat block) (fresh : nat)
    (len : Z) : outcome (gmap nat block * nat) :=
  NewImpl ndebug kMaxLargeFlatSize h fresh len.

(** [CordRepFlat::Delete(rep)].  With [__cpp_sized_deallocation] the size
    computed from the tag is passed to [operator delete]; a size other
    than the allocated one is undefined behaviour. *)
Definition Delete (ndebug sized_deallocation : bool) (h : gmap nat block)
    (rep : option nat) : outcome (gmap nat block) :=
  match rep with
  | None => Undefined
  | Some a =>
      match h !! a with
      | None => Undefined
      | Some b =>
          assert_ ndebug ((FLAT <=? tag (header b))
                          && (tag (header b) <=? MAX_FLAT_TAG)) ;;;
          if sized_deallocation then
            let size := TagToAllocatedSize (tag (header b)) in
            if size =? allocated b then Ret (delete a h) else Undefined
          else Ret (delete a h)
      end
  end.

(** [memcpy(flat->Data(), data, n)] on the bytes from [storage] on. *)
Definition write_storage (s : list (option byte)) (data : list byte)
  : outcome (list (option byte)) :=
  if decide (Datatypes.length data <= Datatypes.length s)%nat
  then Ret ((Some <$> data) ++ drop (Datatypes.length data) s)
  else Undefined.

(** [CordRepFlat::Create(data, extra)]. *)
Definition Create (ndebug : bool) (h : gmap nat block) (fresh : nat)
    (data : list byte) (extra : Z) : outcome (gmap nat block * nat) :=
  let size := Z.of_nat (Datatypes.length data) in
  assert_ ndebug (size <=? kMaxFlatLength) ;;;
  r <- New ndebug h fresh (to_size_t (size + Z.min extra kMaxFlatLength)) ;;
  let '(h, flat) := r in
  match h !! flat with
  | None => Undefined
  | Some b =>
      s <- write_storage (storage b) data ;;
      let hd := header b in
      Ret (<[flat := mkBlock (mkCordRep size (refcount hd) (tag hd)
                                        (fields hd))
                             (allocated b) s]> h,
           flat)
  end.

(** [Capacity()] and [AllocatedSize()]. *)
Definition Capacity (b : block) : Z := TagToLength (tag (header b)).
Definition AllocatedSize (b : block) : Z :=
  TagToAllocatedSize (tag (header b)).

End FlatAlloc.

(** ** [CordzHandle] and the global delete queue (cordz_handle.cc) *)

Module CordzHandle.

Record CordzHandle : Type := mkCordzHandle {
  is_snapshot_ : bool;
  dq_prev_ : option nat;
  dq_next_ : option nat;
}.

(** The process state: the live handles and [GlobalQueue().dq_tail]. *)
Record Global : Type := mkGlobal {
  handles : gmap nat CordzHandle;
  dq_tail : option nat;
}.

Definition Global_init : Global := mkGlobal ∅ None.

Definition deref (g : Global) (p : nat) : outcome CordzHandle :=
  match handles g !! p with
  | Some x => Ret x
  | None => Undefined
  end.

Definition set_dq_prev_ (g : Global) (p : nat) (v : option nat)
  : outcome Global :=
  x <- deref g p ;;
  Ret (mkGlobal (<[p := mkCordzHandle (is_snapshot_ x) v (dq_next_ x)]>
                   (handles g))
                (dq_tail g)).

Definition set_dq_next_ (g : Global) (p : nat) (v : option nat)
  : outcome Global :=
  x <- deref g p ;;
  Ret (mkGlobal (<[p := mkCordzHandle (is_snapshot_ x) (dq_prev_ x) v]>
                   (handles g))
                (dq_tail g)).

Definition store_dq_tail (g : Global) (v : option nat) : Global :=
  mkGlobal (handles g) v.

(** [Queue::IsEmpty]. *)
Definition IsEmpty (g : Global) : bool := bool_decide (dq_tail g = None).

Definition is_snapshot (g : Global) (this : nat) : outcome bool :=
  x <- deref g this ;; Ret (is_snapshot_ x).

(** [new T(...)] running [CordzHandle::CordzHandle(bool is_snapshot)] on
    the storage at [this]. *)
Definition new_CordzHandle (g : Global) (this : nat) (is_snapshot : bool)
  : outcome Global :=
  match handles g !! this with
  | Some _ => Undefined
  | None =>
      let g := mkGlobal (<[this := mkCordzHandle is_snapshot None None]>
                           (handles g))
                        (dq_tail g) in
      if is_snapshot then
        g <- match dq_tail g with
             | Some tail =>
                 g <- set_dq_prev_ g this (Some tail) ;;
                 set_dq_next_ g tail (Some this)
             | None => Ret g
             end ;;
        Ret (store_dq_tail g (Some this))
      else Ret g
  end.

(** The [while (next && !next->is_snapshot_)] loop of the destructor:
    returns [to_delete] and the final [next]. *)
Fixpoint collect_to_delete (fuel : nat) (g : Global) (next : option nat)
  : outcome (list nat * option nat) :=
  match next with
  | None => Ret ([], None)
  | Some a =>
      x <- deref g a ;;
      if is_snapshot_ x then Ret ([], next)
      else
        match fuel with
        | O => OutOfFuel
        | S fuel' =>
            r <- collect_to_delete fuel' g (dq_next_ x) ;;
            Ret (a :: fst r, snd r)
        end
  end.

(** [operator delete]: the storage is gone. *)
Definition free (g : Global) (p : nat) : Global :=
  mkGlobal (delete p (handles g)) (dq_tail g).

(** [~CordzHandle] on [this], and [delete handle], which runs the
    destructor and frees the storage.  The destructor deletes the handles
    it collected; [fuel] bounds that nesting and the loop. *)
Fixpoint destructor (fuel : nat) (g : Global) (this : nat)
  : outcome Global :=
  match fuel with
  | O => OutOfFuel
  | S fuel' =>
      x <- deref g this ;;
      if is_snapshot_ x then
        let next := dq_next_ x in
        r <- match dq_prev_ x with
             | None =>
                 r <- collect_to_delete fuel' g next ;;
                 Ret (fst r, snd r, g)
             | Some prev =>
                 g <- set_dq_next_ g prev next ;;
                 Ret ([], next, g)
             end ;;
        let '(to_delete, next, g) := r in
        g <- match next with
             | Some nx => set_dq_prev_ g nx (dq_prev_ x)
             | None => Ret (store_dq_tail g (dq_prev_ x))
             end ;;
        foldl (fun acc handle =>
                 g <- acc ;;
                 g <- destructor fuel' g handle ;;
                 Ret (free g handle))
              (Ret g) to_delete
      else Ret g
  end.

Definition delete_ (fuel : nat) (g : Global) (handle : nat)
  : outcome Global :=
  g <- destructor fuel g handle ;;
  Ret (free g handle).

Definition SafeToDelete (g : Global) (this : nat) : outcome bool :=
  x <- deref g this ;;
  Ret (is_snapshot_ x || IsEmpty g).

(** [CordzHandle::Delete(handle)]. *)
Definition Delete (ndebug : bool) (fuel : nat) (g : Global)
    (handle : option nat) : outcome Global :=
  assert_ ndebug (bool_decide (handle ≠ None)) ;;;
  match handle with
  | Some h =>
      safe <- SafeToDelete g h ;;
      match (if safe then None else dq_tail g) with
      | Some tail =>
          g <- set_dq_prev_ g h (Some tail) ;;
          g <- set_dq_next_ g tail (Some h) ;;
          Ret (store_dq_tail g (Some h))
      | None => delete_ fuel g h
      end
  | None => Ret g
  end.

(** The loop [for (p = dq_tail; p; p = p->dq_prev_)]. *)
Fixpoint walk_prev (fuel : nat) (g : Global) (p : option nat)
  : outcome (list nat) :=
  match p with
  | None => Ret []
  | Some a =>
      match fuel with
      | O => OutOfFuel
      | S fuel' =>
          x <- deref g a ;;
          r <- walk_prev fuel' g (dq_prev_ x) ;;
          Ret (a :: r)
      end
  end.

Definition DiagnosticsGetDeleteQueue (fuel : nat) (g : Global)
  : outcome (list nat) :=
  walk_prev fuel g (dq_tail g).

(** The loop of [DiagnosticsHandleIsSafeToInspect]; [None] is the loop
    running to its end, with the last value of [snapshot_found]. *)
Fixpoint inspect_loop (fuel : nat) (g : Global) (this handle : nat)
    (snapshot_found : bool) (p : option nat) : outcome (bool + bool) :=
  match p with
  | None => Ret (inr snapshot_found)
  | Some a =>
      if decide (a = handle) then Ret (inl (negb snapshot_found))
      else
        match fuel with
        | O => OutOfFuel
        | S fuel' =>
            x <- deref g a ;;
            inspect_loop fuel' g this handle
              (if decide (a = this) then true else snapshot_found)
              (dq_prev_ x)
        end
  end.

Definition DiagnosticsHandleIsSafeToInspect (ndebug : bool) (fuel : nat)
    (g : Global) (this : nat) (handle : option nat) : outcome bool :=
  x <- deref g this ;;
  if negb (is_snapshot_ x) then Ret false
  else
    match handle with
    | None => Ret true
    | Some h =>
        y <- deref g h ;;
        if is_snapshot_ y then Ret false
        else
          r <- inspect_loop fuel g this h false (dq_tail g) ;;
          match r with
          | inl b => Ret b
          | inr snapshot_found =>
              assert_ ndebug snapshot_found ;;; Ret true
          end
    end.

(** The loop [for (p = dq_next_; p != nullptr; p = p->dq_next_)]. *)
Fixpoint walk_next (fuel : nat) (g : Global) (p : option nat)
  : outcome (list nat) :=
  match p with
  | None => Ret []
  | Some a =>
      match fuel with
      | O => OutOfFuel
      | S fuel' =>
          x <- deref g a ;;
          r <- walk_next fuel' g (dq_next_ x) ;;
          Ret (if negb (is_snapshot_ x) then a :: r else r)
      end
  end.

Definition DiagnosticsGetSafeToInspectDeletedHandles (fuel : nat)
    (g : Global) (this : nat) : outcome (list nat) :=
  x <- deref g this ;;
  if negb (is_snapshot_ x) then Ret []
  else walk_next fuel g (dq_next_ x).

(** *** The queue as a sequence

    [segment g prev l next]: the handles of [l] are linked one to the
    next in that order; the first one points back to [prev] and the last
    one forward to [next].  [queue g l]: the delete queue of [g] holds the
    handles of [l], oldest first, and the last one is the tail. *)
Definition first_or (l : list nat) (next : option nat) : option nat :=
  match l with
  | [] => next
  | a :: _ => Some a
  end.

Fixpoint last_or (prev : option nat) (l : list nat) : option nat :=
  match l with
  | [] => prev
  | a :: l' => last_or (Some a) l'
  end.

Fixpoint segment (g : Global) (prev : option nat) (l : list nat)
    (next : option nat) : Prop :=
  match l with
  | [] => True
  | a :: l' =>
      (exists x, handles g !! a = Some x /\ dq_prev_ x = prev /\
                 dq_next_ x = first_or l' next) /\
      segment g (Some a) l' next
  end.

Definition queue (g : Global) (l : list nat) : Prop :=
  segment g None l None /\ dq_tail g = last l.

Definition snapshot_in (g : Global) (a : nat) : bool :=
  match handles g !! a with
  | Some x => is_snapshot_ x
  | None => false
  end.

(** What the specification's sentence describes: the handles after the
    caller up to the next snapshot, that snapshot excluded. *)
Fixpoint up_to_next_snapshot (g : Global) (l : list nat) : list nat :=
  match l with
  | [] => []
  | a :: l' => if snapshot_in g a then [] else a :: up_to_next_snapshot g l'
  end.

(** The rest of the queue from the next snapshot on. *)
Fixpoint from_next_snapshot (g : Global) (l : list nat) : list nat :=
  match l with
  | [] => []
  | a :: l' => if snapshot_in g a then l else from_next_snapshot g l'
  end.

(** The invariant of the process state: the queue is a sequence without
    repetition, and a live handle outside of it is not a snapshot and has
    no successor. *)
Definition invariant (g : Global) (l : list nat) : Prop :=
  queue g l /\ NoDup l /\
  forall a x, handles g !! a = Some x -> a ∉ l ->
              is_snapshot_ x = false /\ dq_next_ x = None.

(** The states a program reaches through the public operations: creating
    a handle or a snapshot, and [Delete] of a live handle that was not
    passed to [Delete] before (it is not in the queue that
    [DiagnosticsGetDeleteQueue] reports).  The operations are run with
    more fuel than there are live handles. *)
Inductive reachable : Global -> Prop :=
  | reach_init : reachable Global_init
  | reach_new g this is_snapshot g' :
      reachable g ->
      new_CordzHandle g this is_snapshot = Ret g' ->
      reachable g'
  | reach_Delete ndebug fuel g handle x q g' :
      reachable g ->
      handles g !! handle = Some x ->
      DiagnosticsGetDeleteQueue fuel g = Ret q ->
      (is_snapshot_ x = false -> handle ∉ q) ->
      size (handles g) < fuel ->
      Delete ndebug fuel g (Some handle) = Ret g' ->
      reachable g'.

(** Whether the storage of [a] was freed: what the tests observe through
    the destructor of [CordzHandleDeleteTracker]. *)
Definition deleted (g : Global) (a : nat) : bool :=
  match handles g !! a with
  | Some _ => false
  | None => true
  end.

(** A run with two snapshots, each followed by a deferred handle, and
    the state it ends in. *)
Definition two_snapshots : outcome Global :=
  g <- new_CordzHandle Global_init 1 true ;;
  g <- new_CordzHandle g 2 false ;;
  g <- Delete false 4 g (Some 2) ;;
  g <- new_CordzHandle g 3 true ;;
  g <- new_CordzHandle g 4 false ;;
  Delete false 4 g (Some 4).

Definition two_snapshots_state : Global :=
  mkGlobal (<[1 := mkCordzHandle true None (Some 2)]>
            (<[2 := mkCordzHandle false (Some 1) (Some 3)]>
             (<[3 := mkCordzHandle true (Some 2) (Some 4)]>
              (<[4 := mkCordzHandle false (Some 3) None]> ∅))))
           (Some 4).

(** [flags_kept g g']: every handle that is live in [g'] was live in
    [g], with the same [is_snapshot_] (a [const] member). *)
Definition flags_kept (g g' : Global) : Prop :=
  forall a x', handles g' !! a = Some x' ->
    exists x, handles g !! a = Some x /\ is_snapshot_ x' = is_snapshot_ x.

(** The loop of [DiagnosticsHandleIsSafeToInspect] on the handles it
    visits, in the order of the visit. *)
Fixpoint inspect_list (this handle : nat) (snapshot_found : bool)
    (visited : list nat) : bool + bool :=
  match visited with
  | [] => inr snapshot_found
  | a :: visited' =>
      if decide (a = handle) then inl (negb snapshot_found)
      else inspect_list this handle
             (if decide (a = this) then true else snapshot_found) visited'
  end.

End CordzHandle.

(** * Properties *)

(** ** Machine integers and bytes *)

Section Bytes.
Local Open Scope Z_scope.

Lemma to_size_t_small x : is_size_t x -> to_size_t x = x.
Proof. intros H. apply Z.mod_small. exact H. Qed.

Lemma odd_to_signed w x : 2 <= w -> Z.odd (to_signed w x) = Z.odd x.
Proof.
  intros Hw. unfold to_signed.
  assert (0 < 2 ^ (w - 2)) by (apply Z.pow_pos_nonneg; lia).
  assert (2 ^ (w - 1) = 2 * 2 ^ (w - 2)) as ->.
  { rewrite <- Z.pow_succ_r by lia. f_equal. lia. }
  assert (2 ^ w = 2 * (2 * 2 ^ (w - 2))) as ->.
  { rewrite <- !Z.pow_succ_r by lia. f_equal. lia. }
  generalize dependent (2 ^ (w - 2)). intros P HP.
  rewrite Z.mod_eq by lia.
  set (q := (x + 2 * P) / (2 * (2 * P))).
  replace (x + 2 * P - 2 * (2 * P) * q - 2 * P)
    with (x + 2 * (- (2 * P) * q)) by lia.
  apply Z.odd_add_mul_2.
Qed.

Lemma to_signed_id w x :
  1 <= w -> - 2 ^ (w - 1) <= x < 2 ^ (w - 1) -> to_signed w x = x.
Proof.
  intros Hw Hx. unfold to_signed.
  assert (2 ^ w = 2 * 2 ^ (w - 1)) as E.
  { rewrite <- Z.pow_succ_r by lia. f_equal. lia. }
  rewrite Z.mod_small by lia. lia.
Qed.

Lemma to_signed_range w x :
  1 <= w -> - 2 ^ (w - 1) <= to_signed w x < 2 ^ (w - 1).
Proof.
  intros Hw. unfold to_signed.
  assert (2 ^ w = 2 * 2 ^ (w - 1)) as E.
  { rewrite <- Z.pow_succ_r by lia. f_equal. lia. }
  assert (0 < 2 ^ w) by (apply Z.pow_pos_nonneg; lia).
  pose proof (Z.mod_pos_bound (x + 2 ^ (w - 1)) (2 ^ w)). lia.
Qed.

(** A signed conversion does not change the value modulo [2 ^ w]. *)
Lemma to_signed_mod w x : 1 <= w -> to_signed w x mod 2 ^ w = x mod 2 ^ w.
Proof.
  intros Hw. unfold to_signed.
  assert (0 < 2 ^ w) by (apply Z.pow_pos_nonneg; lia).
  rewrite (Z.mod_eq (x + 2 ^ (w - 1))) by lia.
  replace (x + 2 ^ (w - 1) - 2 ^ w * ((x + 2 ^ (w - 1)) / 2 ^ w)
           - 2 ^ (w - 1))
    with (x + - ((x + 2 ^ (w - 1)) / 2 ^ w) * 2 ^ w) by lia.
  apply Z.mod_add. lia.
Qed.

Lemma to_signed_mod_idemp w x :
  1 <= w -> to_signed w (x mod 2 ^ w) = to_signed w x.
Proof.
  intros Hw. unfold to_signed.
  assert (0 < 2 ^ w) by (apply Z.pow_pos_nonneg; lia).
  f_equal. rewrite Z.add_mod_idemp_l by lia. reflexivity.
Qed.

Lemma Z_of_byte_range b : 0 <= Z_of_byte b < 256.
Proof.
  unfold Z_of_byte. pose proof (Byte.to_N_bounded b). lia.
Qed.

Lemma Z_of_byte_of_Z z : Z_of_byte (byte_of_Z z) = z mod 256.
Proof.
  unfold Z_of_byte, byte_of_Z.
  pose proof (Z.mod_pos_bound z 256 eq_refl) as Hb.
  destruct (Byte.of_N (Z.to_N (z mod 256))) as [b|] eqn:E.
  - apply Byte.to_of_N in E. rewrite E. lia.
  - apply Byte.of_N_None_iff in E. lia.
Qed.

Lemma byte_of_Z_of_byte b : byte_of_Z (Z_of_byte b) = b.
Proof.
  unfold byte_of_Z. rewrite Z.mod_small by apply Z_of_byte_range.
  unfold Z_of_byte. rewrite N2Z.id, Byte.of_to_N. reflexivity.
Qed.

Lemma length_le_split n w : length (le_split n w) = n.
Proof. revert w. induction n; intros; cbn [le_split length]; auto. Qed.

Lemma le_combine_split n w :
  le_combine (le_split n w) = w mod 256 ^ Z.of_nat n.
Proof.
  revert w. induction n as [|n IH]; intros w.
  - cbn [le_split le_combine]. change (256 ^ Z.of_nat 0) with 1.
    symmetry. apply Z.mod_1_r.
  - cbn [le_split le_combine]. rewrite IH, Z_of_byte_of_Z.
    rewrite Nat2Z.inj_succ, Z.pow_succ_r by lia.
    assert (0 < 256 ^ Z.of_nat n) by (apply Z.pow_pos_nonneg; lia).
    rewrite Z.rem_mul_r by lia. reflexivity.
Qed.

Lemma le_combine_range bs : 0 <= le_combine bs < 256 ^ Z.of_nat (length bs).
Proof.
  induction bs as [|b bs IH]; cbn [le_combine length].
  - change (256 ^ Z.of_nat 0) with 1. lia.
  - rewrite Nat2Z.inj_succ, Z.pow_succ_r by lia.
    pose proof (Z_of_byte_range b). lia.
Qed.

Lemma byte_of_Z_mod z : byte_of_Z (z mod 256) = byte_of_Z z.
Proof. unfold byte_of_Z. rewrite Z.mod_mod by lia. reflexivity. Qed.

Lemma split_le_combine bs : le_split (length bs) (le_combine bs) = bs.
Proof.
  induction bs as [|b bs IH]; cbn [le_combine length le_split]; [done|].
  pose proof (Z_of_byte_range b).
  f_equal.
  - rewrite <- byte_of_Z_mod.
    replace (Z_of_byte b + 256 * le_combine bs)
      with (Z_of_byte b + le_combine bs * 256) by lia.
    rewrite Z.mod_add by lia. rewrite byte_of_Z_mod.
    apply byte_of_Z_of_byte.
  - replace (Z_of_byte b + 256 * le_combine bs)
      with (Z_of_byte b + le_combine bs * 256) by lia.
    rewrite Z.div_add by lia.
    rewrite Z.div_small by lia. exact IH.
Qed.

Lemma assert_true ndebug c : c = true -> assert_ ndebug c = Ret tt.
Proof. intros ->. unfold assert_. by rewrite orb_true_r. Qed.

End Bytes.

Section Mem.

Lemma mem_read_prefix (a b : list byte) k :
  length a = k -> mem_read (a ++ b) 0 k = Ret a.
Proof.
  intros <-. unfold mem_read. rewrite length_app.
  rewrite decide_True by lia. rewrite drop_0, take_app_length. reflexivity.
Qed.

Lemma mem_read_suffix (a b : list byte) off k :
  length a = off -> length b = k -> mem_read (a ++ b) off k = Ret b.
Proof.
  intros <- <-. unfold mem_read. rewrite length_app.
  rewrite decide_True by lia. rewrite drop_app_length, firstn_all. reflexivity.
Qed.

Lemma mem_write_prefix (a b bs : list byte) :
  length bs = length a -> mem_write (a ++ b) 0 bs = Ret (bs ++ b).
Proof.
  intros E. unfold mem_write. rewrite length_app.
  rewrite decide_True by lia. cbn [take Nat.add app].
  rewrite E, drop_app_length. reflexivity.
Qed.

Lemma mem_write_suffix (a b bs : list byte) off :
  length a = off -> length bs = length b ->
  mem_write (a ++ b) off bs = Ret (a ++ bs).
Proof.
  intros <- E. unfold mem_write. rewrite length_app.
  rewrite decide_True by lia. rewrite take_app_length.
  rewrite E, <- length_app, drop_all, app_nil_r. reflexivity.
Qed.

Lemma split_at (n : nat) (d : list byte) :
  (n <= length d)%nat -> d = take n d ++ drop n d /\ length (take n d) = n.
Proof.
  intros H. split; [symmetry; apply take_drop|].
  rewrite length_take. lia.
Qed.

End Mem.

(** ** [RefcountAndFlags] *)

Section Refcount.
Import RefcountAndFlags.
Local Open Scope Z_scope.

Lemma to_int32_id c : is_int32 c -> to_int32 c = c.
Proof.
  unfold is_int32, to_int32, to_signed. intros H.
  change (2 ^ (32 - 1)) with 2147483648 in *.
  change (2 ^ 32) with 4294967296. change (2^31) with 2147483648 in H.
  rewrite Z.mod_small by lia. lia.
Qed.

Lemma to_int32_range x : is_int32 (to_int32 x).
Proof.
  unfold is_int32, to_int32, to_signed.
  change (2 ^ (32 - 1)) with 2147483648.
  change (2 ^ 32) with 4294967296. change (2^31) with 2147483648.
  pose proof (Z.mod_pos_bound (x + 2147483648) 4294967296). lia.
Qed.

Lemma has_flag_immortal_odd c : has_flag c kImmortalFlag = Z.odd c.
Proof.
  unfold has_flag, kImmortalFlag.
  change 1 with (Z.ones 1). rewrite Z.land_ones by lia.
  change (2 ^ 1) with 2. rewrite Zmod_odd.
  destruct (Z.odd c); reflexivity.
Qed.

Lemma Get_nonneg c : 0 <= c -> is_int32 c -> Get c = c / 2.
Proof.
  unfold Get, is_int32, to_size_t, to_unsigned, kNumFlags. intros H0 H.
  rewrite Z.shiftr_div_pow2 by lia. change (2 ^ 1) with 2.
  change (2^31) with 2147483648 in H.
  apply Z.mod_small. split. { apply Z.div_pos; lia. }
  apply Z.div_lt_upper_bound; lia.
Qed.

Lemma Get_neg c : c < 0 -> is_int32 c -> Get c = 2 ^ 64 + c / 2.
Proof.
  unfold Get, is_int32, to_size_t, to_unsigned, kNumFlags. intros H0 H.
  rewrite Z.shiftr_div_pow2 by lia. change (2 ^ 1) with 2.
  change (2^31) with 2147483648 in H.
  assert (-1073741824 <= c / 2 < 0).
  { split. - apply Z.div_le_lower_bound; lia. - apply Z.div_lt_upper_bound; lia. }
  symmetry. apply Z.mod_unique with (q := -1); lia.
Qed.

Lemma Get_one c : is_int32 c -> (Get c = 1 <-> c = 2 \/ c = 3).
Proof.
  intros H. destruct (Z_lt_le_dec c 0).
  - rewrite Get_neg by done. unfold is_int32 in H.
    change (2^31) with 2147483648 in H.
    assert (-1073741824 <= c / 2 < 0).
    { split. - apply Z.div_le_lower_bound; lia. - apply Z.div_lt_upper_bound; lia. }
    change (2^64) with 18446744073709551616. lia.
  - rewrite Get_nonneg by done. split.
    + intros E. pose proof (Z.div_mod c 2). pose proof (Z.mod_pos_bound c 2). lia.
    + intros [-> | ->]; reflexivity.
Qed.

Lemma one_live_reference c :
  is_int32 c -> (c = kRefIncrement <-> Get c = 1 /\ IsImmortal c = false).
Proof.
  intros H. rewrite Get_one by done. unfold IsImmortal.
  rewrite has_flag_immortal_odd. change kRefIncrement with 2.
  split.
  - intros ->. split; [by left | reflexivity].
  - intros [[-> | ->] Ho]; [reflexivity | discriminate].
Qed.


Lemma Decrement_odd ndebug c :
  is_int32 c -> Z.odd c = true ->
  Decrement ndebug c = Ret (true, to_int32 (c - kRefIncrement)).
Proof.
  intros Hc Ho. unfold Decrement, assert_.
  rewrite has_flag_immortal_odd, Ho, !orb_true_r. cbn [obind].
  assert ((c =? kRefIncrement) = false) as ->; [|reflexivity].
  apply Z.eqb_neq. intros ->. discriminate.
Qed.

Lemma Decrement_times_odd ndebug n : forall c,
  is_int32 c -> Z.odd c = true ->
  exists c', Decrement_times ndebug n c = Ret (repeat true n, c').
Proof.
  induction n as [|n IH]; intros c Hc Ho; cbn [Decrement_times repeat].
  - by exists c.
  - rewrite Decrement_odd by done. cbn [obind snd fst].
    destruct (IH (to_int32 (c - kRefIncrement))) as [c' ->].
    + apply to_int32_range.
    + unfold to_int32. rewrite odd_to_signed by lia. rewrite Z.odd_sub, Ho. reflexivity.
    + cbn [obind fst snd]. by exists c'.
Qed.

(** C6.  On a counter that holds a live reference (the precondition the
    code asserts: [count_ > 0] or the immortal flag), [Decrement] and
    [DecrementExpectHighRefcount] return the same value, and that value is
    [false] exactly when the live count was one on a counter that is not
    immortal, which is exactly when the subtraction brings the stored value
    to zero; [Decrement] itself skips the store in that case.  On a counter
    with the immortal flag every one of [n] calls in a row returns [true],
    for every [n]. *)
Theorem Decrement_false_iff_last_reference (ndebug : bool) (c : Z) (n : nat) :
  is_int32 c -> 0 < c \/ IsImmortal c = true ->
  (exists b c1 c2,
      Decrement ndebug c = Ret (b, c1) /\
      DecrementExpectHighRefcount ndebug c = Ret (b, c2) /\
      (b = false <-> Get c = 1 /\ IsImmortal c = false) /\
      (b = false <-> c2 = 0) /\
      c1 = (if b then c2 else c)) /\
  (IsImmortal c = true ->
   exists c', Decrement_times ndebug n c = Ret (repeat true n, c')).
Proof.
  intros Hc Hlive. split.
  - assert ((0 <? c) || has_flag c kImmortalFlag = true) as Hassert.
    { destruct Hlive as [H | H].
      - apply Z.ltb_lt in H. by rewrite H.
      - unfold IsImmortal in H. by rewrite H, orb_true_r. }
    exists (negb (c =? kRefIncrement)), 
      (if negb (c =? kRefIncrement) then to_int32 (c - kRefIncrement) else c),
      (to_int32 (c - kRefIncrement)).
    unfold Decrement, DecrementExpectHighRefcount, assert_.
    rewrite Hassert, orb_true_r. cbn [obind].
    rewrite <- one_live_reference by done.
    destruct (Z.eqb_spec c kRefIncrement) as [-> | Hne]; cbn [negb].
    + repeat split; auto.
    + repeat split; try congruence; try discriminate.
      intros E. exfalso. apply Hne.
      unfold to_int32, to_signed, is_int32, kRefIncrement in *.
      change (Z.shiftl 1 kNumFlags) with 2 in *.
      change (2 ^ (32 - 1)) with 2147483648 in *.
      change (2 ^ 32) with 4294967296 in *. change (2^31) with 2147483648 in *.
      destruct (Z_lt_le_dec c (-2147483646)).
      * rewrite <- (Z.mod_add _ 1) in E by lia. rewrite Z.mod_small in E; lia.
      * rewrite Z.mod_small in E; lia.
  - unfold IsImmortal. rewrite has_flag_immortal_odd.
    apply Decrement_times_odd; done.
Qed.

Lemma Decrement_false_iff_last_reference_witness :
  (exists b c1 c2,
      Decrement false RefcountAndFlags_Immortal = Ret (b, c1) /\
      DecrementExpectHighRefcount false RefcountAndFlags_Immortal = Ret (b, c2) /\
      (b = false <-> Get RefcountAndFlags_Immortal = 1 /\
                     IsImmortal RefcountAndFlags_Immortal = false) /\
      (b = false <-> c2 = 0) /\
      c1 = (if b then c2 else RefcountAndFlags_Immortal)) /\
  (IsImmortal RefcountAndFlags_Immortal = true ->
   exists c', Decrement_times false 5 RefcountAndFlags_Immortal
              = Ret (repeat true 5, c')).
Proof.
  apply (Decrement_false_iff_last_reference false RefcountAndFlags_Immortal 5).
  - unfold is_int32, RefcountAndFlags_Immortal, kImmortalFlag. lia.
  - left. reflexivity.
Defined.

(** C7, amended.  [IsOne] returns [true] exactly when the count is one
    live reference and the counter is not immortal. *)
Theorem IsOne_iff_one_reference_not_immortal (c : Z) :
  is_int32 c -> (IsOne c = true <-> Get c = 1 /\ IsImmortal c = false).
Proof.
  intros Hc. rewrite <- one_live_reference by done.
  unfold IsOne. apply Z.eqb_eq.
Qed.

Lemma IsOne_iff_one_reference_not_immortal_witness :
  IsOne RefcountAndFlags_default = true <->
  Get RefcountAndFlags_default = 1 /\ IsImmortal RefcountAndFlags_default = false.
Proof.
  apply (IsOne_iff_one_reference_not_immortal RefcountAndFlags_default).
  unfold is_int32. vm_compute. split; [discriminate | reflexivity].
Defined.

(** The claim C7 as stated fails on an immortal counter that was
    incremented once. *)
Lemma IsOne_immortal_counterexample :
  let c := Increment RefcountAndFlags_Immortal in
  is_int32 c /\ IsImmortal c = true /\ Get c = 1 /\ IsOne c = false /\
  ~ (IsOne c = true <-> Get c = 1).
Proof.
  cbv zeta.
  assert (Increment RefcountAndFlags_Immortal = 3) as -> by reflexivity.
  split; [unfold is_int32; lia|].
  split; [reflexivity|]. split; [reflexivity|]. split; [reflexivity|].
  intros [_ H]. discriminate (H eq_refl).
Qed.

(** *** Further properties of the counter *)

Lemma to_int32_sub_add c k : is_int32 c -> to_int32 (to_int32 (c + k) - k) = c.
Proof.
  intros Hc. unfold to_int32.
  rewrite <- (to_signed_mod_idemp 32 (to_signed 32 (c + k) - k)) by lia.
  rewrite Zminus_mod, to_signed_mod, <- Zminus_mod by lia.
  rewrite to_signed_mod_idemp by lia.
  replace (c + k - k) with c by lia.
  apply to_signed_id; [lia | exact Hc].
Qed.

Lemma Increment_eq_kRefIncrement c :
  is_int32 c -> (Increment c =? kRefIncrement) = (c =? 0).
Proof.
  intros Hc. unfold Increment.
  destruct (Z.eqb_spec c 0) as [-> | Hne]; [reflexivity|].
  apply Z.eqb_neq. intros E. apply Hne.
  rewrite <- (to_int32_sub_add c kRefIncrement Hc), E. reflexivity.
Qed.

Lemma Increment_small c :
  0 <= c -> c + kRefIncrement < 2 ^ 31 -> Increment c = c + kRefIncrement.
Proof.
  intros H0 H1. unfold Increment. apply to_int32_id.
  unfold is_int32, kRefIncrement in *. change (Z.shiftl 1 kNumFlags) with 2 in *.
  lia.
Qed.

Lemma assert_live_after_Increment c :
  IsImmortal c = true \/ (0 <= c /\ c + kRefIncrement < 2 ^ 31) ->
  (0 <? Increment c) || has_flag (Increment c) kImmortalFlag = true.
Proof.
  intros [Hi | [H0 H1]].
  - unfold IsImmortal in Hi. rewrite has_flag_immortal_odd in *.
    unfold Increment, to_int32. rewrite odd_to_signed by lia.
    rewrite Z.odd_add, Hi. apply orb_true_r.
  - rewrite Increment_small by done.
    unfold kRefIncrement. change (Z.shiftl 1 kNumFlags) with 2.
    destruct (Z.ltb_spec 0 (c + 2)); [reflexivity | lia].
Qed.

Lemma DecrementExpectHighRefcount_Increment ndebug c :
  is_int32 c ->
  IsImmortal c = true \/ (0 <= c /\ c + kRefIncrement < 2 ^ 31) ->
  DecrementExpectHighRefcount ndebug (Increment c) = Ret (negb (c =? 0), c).
Proof.
  intros Hc Hlive.
  pose proof (assert_live_after_Increment c Hlive) as Ha.
  unfold DecrementExpectHighRefcount, assert_.
  rewrite Ha, orb_true_r. cbn [obind].
  rewrite Increment_eq_kRefIncrement by done.
  assert (to_int32 (Increment c - kRefIncrement) = c) as ->
    by (by apply to_int32_sub_add).
  reflexivity.
Qed.

(** X1.  [Increment] followed by a decrement gives back the very value
    the counter had, also when the addition wrapped around, and the
    decrement reports a remaining reference unless the counter was
    zero. *)
Theorem Increment_then_decrement (ndebug : bool) (c : Z) :
  is_int32 c ->
  IsImmortal c = true \/ (0 <= c /\ c + kRefIncrement < 2 ^ 31) ->
  DecrementExpectHighRefcount ndebug (Increment c) = Ret (negb (c =? 0), c) /\
  (c <> 0 -> Decrement ndebug (Increment c) = Ret (true, c)).
Proof.
  intros Hc Hlive.
  pose proof (assert_live_after_Increment c Hlive) as Ha.
  unfold DecrementExpectHighRefcount, Decrement, assert_.
  rewrite Ha, orb_true_r. cbn [obind].
  rewrite Increment_eq_kRefIncrement by done.
  assert (to_int32 (Increment c - kRefIncrement) = c) as ->
    by (by apply to_int32_sub_add).
  split; [reflexivity|]. intros Hne.
  apply Z.eqb_neq in Hne. rewrite Hne. reflexivity.
Qed.

Lemma Increment_then_decrement_witness :
  DecrementExpectHighRefcount false (Increment RefcountAndFlags_default)
  = Ret (negb (RefcountAndFlags_default =? 0), RefcountAndFlags_default) /\
  (RefcountAndFlags_default <> 0 ->
   Decrement false (Increment RefcountAndFlags_default)
   = Ret (true, RefcountAndFlags_default)).
Proof.
  apply (Increment_then_decrement false RefcountAndFlags_default).
  - unfold is_int32. vm_compute. split; [discriminate | reflexivity].
  - right. vm_compute. split; [discriminate | reflexivity].
Defined.

(** X2.  No operation of the counter changes the immortal flag: a counter
    built immortal stays immortal and an ordinary one never becomes
    immortal, whatever the number of increments and decrements. *)
Theorem immortal_flag_is_never_changed (ndebug : bool) (c : Z) :
  IsImmortal (Increment c) = IsImmortal c /\
  (forall b c', Decrement ndebug c = Ret (b, c') ->
                IsImmortal c' = IsImmortal c) /\
  (forall b c', DecrementExpectHighRefcount ndebug c = Ret (b, c') ->
                IsImmortal c' = IsImmortal c).
Proof.
  unfold IsImmortal. rewrite !has_flag_immortal_odd.
  assert (Z.odd (to_int32 (c - kRefIncrement)) = Z.odd c) as Hsub.
  { unfold to_int32. rewrite odd_to_signed by lia.
    rewrite Z.odd_sub. by destruct (Z.odd c). }
  split; [|split].
  - unfold Increment, to_int32. rewrite odd_to_signed by lia.
    rewrite Z.odd_add. by destruct (Z.odd c).
  - intros b c' H. unfold Decrement in H.
    destruct (assert_ ndebug _); cbn [obind] in H; try discriminate.
    rewrite has_flag_immortal_odd.
    destruct (negb (c =? kRefIncrement)); injection H as _ <-; done.
  - intros b c' H. unfold DecrementExpectHighRefcount in H.
    destruct (assert_ ndebug _); cbn [obind] in H; try discriminate.
    rewrite has_flag_immortal_odd. by injection H as _ <-.
Qed.

Lemma Increment_times_default k :
  Z.of_nat k + 2 <= 2 ^ 30 ->
  Increment_times k RefcountAndFlags_default = 2 * (Z.of_nat k + 1).
Proof.
  induction k as [|k IH]; intros Hk; [reflexivity|].
  cbn [Increment_times]. rewrite IH by lia.
  change (2 ^ 30) with 1073741824 in Hk.
  rewrite Increment_small;
    unfold kRefIncrement; change (Z.shiftl 1 kNumFlags) with 2;
    change (2 ^ 31) with 2147483648; lia.
Qed.

Lemma decrement_shared j :
  1 <= j -> j + 1 <= 2 ^ 30 -> forall ndebug,
  Decrement ndebug (2 * (j + 1)) = Ret (true, 2 * j) /\
  DecrementExpectHighRefcount ndebug (2 * (j + 1)) = Ret (true, 2 * j).
Proof.
  intros H1 H2 ndebug. change (2 ^ 30) with 1073741824 in H2.
  unfold Decrement, DecrementExpectHighRefcount, assert_.
  assert ((0 <? 2 * (j + 1)) = true) as -> by (apply Z.ltb_lt; lia).
  cbn [orb]. rewrite orb_true_r. cbn [obind].
  unfold kRefIncrement. change (Z.shiftl 1 kNumFlags) with 2.
  assert ((2 * (j + 1) =? 2) = false) as -> by (apply Z.eqb_neq; lia).
  cbn [negb]. rewrite to_int32_id;
    [| unfold is_int32; change (2 ^ 31) with 2147483648; lia].
  replace (2 * (j + 1) - 2) with (2 * j) by lia. done.
Qed.

Lemma decrements_to_last ndebug k :
  Z.of_nat k + 2 <= 2 ^ 30 ->
  Decrement_times ndebug (S k) (2 * (Z.of_nat k + 1))
  = Ret (repeat true k ++ [false], kRefIncrement) /\
  DecrementExpectHighRefcount_times ndebug (S k) (2 * (Z.of_nat k + 1))
  = Ret (repeat true k ++ [false], 0).
Proof.
  induction k as [|k IH]; intros Hk.
  - destruct ndebug; split; reflexivity.
  - destruct IH as [IH1 IH2]; [lia|].
    destruct (decrement_shared (Z.of_nat (S k)) ltac:(lia) ltac:(lia) ndebug)
      as [Hd1 Hd2].
    replace (Z.of_nat (S k) + 1) with (Z.of_nat k + 1 + 1) in * by lia.
    replace (Z.of_nat (S k)) with (Z.of_nat k + 1) in * by lia.
    split.
    + change (Decrement_times ndebug (S (S k)) ?c)
        with (r <- Decrement ndebug c ;;
              rs <- Decrement_times ndebug (S k) (snd r) ;;
              Ret (fst r :: fst rs, snd rs)).
      rewrite Hd1. cbn [obind snd fst]. rewrite IH1. reflexivity.
    + change (DecrementExpectHighRefcount_times ndebug (S (S k)) ?c)
        with (r <- DecrementExpectHighRefcount ndebug c ;;
              rs <- DecrementExpectHighRefcount_times ndebug (S k) (snd r) ;;
              Ret (fst r :: fst rs, snd rs)).
      rewrite Hd2. cbn [obind snd fst]. rewrite IH2. reflexivity.
Qed.

(** X3.  Balance of references: a fresh counter that was incremented [k]
    times holds [k + 1] references, and of [k + 1] decrements the first
    [k] report a remaining reference and the last one, and only it,
    reports that none is left. *)
Theorem refcount_balance (ndebug : bool) (k : nat) :
  Z.of_nat k + 2 <= 2 ^ 30 ->
  let c := Increment_times k RefcountAndFlags_default in
  Get c = Z.of_nat k + 1 /\
  Decrement_times ndebug (S k) c
  = Ret (repeat true k ++ [false], kRefIncrement) /\
  DecrementExpectHighRefcount_times ndebug (S k) c
  = Ret (repeat true k ++ [false], 0).
Proof.
  intros Hk c. unfold c. rewrite Increment_times_default by done.
  split; [|by apply decrements_to_last].
  change (2 ^ 30) with 1073741824 in Hk.
  rewrite Get_nonneg;
    [| lia | unfold is_int32; change (2 ^ 31) with 2147483648; lia].
  rewrite Z.mul_comm. apply Z.div_mul. lia.
Qed.

Lemma refcount_balance_witness :
  let c := Increment_times 3 RefcountAndFlags_default in
  Get c = Z.of_nat 3 + 1 /\
  Decrement_times false 4 c = Ret (repeat true 3 ++ [false], kRefIncrement) /\
  DecrementExpectHighRefcount_times false 4 c
  = Ret (repeat true 3 ++ [false], 0).
Proof.
  apply (refcount_balance false 3). simpl. lia.
Defined.

End Refcount.

(** ** The size <-> tag codec *)

Section Flat.
Import CordRepFlat.
Local Open Scope Z_scope.

(** The [static_assert]s of the two headers hold of the model. *)
Example static_assert_consecutive : FLAT = EXTERNAL + 1.
Proof. reflexivity. Qed.

Example static_assert_min_flat : AllocatedSizeToTagUnchecked kMinFlatSize = FLAT.
Proof. reflexivity. Qed.

Example static_assert_max_large_flat :
  AllocatedSizeToTagUnchecked kMaxLargeFlatSize = MAX_FLAT_TAG.
Proof. reflexivity. Qed.

Example static_assert_tag_logic :
  TagToAllocatedSize MAX_FLAT_TAG = kMaxLargeFlatSize.
Proof. reflexivity. Qed.

(** Masking with [0 - 2^k] clears the [k] low bits. *)
Lemma land_neg_pow2 x k :
  0 <= k < 64 -> is_size_t x ->
  Z.land x (to_size_t (0 - 2 ^ k)) = x / 2 ^ k * 2 ^ k.
Proof.
  intros Hk [Hx0 Hx].
  assert (to_size_t (0 - 2 ^ k) = Z.shiftl (Z.ones (64 - k)) k) as ->.
  { rewrite Z.shiftl_mul_pow2, Z.ones_equiv by lia.
    unfold to_size_t, to_unsigned.
    assert (0 < 2 ^ k) as Hpos by (apply Z.pow_pos_nonneg; lia).
    assert (0 < 2 ^ (64 - k) - 1) as Hhi.
    { assert (2 ^ 0 < 2 ^ (64 - k)) by (apply Z.pow_lt_mono_r; lia).
      change (2 ^ 0) with 1 in *. lia. }
    replace (2 ^ 64) with (2 ^ (64 - k) * 2 ^ k)
      by (rewrite <- Z.pow_add_r by lia; f_equal; lia).
    generalize dependent (2 ^ (64 - k)). generalize dependent (2 ^ k).
    intros B HB A HA. unfold Z.pred.
    assert (0 < A * B) by (apply Z.mul_pos_pos; lia).
    rewrite <- (Z.mod_add _ 1) by lia. rewrite Z.mod_small; nia. }
  rewrite <- Z.shiftr_div_pow2, <- Z.shiftl_mul_pow2 by lia.
  apply Z.bits_inj'. intros i Hi.
  rewrite Z.land_spec, !Z.shiftl_spec by lia.
  destruct (Z.ltb_spec i k).
  - rewrite !(Z.testbit_neg_r _ (i - k)) by lia. apply andb_false_r.
  - rewrite Z.shiftr_spec by lia. replace (i - k + k) with i by lia.
    rewrite Z.testbit_ones_nonneg by lia.
    destruct (Z.ltb_spec (i - k) (64 - k)).
    + destruct (Z.leb_spec 0 (i - k)); [apply andb_true_r | lia].
    + rewrite andb_false_r. symmetry.
      destruct (Z.eq_dec x 0) as [-> | Hne]; [apply Z.bits_0|].
      apply Z.bits_above_log2; [lia|].
      apply Z.log2_lt_pow2; [lia|].
      eapply Z.lt_le_trans; [exact Hx|]. apply Z.pow_le_mono_r; lia.
Qed.

(** The comment on [RoundUp]: it computes [((n + m - 1) / m) * m]. *)
Lemma RoundUp_spec n k :
  0 <= k < 64 -> 0 <= n -> n + 2 ^ k - 1 < 2 ^ 64 ->
  RoundUp n (2 ^ k) = (n + 2 ^ k - 1) / 2 ^ k * 2 ^ k.
Proof.
  intros Hk Hn Hlt. unfold RoundUp.
  assert (0 < 2 ^ k) by (apply Z.pow_pos_nonneg; lia).
  rewrite (to_size_t_small (n + 2 ^ k - 1)) by (unfold is_size_t; lia).
  apply land_neg_pow2; [done | unfold is_size_t; lia].
Qed.

Lemma RoundUp_multiple q k :
  0 <= k < 64 -> 0 <= q -> q * 2 ^ k + 2 ^ k - 1 < 2 ^ 64 ->
  RoundUp (q * 2 ^ k) (2 ^ k) = q * 2 ^ k.
Proof.
  intros Hk Hq Hlt.
  assert (0 < 2 ^ k) by (apply Z.pow_pos_nonneg; lia).
  rewrite RoundUp_spec by nia. f_equal.
  replace (q * 2 ^ k + 2 ^ k - 1) with (2 ^ k - 1 + q * 2 ^ k) by lia.
  rewrite Z.div_add by lia. rewrite Z.div_small; lia.
Qed.

Lemma band_of_tag t : FLAT <= t <= MAX_FLAT_TAG -> band t (TagToAllocatedSize t).
Proof.
  unfold FLAT, MAX_FLAT_TAG, TagToAllocatedSize. intros Ht.
  change kTagBase with 2. change (2 ^ 64) with 18446744073709551616.
  change (2 + 512 / 8) with 66. change (66 + (8192 - 512) / 64) with 186.
  change (2 + 512 / 8 + (8192 - 512) / 64) with 186.
  change (512 / 8 * 64) with 4096.
  change ((512 / 8 + (8192 - 512) / 64) * 4096) with 753664.
  destruct (Z.leb_spec t 66); [|destruct (Z.leb_spec t 186)];
    rewrite to_size_t_small by (unfold is_size_t; lia).
  - replace (t * 8 - 2 * 8) with (8 * (t - 2)) by lia. constructor; lia.
  - replace (512 + t * 64 - 2 * 64 - 4096) with (512 + 64 * (t - 66)) by lia.
    constructor; lia.
  - replace (8192 + t * 4096 - 2 * 4096 - 753664)
      with (8192 + 4096 * (t - 186)) by lia.
    constructor; lia.
Qed.

Lemma band_of_representable s :
  representable s -> exists t, band t s.
Proof.
  unfold representable, kMinFlatSize, kMaxLargeFlatSize.
  intros [[Hs Hm] | [[Hs Hm] | [Hs Hm]]].
  - exists (s / 8 + 2). replace s with (8 * (s / 8 + 2 - 2)) at 2
      by (pose proof (Z.div_mod s 8); lia).
    constructor. pose proof (Z.div_mod s 8); lia.
  - exists (s / 64 + 58). replace s with (512 + 64 * (s / 64 + 58 - 66)) at 2
      by (pose proof (Z.div_mod s 64); lia).
    constructor. pose proof (Z.div_mod s 64); lia.
  - exists (s / 4096 + 184).
    replace s with (8192 + 4096 * (s / 4096 + 184 - 186)) at 2
      by (pose proof (Z.div_mod s 4096); lia).
    constructor. pose proof (Z.div_mod s 4096); lia.
Qed.

Lemma band_spec t s :
  band t s ->
  FLAT <= t <= MAX_FLAT_TAG /\ representable s /\
  TagToAllocatedSize t = s /\ RoundUpForTag s = s /\
  AllocatedSizeToTagUnchecked s = t.
Proof.
  intros Hb. assert (FLAT <= t <= MAX_FLAT_TAG) as Ht.
  { unfold FLAT, MAX_FLAT_TAG. destruct Hb; lia. }
  split; [exact Ht|].
  pose proof (band_of_tag t Ht) as Hb'.
  assert (TagToAllocatedSize t = s) as Hs.
  { destruct Hb; inversion Hb'; lia. }
  clear Hb'. split; [|split; [exact Hs|]].
  { unfold representable, kMinFlatSize, kMaxLargeFlatSize.
    destruct Hb.
    - left. split; [lia|]. rewrite Z.mul_comm. apply Z.mod_mul. lia.
    - right; left. split; [lia|].
      replace (512 + 64 * (t - 66)) with ((t - 58) * 64) by lia.
      apply Z.mod_mul. lia.
    - right; right. split; [lia|].
      replace (8192 + 4096 * (t - 186)) with ((t - 184) * 4096) by lia.
      apply Z.mod_mul. lia. }
  clear Hs. unfold RoundUpForTag, AllocatedSizeToTagUnchecked.
  change kTagBase with 2. 
  destruct Hb as [t Hr | t Hr | t Hr].
  - destruct (Z.leb_spec (8 * (t - 2)) 512); [|lia]. split.
    + replace (8 * (t - 2)) with ((t - 2) * 2 ^ 3) by lia.
      apply RoundUp_multiple; lia.
    + rewrite Z.mul_comm, Z.div_mul by lia.
      rewrite to_size_t_small by (unfold is_size_t; lia).
      unfold to_uint8, to_unsigned. rewrite Z.mod_small; lia.
  - destruct (Z.leb_spec (512 + 64 * (t - 66)) 512); [lia|].
    destruct (Z.leb_spec (512 + 64 * (t - 66)) 8192); [|lia]. split.
    + replace (512 + 64 * (t - 66)) with ((t - 58) * 2 ^ 6) by lia.
      apply RoundUp_multiple; lia.
    + replace (512 + 64 * (t - 66)) with ((t - 58) * 64) by lia.
      rewrite Z.div_mul by lia.
      change (512 / 8) with 64. change (512 / 64) with 8.
      change ((8192 - 512) / 64) with 120. change (8192 / 4096) with 2.
      change (2 ^ 8) with 256.
      rewrite to_size_t_small by (unfold is_size_t; lia).
      unfold to_uint8, to_unsigned. rewrite Z.mod_small; lia.
  - destruct (Z.leb_spec (8192 + 4096 * (t - 186)) 512); [lia|].
    destruct (Z.leb_spec (8192 + 4096 * (t - 186)) 8192); [lia|]. split.
    + replace (8192 + 4096 * (t - 186)) with ((t - 184) * 2 ^ 12) by lia.
      apply RoundUp_multiple; lia.
    + replace (8192 + 4096 * (t - 186)) with ((t - 184) * 4096) by lia.
      rewrite Z.div_mul by lia.
      change (512 / 8) with 64. change (512 / 64) with 8.
      change ((8192 - 512) / 64) with 120. change (8192 / 4096) with 2.
      change (2 ^ 8) with 256.
      rewrite to_size_t_small by (unfold is_size_t; lia).
      unfold to_uint8, to_unsigned. rewrite Z.mod_small; lia.
Qed.

Lemma AllocatedSizeToTag_checked ndebug s t :
  AllocatedSizeToTagUnchecked s = t -> t <= MAX_FLAT_TAG ->
  AllocatedSizeToTag ndebug s = Ret t.
Proof.
  intros Hs Ht. unfold AllocatedSizeToTag, assert_. rewrite Hs.
  apply Z.leb_le in Ht. rewrite Ht, orb_true_r. reflexivity.
Qed.

(** C2.  For every tag between [FLAT] and [MAX_FLAT_TAG], the tag of the
    rounded size of the tag is the tag again; the size of a tag is
    representable; and on every representable size of the three bands
    [RoundUpForTag] is the identity and [AllocatedSizeToTag] and
    [TagToAllocatedSize] are inverse to each other. *)
Theorem tag_size_round_trip (ndebug : bool) (t : Z) :
  FLAT <= t <= MAX_FLAT_TAG ->
  AllocatedSizeToTag ndebug (RoundUpForTag (TagToAllocatedSize t)) = Ret t /\
  representable (TagToAllocatedSize t) /\
  AllocatedSizeToTag ndebug (TagToAllocatedSize t) = Ret t /\
  (forall s, representable s ->
     RoundUpForTag s = s /\
     exists t', FLAT <= t' <= MAX_FLAT_TAG /\
                AllocatedSizeToTag ndebug s = Ret t' /\
                TagToAllocatedSize t' = s).
Proof.
  intros Ht.
  destruct (band_spec _ _ (band_of_tag t Ht)) as (_ & Hrep & _ & Hup & Htag).
  rewrite Hup. repeat split; try done.
  - apply AllocatedSizeToTag_checked; [exact Htag | lia].
  - apply AllocatedSizeToTag_checked; [exact Htag | lia].
  - destruct (band_of_representable s H) as [t' Hb].
    by destruct (band_spec _ _ Hb) as (_ & _ & _ & ? & _).
  - destruct (band_of_representable s H) as [t' Hb].
    destruct (band_spec _ _ Hb) as (Ht' & _ & Hsz & _ & Htag').
    exists t'. split; [exact Ht'|]. split; [|exact Hsz].
    apply AllocatedSizeToTag_checked; [exact Htag' | lia].
Qed.

Lemma tag_size_round_trip_witness :
  AllocatedSizeToTag false (RoundUpForTag (TagToAllocatedSize FLAT)) = Ret FLAT /\
  representable (TagToAllocatedSize FLAT) /\
  AllocatedSizeToTag false (TagToAllocatedSize FLAT) = Ret FLAT /\
  (forall s, representable s ->
     RoundUpForTag s = s /\
     exists t', FLAT <= t' <= MAX_FLAT_TAG /\
                AllocatedSizeToTag false s = Ret t' /\
                TagToAllocatedSize t' = s).
Proof.
  apply (tag_size_round_trip false FLAT). unfold FLAT, MAX_FLAT_TAG. lia.
Defined.

(** *** Rounding *)

Lemma RoundUp_least (n k : Z) :
  0 <= k < 64 -> 0 <= n -> n + 2 ^ k - 1 < 2 ^ 64 ->
  RoundUp n (2 ^ k) = (n + 2 ^ k - 1) / 2 ^ k * 2 ^ k /\
  n <= RoundUp n (2 ^ k) < n + 2 ^ k /\
  RoundUp n (2 ^ k) mod 2 ^ k = 0 /\
  (forall q, n <= q * 2 ^ k -> RoundUp n (2 ^ k) <= q * 2 ^ k).
Proof.
  intros Hk Hn Hlt. rewrite RoundUp_spec by done.
  assert (0 < 2 ^ k) as Hm by (apply Z.pow_pos_nonneg; lia).
  generalize dependent (2 ^ k). intros m _ Hm.
  pose proof (Z.div_mod (n + m - 1) m ltac:(lia)) as Hdm.
  pose proof (Z.mod_pos_bound (n + m - 1) m Hm) as Hb.
  split; [reflexivity|]. split; [nia|]. split; [by apply Z.mod_mul; lia|].
  intros q Hq.
  assert ((n + m - 1) / m <= q); [|nia].
  apply Z.lt_succ_r. apply Z.div_lt_upper_bound; [lia|]. nia.
Qed.

(** X4.  [RoundUp n m], for [m] a power of two and no overflow of
    [size_t], is the least multiple of [m] that is not below [n]: what the
    comment on it promises, [((n + m - 1) / m) * m]. *)
Theorem RoundUp_is_least_multiple (n k : Z) :
  0 <= k < 64 -> 0 <= n -> n + 2 ^ k - 1 < 2 ^ 64 ->
  RoundUp n (2 ^ k) = (n + 2 ^ k - 1) / 2 ^ k * 2 ^ k /\
  n <= RoundUp n (2 ^ k) < n + 2 ^ k /\
  RoundUp n (2 ^ k) mod 2 ^ k = 0 /\
  (forall q, n <= q * 2 ^ k -> RoundUp n (2 ^ k) <= q * 2 ^ k).
Proof. apply RoundUp_least. Qed.

Lemma RoundUp_is_least_multiple_witness :
  RoundUp 13 (2 ^ 3) = (13 + 2 ^ 3 - 1) / 2 ^ 3 * 2 ^ 3 /\
  13 <= RoundUp 13 (2 ^ 3) < 13 + 2 ^ 3 /\
  RoundUp 13 (2 ^ 3) mod 2 ^ 3 = 0 /\
  (forall q, 13 <= q * 2 ^ 3 -> RoundUp 13 (2 ^ 3) <= q * 2 ^ 3).
Proof.
  apply (RoundUp_is_least_multiple 13 3); lia.
Defined.

Lemma RoundUpForTag_cases size :
  0 <= size <= kMaxLargeFlatSize ->
  exists m, (m = 8 /\ size <= 512 \/ m = 64 /\ 512 < size <= 8192 \/
             m = 4096 /\ 8192 < size) /\
            RoundUpForTag size = (size + m - 1) / m * m /\
            size <= RoundUpForTag size < size + m /\
            (forall q, size <= q * m -> RoundUpForTag size <= q * m).
Proof.
  unfold kMaxLargeFlatSize. intros Hs. unfold RoundUpForTag.
  destruct (Z.leb_spec size 512); [|destruct (Z.leb_spec size 8192)].
  - exists 8. split; [lia|].
    destruct (RoundUp_least size 3) as (E & Hb & _ & Hl);
      try (change (2 ^ 3) with 8; change (2 ^ 64) with 18446744073709551616; lia).
    change (2 ^ 3) with 8 in *. done.
  - exists 64. split; [lia|].
    destruct (RoundUp_least size 6) as (E & Hb & _ & Hl);
      try (change (2 ^ 6) with 64; change (2 ^ 64) with 18446744073709551616; lia).
    change (2 ^ 6) with 64 in *. done.
  - exists 4096. split; [lia|].
    destruct (RoundUp_least size 12) as (E & Hb & _ & Hl);
      try (change (2 ^ 12) with 4096;
           change (2 ^ 64) with 18446744073709551616; lia).
    change (2 ^ 12) with 4096 in *. done.
Qed.

Lemma RoundUpForTag_least (size : Z) :
  kMinFlatSize <= size <= kMaxLargeFlatSize ->
  representable (RoundUpForTag size) /\
  size <= RoundUpForTag size /\
  (forall s, representable s -> size <= s -> RoundUpForTag size <= s).
Proof.
  unfold kMinFlatSize, kMaxLargeFlatSize. intros Hs.
  destruct (RoundUpForTag_cases size) as (m & Hm & E & Hb & Hl);
    [unfold kMaxLargeFlatSize; lia|].
  set (r := RoundUpForTag size) in *. clearbody r.
  unfold representable, kMinFlatSize, kMaxLargeFlatSize.
  destruct Hm as [[-> H1] | [[-> H1] | [-> H1]]].
  - assert (r mod 8 = 0) as Hr by (subst r; apply Z.mod_mul; lia).
    assert (r <= 512) by (apply (Hl 64); lia).
    split; [left; lia|]. split; [lia|].
    intros s [[Hs1 Hs2] | [[Hs1 Hs2] | [Hs1 Hs2]]] Hle; try lia.
    pose proof (Z.div_mod s 8 ltac:(lia)).
    rewrite (Z.mul_comm 8) in *. pose proof (Hl (s / 8)). lia.
  - assert (r mod 64 = 0) as Hr by (subst r; apply Z.mod_mul; lia).
    assert (r <= 8192) by (apply (Hl 128); lia).
    split; [right; left; lia|]. split; [lia|].
    intros s [[Hs1 Hs2] | [[Hs1 Hs2] | [Hs1 Hs2]]] Hle; try lia.
    pose proof (Z.div_mod s 64 ltac:(lia)).
    rewrite (Z.mul_comm 64) in *. pose proof (Hl (s / 64)). lia.
  - assert (r mod 4096 = 0) as Hr by (subst r; apply Z.mod_mul; lia).
    assert (r <= 262144) by (apply (Hl 64); lia).
    split; [right; right; lia|]. split; [lia|].
    intros s [[Hs1 Hs2] | [[Hs1 Hs2] | [Hs1 Hs2]]] Hle; try lia.
    pose proof (Z.div_mod s 4096 ltac:(lia)).
    rewrite (Z.mul_comm 4096) in *. pose proof (Hl (s / 4096)). lia.
Qed.

(** X5.  [RoundUpForTag] maps every size from [kMinFlatSize] to
    [kMaxLargeFlatSize] to the least size not below it that a tag can
    express. *)
Theorem RoundUpForTag_is_least_representable (size : Z) :
  kMinFlatSize <= size <= kMaxLargeFlatSize ->
  representable (RoundUpForTag size) /\
  size <= RoundUpForTag size /\
  (forall s, representable s -> size <= s -> RoundUpForTag size <= s).
Proof. apply RoundUpForTag_least. Qed.

Lemma RoundUpForTag_is_least_representable_witness :
  representable (RoundUpForTag 513) /\
  513 <= RoundUpForTag 513 /\
  (forall s, representable s -> 513 <= s -> RoundUpForTag 513 <= s).
Proof.
  apply (RoundUpForTag_is_least_representable 513).
  unfold kMinFlatSize, kMaxLargeFlatSize. lia.
Defined.

Lemma TagToAllocatedSize_cases t :
  (6 <= t <= 66 -> TagToAllocatedSize t = 8 * (t - 2)) /\
  (67 <= t <= 186 -> TagToAllocatedSize t = 512 + 64 * (t - 66)) /\
  (187 <= t <= 248 -> TagToAllocatedSize t = 8192 + 4096 * (t - 186)).
Proof.
  repeat split; intros Ht;
    (assert (FLAT <= t <= MAX_FLAT_TAG) as Hr
       by (unfold FLAT, MAX_FLAT_TAG; lia));
    pose proof (band_of_tag t Hr) as Hb; inversion Hb; lia.
Qed.

Lemma AllocatedSizeToTagUnchecked_cases size :
  kMinFlatSize <= size <= kMaxLargeFlatSize ->
  AllocatedSizeToTagUnchecked size
  = (if size <=? 512 then 2 + size / 8
     else if size <=? 8192 then 58 + size / 64
          else 184 + size / 4096).
Proof.
  unfold kMinFlatSize, kMaxLargeFlatSize. intros Hs.
  unfold AllocatedSizeToTagUnchecked. change kTagBase with 2.
  change (512 / 8) with 64. change (512 / 64) with 8.
  change ((8192 - 512) / 64) with 120. change (8192 / 4096) with 2.
  assert (0 <= size / 8 < 32769) as H8.
  { split; [apply Z.div_pos; lia | apply Z.div_lt_upper_bound; lia]. }
  assert (0 <= size / 64 < 4097) as H64.
  { split; [apply Z.div_pos; lia | apply Z.div_lt_upper_bound; lia]. }
  assert (0 <= size / 4096 < 65) as H4096.
  { split; [apply Z.div_pos; lia | apply Z.div_lt_upper_bound; lia]. }
  assert (size <= 512 -> size / 8 <= 64)
    by (intros; apply Z.div_le_upper_bound; lia).
  assert (512 < size -> 8 <= size / 64)
    by (intros; apply Z.div_le_lower_bound; lia).
  assert (size <= 8192 -> size / 64 <= 128)
    by (intros; apply Z.div_le_upper_bound; lia).
  assert (8192 < size -> 2 <= size / 4096)
    by (intros; apply Z.div_le_lower_bound; lia).
  unfold to_uint8, to_size_t, to_unsigned.
  change (2 ^ 64) with 18446744073709551616. change (2 ^ 8) with 256.
  destruct (Z.leb_spec size 512); [|destruct (Z.leb_spec size 8192)].
  - rewrite (Z.mod_small (2 + size / 8)) by lia. apply Z.mod_small. lia.
  - rewrite (Z.mod_small (2 + 64 + size / 64 - 8)) by lia.
    rewrite Z.mod_small by lia. lia.
  - rewrite (Z.mod_small (2 + 64 + 120 + size / 4096 - 2)) by lia.
    rewrite Z.mod_small by lia. lia.
Qed.

(** X6.  [AllocatedSizeToTag] rounds down: on every size from
    [kMinFlatSize] to [kMaxLargeFlatSize] it returns a flat tag whose size
    is the greatest expressible size not above the argument. *)
Theorem AllocatedSizeToTag_rounds_down (ndebug : bool) (size : Z) :
  kMinFlatSize <= size <= kMaxLargeFlatSize ->
  exists t, AllocatedSizeToTag ndebug size = Ret t /\
            FLAT <= t <= MAX_FLAT_TAG /\
            TagToAllocatedSize t <= size /\
            (forall s, representable s -> s <= size ->
                       s <= TagToAllocatedSize t).
Proof.
  intros Hs. pose proof (AllocatedSizeToTagUnchecked_cases size Hs) as E.
  unfold kMinFlatSize, kMaxLargeFlatSize in Hs.
  exists (AllocatedSizeToTagUnchecked size).
  remember (AllocatedSizeToTagUnchecked size) as t eqn:Et.
  destruct (TagToAllocatedSize_cases t) as (T1 & T2 & T3).
  assert (FLAT <= t <= MAX_FLAT_TAG /\ TagToAllocatedSize t <= size /\
          (forall s, representable s -> s <= size ->
                     s <= TagToAllocatedSize t)) as (Ht & Hle & Hg).
  { unfold FLAT, MAX_FLAT_TAG, representable, kMinFlatSize,
      kMaxLargeFlatSize.
    destruct (Z.leb_spec size 512); [|destruct (Z.leb_spec size 8192)].
    - pose proof (Z.div_mod size 8 ltac:(lia)).
      pose proof (Z.mod_pos_bound size 8 ltac:(lia)).
      rewrite T1 by lia. split; [lia|]. split; [lia|].
      intros s [[Hs1 Hs2] | [[Hs1 Hs2] | [Hs1 Hs2]]] Hsle; try lia.
      pose proof (Z.div_mod s 8 ltac:(lia)). lia.
    - pose proof (Z.div_mod size 64 ltac:(lia)).
      pose proof (Z.mod_pos_bound size 64 ltac:(lia)).
      destruct (Z.eq_dec t 66) as [E66 | N66].
      + rewrite T1 by lia. split; [lia|]. split; [lia|].
        intros s [[Hs1 Hs2] | [[Hs1 Hs2] | [Hs1 Hs2]]] Hsle; try lia.
        pose proof (Z.div_mod s 64 ltac:(lia)). lia.
      + rewrite T2 by lia. split; [lia|]. split; [lia|].
        intros s [[Hs1 Hs2] | [[Hs1 Hs2] | [Hs1 Hs2]]] Hsle; try lia.
        pose proof (Z.div_mod s 64 ltac:(lia)). lia.
    - pose proof (Z.div_mod size 4096 ltac:(lia)).
      pose proof (Z.mod_pos_bound size 4096 ltac:(lia)).
      assert (size / 4096 <= 64) by (apply Z.div_le_upper_bound; lia).
      destruct (Z.eq_dec t 186) as [E186 | N186].
      + rewrite T2 by lia. split; [lia|]. split; [lia|].
        intros s [[Hs1 Hs2] | [[Hs1 Hs2] | [Hs1 Hs2]]] Hsle; try lia.
        pose proof (Z.div_mod s 4096 ltac:(lia)). lia.
      + rewrite T3 by lia. split; [lia|]. split; [lia|].
        intros s [[Hs1 Hs2] | [[Hs1 Hs2] | [Hs1 Hs2]]] Hsle; try lia.
        pose proof (Z.div_mod s 4096 ltac:(lia)). lia. }
  split; [|done].
  apply AllocatedSizeToTag_checked; [by symmetry | lia].
Qed.

Lemma AllocatedSizeToTag_rounds_down_witness :
  exists t, AllocatedSizeToTag false 600 = Ret t /\
            FLAT <= t <= MAX_FLAT_TAG /\
            TagToAllocatedSize t <= 600 /\
            (forall s, representable s -> s <= 600 ->
                       s <= TagToAllocatedSize t).
Proof.
  apply (AllocatedSizeToTag_rounds_down false 600).
  unfold kMinFlatSize, kMaxLargeFlatSize. lia.
Defined.

End Flat.

(** ** [InlineData] *)

Section Inline.
Import InlineData.

Lemma list_length_16 (d : list byte) :
  length d = 16%nat ->
  exists b0 b1 b2 b3 b4 b5 b6 b7 b8 b9 b10 b11 b12 b13 b14 b15,
    d = [b0; b1; b2; b3; b4; b5; b6; b7; b8; b9; b10; b11; b12; b13; b14; b15].
Proof.
  intros H.
  do 16 (destruct d as [|? d]; [discriminate H|]).
  destruct d; [|discriminate H]. repeat eexists.
Qed.

Lemma set_inline_data_image ndebug (d data : list byte) :
  length d = 16%nat -> (length data <= 15)%nat ->
  set_inline_data ndebug d data (length data) = Ret (inline_image data).
Proof.
  intros Hd Hn.
  destruct (list_length_16 d Hd)
    as (b0&b1&b2&b3&b4&b5&b6&b7&b8&b9&b10&b11&b12&b13&b14&b15&->).
  do 16 (destruct data as [|? data];
         [destruct ndebug; vm_compute; reflexivity|]).
  cbn [length] in Hn. lia.
Qed.


Local Open Scope Z_scope.

Lemma Rep_tag_cons (b : byte) (r : list byte) :
  Rep_tag (b :: r) = Ret (to_int8 (Z_of_byte b)).
Proof.
  unfold Rep_tag, mem_read. cbn [length Nat.add].
  rewrite decide_True by lia. cbn [drop take obind le_combine].
  by rewrite Z.mul_0_r, Z.add_0_r.
Qed.

Lemma odd_land_1 t : negb (Z.land t 1 =? 0) = Z.odd t.
Proof.
  change 1 with (Z.ones 1) at 1. rewrite Z.land_ones by lia.
  change (2 ^ 1) with 2. rewrite Zmod_odd. by destruct (Z.odd t).
Qed.

Lemma Rep_is_tree_cons (b : byte) (r : list byte) :
  Rep_is_tree (b :: r) = Ret (Z.odd (Z_of_byte b)).
Proof.
  unfold Rep_is_tree. rewrite Rep_tag_cons. cbn [obind].
  rewrite odd_land_1. unfold to_int8. by rewrite odd_to_signed by lia.
Qed.

Lemma odd_mod_256 z : Z.odd (z mod 256) = Z.odd z.
Proof.
  rewrite Z.mod_eq by lia.
  replace (z - 256 * (z / 256)) with (z + 2 * (- 128 * (z / 256))) by lia.
  apply Z.odd_add_mul_2.
Qed.

(** *** The inline form *)

Lemma inline_image_is_tree (data : list byte) :
  is_tree (inline_image data) = Ret false.
Proof.
  unfold is_tree, inline_image. rewrite Rep_is_tree_cons.
  rewrite Z_of_byte_of_Z, odd_mod_256, Z.odd_mul. reflexivity.
Qed.

Lemma inline_image_size ndebug (data : list byte) :
  (length data <= 15)%nat ->
  inline_size ndebug (inline_image data) = Ret (Z.of_nat (length data)).
Proof.
  intros Hn. unfold inline_size, Rep_inline_size.
  pose proof (inline_image_is_tree data) as Ht. unfold is_tree in Ht.
  rewrite Ht. cbn [obind]. unfold assert_. cbn [negb].
  rewrite orb_true_r. cbn [obind].
  unfold inline_image. rewrite Rep_tag_cons. cbn [obind].
  rewrite Z_of_byte_of_Z, Z.mod_small by lia.
  unfold to_int8. rewrite to_signed_id by (simpl; lia).
  rewrite to_size_t_small by (unfold is_size_t; lia).
  rewrite Z.shiftr_div_pow2 by lia. change (2 ^ 1) with 2.
  rewrite Z.mul_comm, Z.div_mul by lia. reflexivity.
Qed.

Lemma inline_image_chars ndebug (data : list byte) :
  exists chars, as_chars ndebug (inline_image data) = Ret chars /\
                take (length data) chars = data.
Proof.
  exists (data ++ replicate (15 - length data) Byte.x00).
  unfold as_chars. rewrite inline_image_is_tree. cbn [obind].
  unfold assert_. cbn [negb]. rewrite orb_true_r. cbn [obind].
  split; [reflexivity|]. apply take_app_length.
Qed.

(** *** The tree form *)

Lemma tree_image_cordz_info (v : Z) (rest : list byte) :
  Rep_cordz_info (le_split 8 v ++ rest) = Ret (to_int64 v).
Proof.
  unfold Rep_cordz_info.
  rewrite mem_read_prefix by apply length_le_split. cbn [obind].
  rewrite le_combine_split. change (256 ^ Z.of_nat 8) with (2 ^ 64).
  unfold to_int64. by rewrite to_signed_mod_idemp by lia.
Qed.

Lemma tree_image_is_tree (v : Z) (rest : list byte) :
  is_tree (le_split 8 v ++ rest) = Ret (Z.odd v).
Proof.
  unfold is_tree. cbn [le_split app]. rewrite Rep_is_tree_cons.
  by rewrite Z_of_byte_of_Z, odd_mod_256.
Qed.

Lemma tree_image_tree (v : Z) (rest : list byte) :
  length rest = 8%nat ->
  Rep_tree (le_split 8 v ++ rest) = Ret (le_combine rest).
Proof.
  intros Hr. unfold Rep_tree.
  by rewrite mem_read_suffix by (apply length_le_split || done).
Qed.

(** C9.  Setting an inline value from [n <= 15] bytes gives a value that
    is not a tree, whose inline size is [n] and whose first [n] characters
    are the input; an [InlineData] built from a non-null node pointer is a
    tree and gives the pointer back. *)
Theorem inline_round_trip (ndebug : bool) (d data : list byte) (p : Z) :
  length d = 16%nat -> (length data <= 15)%nat ->
  p <> 0 -> is_size_t p ->
  (exists d',
      set_inline_data ndebug d data (length data) = Ret d' /\
      is_tree d' = Ret false /\
      inline_size ndebug d' = Ret (Z.of_nat (length data)) /\
      exists chars, as_chars ndebug d' = Ret chars /\
                    take (length data) chars = data) /\
  (exists t,
      InlineData_of_tree ndebug p = Ret t /\
      is_tree t = Ret true /\
      as_tree ndebug t = Ret p).
Proof.
  intros Hd Hn Hp Hrange. split.
  - exists (inline_image data). split; [by apply set_inline_data_image|].
    split; [apply inline_image_is_tree|].
    split; [by apply inline_image_size | apply inline_image_chars].
  - exists (Rep_of_tree p). unfold InlineData_of_tree, as_tree, Rep_of_tree.
    rewrite tree_image_is_tree. unfold assert_.
    apply Z.eqb_neq in Hp. rewrite Hp. cbn [negb obind].
    rewrite !orb_true_r. cbn [obind].
    split; [reflexivity|]. split; [reflexivity|].
    rewrite tree_image_tree by apply length_le_split.
    rewrite le_combine_split. change (256 ^ Z.of_nat 8) with (2 ^ 64).
    f_equal. apply Z.mod_small. exact Hrange.
Qed.


Lemma inline_round_trip_witness :
  let data := [Byte.x61; Byte.x62; Byte.x63; Byte.x64; Byte.x65;
               Byte.x66; Byte.x67; Byte.x68; Byte.x69; Byte.x6a] in
  (exists d',
      set_inline_data false InlineData_default data (length data) = Ret d' /\
      is_tree d' = Ret false /\
      inline_size false d' = Ret (Z.of_nat (length data)) /\
      exists chars, as_chars false d' = Ret chars /\
                    take (length data) chars = data) /\
  (exists t,
      InlineData_of_tree false 4096 = Ret t /\
      is_tree t = Ret true /\
      as_tree false t = Ret 4096).
Proof.
  apply (inline_round_trip false InlineData_default
           [Byte.x61; Byte.x62; Byte.x63; Byte.x64; Byte.x65;
            Byte.x66; Byte.x67; Byte.x68; Byte.x69; Byte.x6a] 4096).
  - reflexivity.
  - simpl. lia.
  - lia.
  - unfold is_size_t. lia.
Defined.

(** *** [cordz_info] of a tree value *)

Lemma odd_lor_1 x : Z.odd (Z.lor x 1) = true.
Proof.
  rewrite <- !Z.bit0_odd, Z.lor_spec. apply orb_true_r.
Qed.

(** Two odd words whose bitwise or is 1 are both 1. *)
Lemma lor_odd_eq_1 a b :
  Z.odd a = true -> Z.odd b = true ->
  (Z.lor a b =? 1) = (a =? 1) && (b =? 1).
Proof.
  intros Ha Hb.
  assert (forall x y, Z.odd x = true -> Z.lor x y = 1 -> x = 1) as Hone.
  { intros x y Hx E. apply Z.bits_inj'. intros i Hi.
    destruct (Z.eq_dec i 0) as [-> | Hne].
    - by rewrite !Z.bit0_odd, Hx.
    - apply (f_equal (fun z => Z.testbit z i)) in E.
      rewrite Z.lor_spec in E.
      assert (Z.testbit 1 i = false) as E1.
      { change 1 with (2 ^ 0). apply Z.pow2_bits_false. lia. }
      rewrite E1 in E |- *. by apply orb_false_iff in E as [-> _]. }
  destruct (Z.eqb_spec (Z.lor a b) 1) as [E | E].
  - rewrite (Hone a b Ha E).
    rewrite Z.lor_comm in E. rewrite (Hone b a Hb E). reflexivity.
  - destruct (Z.eqb_spec a 1) as [-> |]; [|reflexivity].
    destruct (Z.eqb_spec b 1) as [-> |]; [|reflexivity].
    by destruct E.
Qed.

Lemma tree_value_image ndebug d :
  tree_value ndebug d ->
  exists v rest, d = le_split 8 v ++ rest /\ length rest = 8%nat /\
                 Z.odd v = true.
Proof.
  induction 1 as [d rep d' Hlen _ Hmk
                 | d info d' _ (v & rest & -> & Hrest & Hodd) _ Hset
                 | d d' _ (v & rest & -> & Hrest & Hodd) Hclear
                 | d rep d' _ (v & rest & -> & Hrest & Hodd) _ Hset].
  - unfold make_tree, Rep_make_tree, Rep_set_tree, Rep_set_cordz_info in Hmk.
    destruct (split_at 8 d) as [E Hl]; [lia|]. rewrite E in Hmk.
    rewrite mem_write_suffix in Hmk;
      [| done | rewrite length_le_split, length_drop; lia].
    cbn [obind] in Hmk.
    rewrite mem_write_prefix in Hmk by (by rewrite length_le_split).
    injection Hmk as <-. exists kNullCordzInfo, (le_split 8 rep).
    by rewrite length_le_split.
  - unfold set_cordz_info, Rep_set_cordz_info in Hset.
    rewrite tree_image_is_tree, Hodd in Hset. cbn [obind] in Hset.
    unfold assert_ in Hset. rewrite orb_true_r in Hset. cbn [obind] in Hset.
    rewrite mem_write_prefix in Hset by (by rewrite !length_le_split).
    injection Hset as <-. exists (to_int64 (Z.lor info 1)), rest.
    split; [done|]. split; [done|].
    unfold to_int64. rewrite odd_to_signed by lia. apply odd_lor_1.
  - unfold clear_cordz_info, Rep_set_cordz_info in Hclear.
    rewrite tree_image_is_tree, Hodd in Hclear. cbn [obind] in Hclear.
    unfold assert_ in Hclear. rewrite orb_true_r in Hclear.
    cbn [obind] in Hclear.
    rewrite mem_write_prefix in Hclear by (by rewrite !length_le_split).
    injection Hclear as <-. by exists kNullCordzInfo, rest.
  - unfold set_tree, Rep_set_tree in Hset.
    rewrite tree_image_is_tree, Hodd in Hset. cbn [obind] in Hset.
    unfold assert_ in Hset. rewrite orb_true_r in Hset. cbn [obind] in Hset.
    rewrite mem_write_suffix in Hset
      by (by rewrite ?length_le_split, ?Hrest).
    injection Hset as <-. exists v, (le_split 8 rep).
    by rewrite length_le_split.
Qed.

Lemma tree_image_is_profiled ndebug v rest :
  Z.odd v = true ->
  is_profiled ndebug (le_split 8 v ++ rest)
  = Ret (negb (to_int64 v =? kNullCordzInfo)).
Proof.
  intros Hodd. unfold is_profiled.
  rewrite tree_image_is_tree, Hodd. cbn [obind].
  unfold assert_. rewrite orb_true_r. cbn [obind].
  by rewrite tree_image_cordz_info.
Qed.

(** C10.  On two tree values whose [cordz_info] was written by
    [make_tree], [set_cordz_info] and [clear_cordz_info] only,
    [is_either_profiled] returns the disjunction of the two
    [is_profiled]. *)
Theorem is_either_profiled_is_disjunction (ndebug : bool)
    (d1 d2 : list byte) :
  tree_value ndebug d1 -> tree_value ndebug d2 ->
  exists b1 b2,
    is_profiled ndebug d1 = Ret b1 /\
    is_profiled ndebug d2 = Ret b2 /\
    is_either_profiled ndebug d1 d2 = Ret (b1 || b2).
Proof.
  intros (v1 & r1 & -> & _ & Ho1)%tree_value_image
         (v2 & r2 & -> & _ & Ho2)%tree_value_image.
  exists (negb (to_int64 v1 =? kNullCordzInfo)),
         (negb (to_int64 v2 =? kNullCordzInfo)).
  split; [by apply tree_image_is_profiled|].
  split; [by apply tree_image_is_profiled|].
  unfold is_either_profiled.
  rewrite !tree_image_is_tree, Ho1, Ho2. cbn [obind andb].
  unfold assert_. rewrite orb_true_r. cbn [obind].
  rewrite !tree_image_cordz_info. cbn [obind]. f_equal.
  unfold kNullCordzInfo, LittleEndianByte.
  rewrite lor_odd_eq_1 by (unfold to_int64; by rewrite odd_to_signed by lia).
  apply negb_andb.
Qed.

Lemma is_either_profiled_is_disjunction_witness :
  let d1 := Rep_of_tree 4096 in
  let d2 := le_split 8 8193 ++ le_split 8 4096 in
  exists b1 b2,
    is_profiled false d1 = Ret b1 /\
    is_profiled false d2 = Ret b2 /\
    is_either_profiled false d1 d2 = Ret (b1 || b2).
Proof.
  assert (tree_value false (Rep_of_tree 4096)) as Hd1.
  { apply (tv_make_tree false InlineData_default 4096).
    - reflexivity.
    - unfold is_size_t. lia.
    - vm_compute. reflexivity. }
  apply (is_either_profiled_is_disjunction false
           (Rep_of_tree 4096) (le_split 8 8193 ++ le_split 8 4096)).
  - exact Hd1.
  - apply (tv_set_cordz_info false (Rep_of_tree 4096) 8192).
    + exact Hd1.
    + unfold is_size_t. lia.
    + vm_compute. reflexivity.
Defined.

(** *** Values built by the [constexpr] constructor, and comparison *)

Lemma Rep_of_chars_image (data : list byte) :
  (length data <= 15)%nat -> Rep_of_chars data = inline_image data.
Proof.
  intros Hn. unfold Rep_of_chars, inline_image.
  rewrite Z.shiftl_mul_pow2 by lia.
  rewrite to_size_t_small by (unfold is_size_t; lia).
  f_equal; [f_equal; lia|].
  do 16 (destruct data as [|? data]; [reflexivity|]).
  cbn [length] in Hn. lia.
Qed.

Lemma Z_of_byte_inj (x y : byte) : Z_of_byte x = Z_of_byte y -> x = y.
Proof.
  intros E. rewrite <- (byte_of_Z_of_byte x), <- (byte_of_Z_of_byte y).
  by rewrite E.
Qed.

Lemma memcmp_eq_spec (l r : list byte) : memcmp_eq l r = true <-> l = r.
Proof.
  unfold memcmp_eq. rewrite bool_decide_eq_true. split; [|by intros ->].
  revert r. induction l as [|x l IH]; intros [|y r] E; try done.
  cbn [fmap list_fmap] in E. injection E as Exy E.
  f_equal; [by apply Z_of_byte_inj | by apply IH].
Qed.

Lemma inline_image_length (data : list byte) :
  (length data <= 15)%nat -> length (inline_image data) = 16%nat.
Proof.
  intros Hn. unfold inline_image. cbn [length].
  rewrite length_app, length_replicate. lia.
Qed.

Lemma inline_image_inj (a b : list byte) :
  (length a <= 15)%nat -> (length b <= 15)%nat ->
  inline_image a = inline_image b -> a = b.
Proof.
  intros Ha Hb E. unfold inline_image in E. injection E as Et Ec.
  apply (f_equal Z_of_byte) in Et. rewrite !Z_of_byte_of_Z in Et.
  rewrite !Z.mod_small in Et by lia.
  assert (length a = length b) as El by lia.
  by apply app_inj_1 in Ec as [? _].
Qed.

Lemma mem_read_all (l : list byte) k :
  length l = k -> mem_read l 0 k = Ret l.
Proof.
  intros Hl. unfold mem_read. rewrite decide_True by lia.
  rewrite drop_0. by rewrite take_ge by lia.
Qed.

Lemma operator_eq_16 (l r : list byte) :
  length l = 16%nat -> length r = 16%nat ->
  operator_eq l r = Ret (memcmp_eq l r).
Proof.
  intros Hl Hr. unfold operator_eq.
  by rewrite !mem_read_all.
Qed.

(** *** [Compare] *)

Lemma le_combine_app (a b : list byte) :
  le_combine (a ++ b)
  = le_combine a + 256 ^ Z.of_nat (length a) * le_combine b.
Proof.
  induction a as [|x a IH]; cbn [app le_combine length].
  - change (256 ^ Z.of_nat 0) with 1. lia.
  - rewrite IH, Nat2Z.inj_succ, Z.pow_succ_r by lia. lia.
Qed.

Lemma le_combine_inj (a b : list byte) :
  length a = length b -> le_combine a = le_combine b -> a = b.
Proof.
  intros El E. rewrite <- (split_le_combine a), <- (split_le_combine b).
  by rewrite E, El.
Qed.

Lemma big_endian_FromHost64_combine (u : list byte) :
  length u = 8%nat ->
  big_endian_FromHost64 (le_combine u) = le_combine (reverse u).
Proof.
  intros Hu. unfold big_endian_FromHost64.
  by rewrite <- Hu, split_le_combine.
Qed.

(** The order of the big endian values of two byte strings of one length
    is their lexicographic order. *)
Lemma lexicographic_big_endian (u v : list byte) :
  length u = length v ->
  lexicographic u v
  = match le_combine (reverse u) ?= le_combine (reverse v) with
    | Lt => -1
    | Eq => 0
    | Gt => 1
    end.
Proof.
  revert v. induction u as [|x u IH]; intros [|y v] El; try done.
  cbn [length] in El. injection El as El.
  cbn [lexicographic]. rewrite !reverse_cons, !le_combine_app.
  rewrite !length_reverse, <- El. cbn [le_combine].
  rewrite !Z.mul_0_r, !Z.add_0_r.
  pose proof (le_combine_range (reverse u)) as Hu.
  pose proof (le_combine_range (reverse v)) as Hv.
  rewrite length_reverse in Hu, Hv. rewrite <- El in Hv.
  rewrite (IH v El). clear IH.
  assert (0 < 256 ^ Z.of_nat (length u)) as HP
    by (apply Z.pow_pos_nonneg; lia).
  generalize dependent (256 ^ Z.of_nat (length u)). intros P Hu Hv HP.
  generalize dependent (le_combine (reverse u)).
  generalize dependent (le_combine (reverse v)).
  intros V HV U HU.
  destruct (Z.ltb_spec (Z_of_byte x) (Z_of_byte y)).
  { assert (U + P * Z_of_byte x < V + P * Z_of_byte y) as Hlt.
    { assert (P * (Z_of_byte x + 1) <= P * Z_of_byte y)
        by (apply Z.mul_le_mono_nonneg_l; lia).
      lia. }
    apply Z.compare_lt_iff in Hlt. by rewrite Hlt. }
  destruct (Z.ltb_spec (Z_of_byte y) (Z_of_byte x)).
  { assert (V + P * Z_of_byte y < U + P * Z_of_byte x) as Hgt.
    { assert (P * (Z_of_byte y + 1) <= P * Z_of_byte x)
        by (apply Z.mul_le_mono_nonneg_l; lia).
      lia. }
    apply Z.compare_gt_iff in Hgt. by rewrite Hgt. }
  replace (Z_of_byte y) with (Z_of_byte x) by lia.
  by rewrite (Z.add_comm U), (Z.add_comm V), Z.add_compare_mono_l.
Qed.

Lemma lexicographic_refl (u : list byte) : lexicographic u u = 0.
Proof.
  induction u as [|x u IH]; [done|]. cbn [lexicographic].
  by rewrite Z.ltb_irrefl.
Qed.

Lemma lexicographic_eq (u v : list byte) :
  length u = length v -> lexicographic u v = 0 -> u = v.
Proof.
  revert v. induction u as [|x u IH]; intros [|y v] El E; try done.
  cbn [lexicographic] in E. injection El as El.
  destruct (Z.ltb_spec (Z_of_byte x) (Z_of_byte y)); [done|].
  destruct (Z.ltb_spec (Z_of_byte y) (Z_of_byte x)); [done|].
  f_equal; [apply Z_of_byte_inj; lia | by apply IH].
Qed.

Lemma lexicographic_app_same (u v v' : list byte) :
  lexicographic (u ++ v) (u ++ v') = lexicographic v v'.
Proof.
  induction u as [|x u IH]; [done|]. cbn [app lexicographic].
  by rewrite Z.ltb_irrefl.
Qed.

Lemma lexicographic_app_differ (u u' v v' : list byte) :
  length u = length u' -> u <> u' ->
  lexicographic (u ++ v) (u' ++ v') = lexicographic u u'.
Proof.
  revert u'. induction u as [|x u IH]; intros [|y u'] El Hne; try done.
  injection El as El. cbn [app lexicographic].
  destruct (Z.ltb_spec (Z_of_byte x) (Z_of_byte y)); [done|].
  destruct (Z.ltb_spec (Z_of_byte y) (Z_of_byte x)); [done|].
  apply IH; [done|]. intros ->. apply Hne. f_equal.
  apply Z_of_byte_inj. lia.
Qed.

(** The big endian comparison at the end of [Compare], on two words read
    from memory that differ. *)
Lemma big_endian_compare (u v : list byte) :
  length u = 8%nat -> length v = 8%nat -> u <> v ->
  (if big_endian_FromHost64 (le_combine u)
      <? big_endian_FromHost64 (le_combine v) then -1 else 1)
  = lexicographic u v.
Proof.
  intros Hu Hv Hne. rewrite !big_endian_FromHost64_combine by done.
  pose proof (lexicographic_big_endian u v) as E.
  rewrite E by congruence.
  destruct (Z.compare_spec (le_combine (reverse u)) (le_combine (reverse v)))
    as [Heq | Hlt | Hgt].
  - exfalso. apply Hne. apply le_combine_inj in Heq.
    + by apply (inj reverse).
    + rewrite !length_reverse. congruence.
  - apply Z.ltb_lt in Hlt. by rewrite Hlt.
  - destruct (Z.ltb_spec (le_combine (reverse u)) (le_combine (reverse v)));
      [lia | done].
Qed.

Lemma list_split_15 (A : list byte) :
  length A = 15%nat ->
  exists u m w, A = u ++ m :: w /\ length u = 7%nat /\ length w = 7%nat.
Proof.
  intros H. do 15 (destruct A as [|? A]; [discriminate H|]).
  destruct A; [|discriminate H].
  by exists [b; b0; b1; b2; b3; b4; b5], b6, [b7; b8; b9; b10; b11; b12; b13].
Qed.

(** [Compare] on two values whose 15 characters are [u ++ m :: w] and
    [u' ++ m' :: w']: the two overlapping 8-byte windows are [u ++ [m]]
    and [m :: w]. *)
Lemma Rep_Compare_windows ndebug (ta tb m m' : byte) (u w u' w' : list byte)
    (sa sb : Z) :
  length u = 7%nat -> length w = 7%nat ->
  length u' = 7%nat -> length w' = 7%nat ->
  Rep_inline_size ndebug (ta :: u ++ m :: w) = Ret sa ->
  Rep_inline_size ndebug (tb :: u' ++ m' :: w') = Ret sb ->
  Rep_Compare ndebug (ta :: u ++ m :: w) (tb :: u' ++ m' :: w')
  = Ret (if lexicographic (u ++ m :: w) (u' ++ m' :: w') =? 0
         then if sa =? sb then 0 else if sa <? sb then -1 else 1
         else lexicographic (u ++ m :: w) (u' ++ m' :: w')).
Proof.
  intros Hu Hw Hu' Hw' Hsa Hsb.
  assert (forall (u w : list byte) m, length u = 7%nat -> length w = 7%nat ->
            mem_read (u ++ m :: w) 0 8 = Ret (u ++ [m]) /\
            mem_read (u ++ m :: w) 7 8 = Ret (m :: w)) as Hread.
  { intros u0 w0 m0 H7 H7'. split.
    - replace (u0 ++ m0 :: w0) with ((u0 ++ [m0]) ++ w0)
        by (by rewrite <- app_assoc).
      apply mem_read_prefix. rewrite length_app, H7. reflexivity.
    - apply mem_read_suffix; [done|]. cbn [length]. by rewrite H7'. }
  destruct (Hread u w m Hu Hw) as [R1 R2].
  destruct (Hread u' w' m' Hu' Hw') as [R1' R2']. clear Hread.
  unfold Rep_Compare, Rep_as_chars. cbn [skipn]. rewrite !drop_0.
  rewrite R1, R1'. cbn [obind].
  assert (length (u ++ [m]) = 8%nat) as H8
    by (rewrite length_app, Hu; reflexivity).
  assert (length (u' ++ [m']) = 8%nat) as H8'
    by (rewrite length_app, Hu'; reflexivity).
  destruct (Z.eqb_spec (le_combine (u ++ [m])) (le_combine (u' ++ [m'])))
    as [E1 | N1].
  - apply le_combine_inj in E1; [|congruence].
    apply app_inj_1 in E1 as [<- Em]; [|congruence].
    injection Em as <-.
    rewrite R2, R2'. cbn [obind].
    rewrite lexicographic_app_same.
    destruct (Z.eqb_spec (le_combine (m :: w)) (le_combine (m :: w')))
      as [E2 | N2].
    + apply le_combine_inj in E2; [|cbn [length]; congruence].
      injection E2 as <-.
      rewrite Hsa, Hsb. cbn [obind]. rewrite lexicographic_refl.
      change (0 =? 0) with true. cbv iota.
      by destruct (sa =? sb).
    + cbn [obind].
      assert (m :: w <> m :: w') as Hne by (by intros E; rewrite E in N2).
      rewrite big_endian_compare by (cbn [length]; congruence).
      destruct (Z.eqb_spec (lexicographic (m :: w) (m :: w')) 0) as [E0 | _];
        [|reflexivity].
      apply lexicographic_eq in E0; [done | cbn [length]; congruence].
  - cbn [obind].
    assert (u ++ [m] <> u' ++ [m']) as Hne by (by intros E; rewrite E in N1).
    rewrite big_endian_compare by done.
    replace (u ++ m :: w) with ((u ++ [m]) ++ w)
      by (by rewrite <- app_assoc).
    replace (u' ++ m' :: w') with ((u' ++ [m']) ++ w')
      by (by rewrite <- app_assoc).
    rewrite (lexicographic_app_differ _ _ _ _ (eq_trans H8 (eq_sym H8')) Hne).
    destruct (Z.eqb_spec (lexicographic (u ++ [m]) (u' ++ [m'])) 0)
      as [E0 | _]; [|reflexivity].
    apply lexicographic_eq in E0; [done | congruence].
Qed.

Lemma lexicographic_zeros_l (B : list byte) :
  lexicographic (replicate (length B) Byte.x00) B = 0 \/
  lexicographic (replicate (length B) Byte.x00) B = -1.
Proof.
  induction B as [|y B IH]; [by left|].
  cbn [length replicate lexicographic].
  change (Z_of_byte Byte.x00) with 0. pose proof (Z_of_byte_range y).
  destruct (Z.ltb_spec 0 (Z_of_byte y)); [by right|].
  destruct (Z.ltb_spec (Z_of_byte y) 0); [lia | exact IH].
Qed.

Lemma lexicographic_zeros_r (A : list byte) :
  lexicographic A (replicate (length A) Byte.x00) = 0 \/
  lexicographic A (replicate (length A) Byte.x00) = 1.
Proof.
  induction A as [|x A IH]; [by left|].
  cbn [length replicate lexicographic].
  change (Z_of_byte Byte.x00) with 0. pose proof (Z_of_byte_range x).
  destruct (Z.ltb_spec (Z_of_byte x) 0); [lia|].
  destruct (Z.ltb_spec 0 (Z_of_byte x)); [by right | exact IH].
Qed.

(** Comparing the zero padded images, and the sizes when the images are
    equal, is comparing the strings. *)
Lemma lexicographic_padded (k : nat) (a b : list byte) :
  (length a <= k)%nat -> (length b <= k)%nat ->
  (if lexicographic (a ++ replicate (k - length a) Byte.x00)
                    (b ++ replicate (k - length b) Byte.x00) =? 0
   then if Z.of_nat (length a) =? Z.of_nat (length b) then 0
        else if Z.of_nat (length a) <? Z.of_nat (length b) then -1 else 1
   else lexicographic (a ++ replicate (k - length a) Byte.x00)
                      (b ++ replicate (k - length b) Byte.x00))
  = lexicographic a b.
Proof.
  revert k b. induction a as [|x a IH]; intros k [|y b] Ha Hb.
  - cbn [app length]. by rewrite lexicographic_refl.
  - cbn [app length] in *. rewrite Nat.sub_0_r.
    change (lexicographic [] (y :: b)) with (-1).
    pose proof (lexicographic_zeros_l
                  (y :: b ++ replicate (k - S (length b)) Byte.x00)) as Hz.
    cbn [length] in Hz. rewrite length_app, length_replicate in Hz.
    replace (S (length b + (k - S (length b)))) with k in Hz by lia.
    destruct (Z.ltb_spec 0 (Z.of_nat (S (length b)))); [|lia].
    by destruct Hz as [-> | ->].
  - cbn [app length] in *. rewrite Nat.sub_0_r.
    change (lexicographic (x :: a) []) with 1.
    pose proof (lexicographic_zeros_r
                  (x :: a ++ replicate (k - S (length a)) Byte.x00)) as Hz.
    cbn [length] in Hz. rewrite length_app, length_replicate in Hz.
    replace (S (length a + (k - S (length a)))) with k in Hz by lia.
    destruct (Z.ltb_spec (Z.of_nat (S (length a))) 0); [lia|].
    by destruct Hz as [-> | ->].
  - cbn [length] in Ha, Hb. destruct k as [|k]; [lia|].
    cbn [app length lexicographic Nat.sub].
    destruct (Z.ltb_spec (Z_of_byte x) (Z_of_byte y)); [reflexivity|].
    destruct (Z.ltb_spec (Z_of_byte y) (Z_of_byte x)); [reflexivity|].
    rewrite <- (IH k b) by lia.
    replace (Z.of_nat (S (length a)) =? Z.of_nat (S (length b)))
      with (Z.of_nat (length a) =? Z.of_nat (length b))
      by (destruct (Z.eqb_spec (Z.of_nat (length a)) (Z.of_nat (length b)));
          destruct (Z.eqb_spec (Z.of_nat (S (length a)))
                               (Z.of_nat (S (length b)))); lia).
    replace (Z.of_nat (S (length a)) <? Z.of_nat (S (length b)))
      with (Z.of_nat (length a) <? Z.of_nat (length b))
      by (destruct (Z.ltb_spec (Z.of_nat (length a)) (Z.of_nat (length b)));
          destruct (Z.ltb_spec (Z.of_nat (S (length a)))
                               (Z.of_nat (S (length b)))); lia).
    reflexivity.
Qed.

Lemma Compare_image ndebug (a b : list byte) :
  (length a <= 15)%nat -> (length b <= 15)%nat ->
  Compare ndebug (inline_image a) (inline_image b)
  = Ret (lexicographic a b).
Proof.
  intros Ha Hb. unfold Compare.
  pose proof (inline_image_size ndebug a Ha) as Hsa.
  pose proof (inline_image_size ndebug b Hb) as Hsb.
  unfold inline_size in Hsa, Hsb.
  rewrite <- (lexicographic_padded 15 a b Ha Hb).
  unfold inline_image in *.
  destruct (list_split_15 (a ++ replicate (15 - length a) Byte.x00))
    as (u & m & w & EA & Hu & Hw).
  { rewrite length_app, length_replicate. lia. }
  destruct (list_split_15 (b ++ replicate (15 - length b) Byte.x00))
    as (u' & m' & w' & EB & Hu' & Hw').
  { rewrite length_app, length_replicate. lia. }
  rewrite EA, EB in *.
  by apply Rep_Compare_windows.
Qed.

Lemma lexicographic_zero_iff (a b : list byte) :
  lexicographic a b = 0 <-> a = b.
Proof.
  split; [|intros ->; apply lexicographic_refl].
  revert b. induction a as [|x a IH]; intros [|y b] E; try done.
  cbn [lexicographic] in E.
  destruct (Z.ltb_spec (Z_of_byte x) (Z_of_byte y)); [done|].
  destruct (Z.ltb_spec (Z_of_byte y) (Z_of_byte x)); [done|].
  f_equal; [apply Z_of_byte_inj; lia | by apply IH].
Qed.

Lemma InlineData_of_null (sv : list byte) :
  (length sv <= 15)%nat -> InlineData_of sv 0 = inline_image sv.
Proof. intros H. unfold InlineData_of. cbn. by apply Rep_of_chars_image. Qed.

(** X9.  [set_inline_data] with [n <= 15] bytes leaves the object in one
    state, whatever it held before: the value the [constexpr]
    constructor [InlineData(sv, nullptr)] builds from the same bytes.
    Hence [operator==] (a [memcmp] of the 16 bytes) and [operator!=] on
    two inline values decide whether they hold the same bytes. *)
Theorem set_inline_data_is_canonical (ndebug : bool)
    (d1 d2 a b : list byte) :
  length d1 = 16%nat -> length d2 = 16%nat ->
  (length a <= 15)%nat -> (length b <= 15)%nat ->
  set_inline_data ndebug d1 a (length a) = Ret (InlineData_of a 0) /\
  set_inline_data ndebug d2 b (length b) = Ret (InlineData_of b 0) /\
  exists r,
    operator_eq (InlineData_of a 0) (InlineData_of b 0) = Ret r /\
    operator_ne (InlineData_of a 0) (InlineData_of b 0) = Ret (negb r) /\
    (r = true <-> a = b).
Proof.
  intros H1 H2 Ha Hb. rewrite !InlineData_of_null by done.
  split; [by apply set_inline_data_image|].
  split; [by apply set_inline_data_image|].
  exists (memcmp_eq (inline_image a) (inline_image b)).
  unfold operator_ne.
  rewrite operator_eq_16 by (by apply inline_image_length).
  split; [done|]. split; [done|].
  rewrite memcmp_eq_spec. split; [by apply inline_image_inj | by intros ->].
Qed.

Lemma set_inline_data_is_canonical_witness :
  let a := [Byte.x61; Byte.x62; Byte.x63] in
  let b := [Byte.x61; Byte.x62] in
  set_inline_data false (replicate 16 Byte.xff) a (length a)
  = Ret (InlineData_of a 0) /\
  set_inline_data false InlineData_default b (length b)
  = Ret (InlineData_of b 0) /\
  exists r,
    operator_eq (InlineData_of a 0) (InlineData_of b 0) = Ret r /\
    operator_ne (InlineData_of a 0) (InlineData_of b 0) = Ret (negb r) /\
    (r = true <-> a = b).
Proof.
  apply (set_inline_data_is_canonical false (replicate 16 Byte.xff)
           InlineData_default [Byte.x61; Byte.x62; Byte.x63]
           [Byte.x61; Byte.x62]).
  - reflexivity.
  - reflexivity.
  - simpl. lia.
  - simpl. lia.
Defined.

(** X10.  [Compare] on two inline values of at most 15 bytes, read eight
    bytes at a time and compared as big endian words, returns the
    lexicographic order of the two byte strings: -1, 0 or 1, and 0 only
    for equal strings. *)
Theorem Compare_is_lexicographic (ndebug : bool) (a b : list byte) :
  (length a <= 15)%nat -> (length b <= 15)%nat ->
  Compare ndebug (InlineData_of a 0) (InlineData_of b 0)
  = Ret (lexicographic a b) /\
  (lexicographic a b = 0 <-> a = b).
Proof.
  intros Ha Hb. rewrite !InlineData_of_null by done.
  split; [by apply Compare_image | apply lexicographic_zero_iff].
Qed.

Lemma Compare_is_lexicographic_witness :
  let a := [Byte.x61; Byte.x62; Byte.x63; Byte.x64; Byte.x65; Byte.x66;
            Byte.x67; Byte.x68; Byte.x69] in
  let b := [Byte.x61; Byte.x62; Byte.x63; Byte.x64; Byte.x65; Byte.x66;
            Byte.x67; Byte.x68; Byte.xe9; Byte.x00] in
  Compare false (InlineData_of a 0) (InlineData_of b 0)
  = Ret (lexicographic a b) /\
  (lexicographic a b = 0 <-> a = b).
Proof.
  apply (Compare_is_lexicographic false
           [Byte.x61; Byte.x62; Byte.x63; Byte.x64; Byte.x65; Byte.x66;
            Byte.x67; Byte.x68; Byte.x69]
           [Byte.x61; Byte.x62; Byte.x63; Byte.x64; Byte.x65; Byte.x66;
            Byte.x67; Byte.x68; Byte.xe9; Byte.x00]).
  - simpl. lia.
  - simpl. lia.
Defined.

(** *** [set_inline_size] *)



(** *** The two fields of a tree value *)

Lemma tree_form (d : list byte) :
  length d = 16%nat ->
  exists v rest, d = le_split 8 v ++ rest /\ length rest = 8%nat.
Proof.
  intros Hd. destruct (split_at 8 d) as [E Hl]; [lia|].
  exists (le_combine (take 8 d)), (drop 8 d).
  rewrite <- Hl at 1. rewrite split_le_combine.
  split; [exact E|]. rewrite length_drop. lia.
Qed.

Lemma to_int64_idemp x : to_int64 (to_int64 x) = to_int64 x.
Proof.
  unfold to_int64. apply to_signed_id; [lia|].
  apply to_signed_range. lia.
Qed.

Lemma tree_image_cordz_info_ptr ndebug (v : Z) (rest : list byte) :
  Z.odd v = true ->
  cordz_info ndebug (le_split 8 v ++ rest) = Ret ((v - 1) mod 2 ^ 64).
Proof.
  intros Hodd. unfold cordz_info.
  rewrite tree_image_is_tree, Hodd. cbn [obind].
  rewrite assert_true by done. cbn [obind].
  rewrite tree_image_cordz_info. cbn [obind].
  assert (to_int64 (to_uint64 (to_int64 v)) = to_int64 v) as ->.
  { unfold to_int64, to_uint64, to_unsigned.
    rewrite to_signed_mod_idemp by lia. apply to_int64_idemp. }
  rewrite odd_land_1. unfold to_int64 at 1.
  rewrite odd_to_signed, Hodd by lia.
  rewrite assert_true by done. cbn [obind]. f_equal.
  unfold to_uint64, to_unsigned, to_int64.
  rewrite <- Zminus_mod_idemp_l, to_signed_mod by lia.
  by rewrite Zminus_mod_idemp_l.
Qed.

Lemma lor_1_even p : Z.even p = true -> Z.lor p 1 = p + 1.
Proof.
  intros He. rewrite <- Z.lxor_lor, <- Z.add_nocarry_lxor; try done.
  all: change 1 with (Z.ones 1); rewrite Z.land_ones by lia;
    change (2 ^ 1) with 2; rewrite Zmod_even, He; reflexivity.
Qed.

Lemma tree_image_as_tree ndebug (v : Z) (rest : list byte) :
  Z.odd v = true -> length rest = 8%nat ->
  as_tree ndebug (le_split 8 v ++ rest) = Ret (le_combine rest).
Proof.
  intros Hodd Hr. unfold as_tree. rewrite tree_image_is_tree, Hodd.
  cbn [obind]. rewrite assert_true by done. cbn [obind].
  by apply tree_image_tree.
Qed.

(** X12.  On a tree value, [set_cordz_info] with an even pointer value
    (the low bit of the stored word is the tree mark) followed by
    [cordz_info()] gives the pointer back, [is_profiled] tells whether
    it is not null, and [clear_cordz_info] makes [cordz_info()] null
    again; through all of it the value stays a tree with the same
    [as_tree]. *)
Theorem cordz_info_round_trip (ndebug : bool) (d : list byte) (p : Z) :
  length d = 16%nat -> is_tree d = Ret true ->
  is_size_t p -> Z.even p = true ->
  exists d' d'',
    set_cordz_info ndebug d p = Ret d' /\
    cordz_info ndebug d' = Ret p /\
    is_profiled ndebug d' = Ret (negb (p =? 0)) /\
    is_tree d' = Ret true /\
    as_tree ndebug d' = as_tree ndebug d /\
    clear_cordz_info ndebug d' = Ret d'' /\
    cordz_info ndebug d'' = Ret 0 /\
    is_profiled ndebug d'' = Ret false /\
    is_tree d'' = Ret true /\
    as_tree ndebug d'' = as_tree ndebug d.
Proof.
  intros Hd Ht [Hp0 Hp] He.
  destruct (tree_form d Hd) as (v & rest & -> & Hrest).
  rewrite tree_image_is_tree in Ht. injection Ht as Hodd.
  set (w := to_int64 (Z.lor p 1)).
  assert (Z.odd w = true) as Hw.
  { unfold w, to_int64. rewrite odd_to_signed by lia. apply odd_lor_1. }
  assert (w mod 2 ^ 64 = p + 1) as Hmod.
  { unfold w, to_int64. rewrite to_signed_mod, lor_1_even by (lia || done).
    apply Z.mod_small. split; [lia|].
    assert (p <> 2 ^ 64 - 1) by (intros ->; discriminate He). lia. }
  exists (le_split 8 w ++ rest), (le_split 8 kNullCordzInfo ++ rest).
  split.
  { unfold set_cordz_info, Rep_set_cordz_info.
    rewrite tree_image_is_tree, Hodd. cbn [obind].
    rewrite assert_true by done. cbn [obind].
    by rewrite mem_write_prefix by (by rewrite !length_le_split). }
  split.
  { rewrite tree_image_cordz_info_ptr by done. f_equal.
    rewrite <- Zminus_mod_idemp_l, Hmod.
    replace (p + 1 - 1) with p by lia. apply Z.mod_small. lia. }
  split.
  { rewrite tree_image_is_profiled by done. f_equal. f_equal.
    unfold kNullCordzInfo, LittleEndianByte.
    assert (to_int64 w = w) as -> by apply to_int64_idemp.
    destruct (Z.eqb_spec w 1) as [E | N], (Z.eqb_spec p 0) as [E' | N'];
      try done.
    - rewrite E in Hmod. change (1 mod 2 ^ 64) with 1 in Hmod. lia.
    - exfalso. apply N. unfold w. by rewrite E'. }
  split; [by rewrite tree_image_is_tree, Hw|].
  split; [by rewrite !tree_image_as_tree|].
  split.
  { unfold clear_cordz_info, Rep_set_cordz_info.
    rewrite tree_image_is_tree, Hw. cbn [obind].
    rewrite assert_true by done. cbn [obind].
    by rewrite mem_write_prefix by (by rewrite !length_le_split). }
  split; [by rewrite tree_image_cordz_info_ptr|].
  split; [by rewrite tree_image_is_profiled|].
  split; [by rewrite tree_image_is_tree|].
  by rewrite !tree_image_as_tree.
Qed.

Lemma cordz_info_round_trip_witness :
  exists d' d'',
    set_cordz_info false (Rep_of_tree 4096) 8192 = Ret d' /\
    cordz_info false d' = Ret 8192 /\
    is_profiled false d' = Ret (negb (8192 =? 0)) /\
    is_tree d' = Ret true /\
    as_tree false d' = as_tree false (Rep_of_tree 4096) /\
    clear_cordz_info false d' = Ret d'' /\
    cordz_info false d'' = Ret 0 /\
    is_profiled false d'' = Ret false /\
    is_tree d'' = Ret true /\
    as_tree false d'' = as_tree false (Rep_of_tree 4096).
Proof.
  apply (cordz_info_round_trip false (Rep_of_tree 4096) 8192).
  - reflexivity.
  - reflexivity.
  - unfold is_size_t. lia.
  - reflexivity.
Defined.

(** X13.  [make_tree] turns an object in any state, inline or tree,
    into the value the constructor [InlineData(rep)] builds: a tree
    that is not profiled and whose [as_tree] is [rep].  [set_tree] on a
    tree value replaces the node and leaves [cordz_info] as it is. *)
Theorem make_tree_and_set_tree (ndebug : bool) (d t : list byte)
    (rep rep' : Z) :
  length d = 16%nat -> is_size_t rep ->
  length t = 16%nat -> is_tree t = Ret true -> is_size_t rep' ->
  (make_tree d rep = Ret (Rep_of_tree rep) /\
   is_tree (Rep_of_tree rep) = Ret true /\
   as_tree ndebug (Rep_of_tree rep) = Ret rep /\
   is_profiled ndebug (Rep_of_tree rep) = Ret false /\
   cordz_info ndebug (Rep_of_tree rep) = Ret 0) /\
  (exists t',
     set_tree ndebug t rep' = Ret t' /\
     is_tree t' = Ret true /\
     as_tree ndebug t' = Ret rep' /\
     cordz_info ndebug t' = cordz_info ndebug t /\
     is_profiled ndebug t' = is_profiled ndebug t).
Proof.
  intros Hd Hrep Ht Htree Hrep'. split.
  - unfold Rep_of_tree. split.
    { unfold make_tree, Rep_make_tree, Rep_set_tree, Rep_set_cordz_info.
      destruct (tree_form d Hd) as (v & rest & -> & Hrest).
      rewrite mem_write_suffix by (by rewrite !length_le_split).
      cbn [obind].
      by rewrite mem_write_prefix by (by rewrite !length_le_split). }
    split; [by rewrite tree_image_is_tree|].
    split.
    { rewrite tree_image_as_tree by (done || apply length_le_split).
      rewrite le_combine_split. f_equal. by apply Z.mod_small. }
    split; [by rewrite tree_image_is_profiled|].
    by rewrite tree_image_cordz_info_ptr.
  - destruct (tree_form t Ht) as (v & rest & -> & Hrest).
    rewrite tree_image_is_tree in Htree. injection Htree as Hodd.
    exists (le_split 8 v ++ le_split 8 rep'). split.
    { unfold set_tree, Rep_set_tree.
      rewrite tree_image_is_tree, Hodd. cbn [obind].
      rewrite assert_true by done. cbn [obind].
      by rewrite mem_write_suffix by (by rewrite !length_le_split). }
    split; [by rewrite tree_image_is_tree, Hodd|].
    split.
    { rewrite tree_image_as_tree by (done || apply length_le_split).
      rewrite le_combine_split. f_equal. by apply Z.mod_small. }
    split; [by rewrite !tree_image_cordz_info_ptr|].
    by rewrite !tree_image_is_profiled.
Qed.

Lemma make_tree_and_set_tree_witness :
  let d := inline_image [Byte.x61; Byte.x62; Byte.x63] in
  let t := Rep_of_tree 4096 in
  (make_tree d 4096 = Ret (Rep_of_tree 4096) /\
   is_tree (Rep_of_tree 4096) = Ret true /\
   as_tree false (Rep_of_tree 4096) = Ret 4096 /\
   is_profiled false (Rep_of_tree 4096) = Ret false /\
   cordz_info false (Rep_of_tree 4096) = Ret 0) /\
  (exists t',
     set_tree false t 8192 = Ret t' /\
     is_tree t' = Ret true /\
     as_tree false t' = Ret 8192 /\
     cordz_info false t' = cordz_info false t /\
     is_profiled false t' = is_profiled false t).
Proof.
  apply (make_tree_and_set_tree false
           (inline_image [Byte.x61; Byte.x62; Byte.x63])
           (Rep_of_tree 4096) 4096 8192).
  - reflexivity.
  - unfold is_size_t. lia.
  - reflexivity.
  - reflexivity.
  - unfold is_size_t. lia.
Defined.

(** *** [SmallMemmove] *)

Lemma list_expose (k : nat) (l : list byte) :
  (k <= length l)%nat -> exists p r, l = p ++ r /\ length p = k.
Proof.
  intros H. exists (take k l), (drop k l).
  split; [by rewrite take_drop | rewrite length_take; lia].
Qed.

Ltac explode p Hp :=
  lazymatch type of Hp with
  | length p = O => destruct p; [clear Hp | discriminate Hp]
  | length p = S _ =>
      destruct p as [|? p]; [discriminate Hp|];
      cbn [length] in Hp; apply eq_add_S in Hp; explode p Hp
  end.

Lemma SmallMemmove_spec ndebug (nullify_tail : bool) (dst src : list byte)
    (n : nat) :
  (n <= 15)%nat -> (n <= length src)%nat ->
  ((if nullify_tail then 15 else n) <= length dst)%nat ->
  SmallMemmove ndebug nullify_tail dst src n
  = Ret (take n src ++
         (if nullify_tail
          then replicate (15 - n) Byte.x00 ++ drop 15 dst
          else drop n dst)).
Proof.
  intros Hn Hs Hd.
  destruct (list_expose _ _ Hs) as (ps & rs & -> & Hps).
  destruct (list_expose _ _ Hd) as (pd & rd & -> & Hpd).
  clear Hs Hd.
  do 16 (try destruct n as [|n]); [..|lia]; clear Hn;
    destruct nullify_tail; explode ps Hps; explode pd Hpd;
    destruct ndebug; vm_compute; reflexivity.
Qed.

(** X14.  [SmallMemmove] of [n <= 15] bytes between two buffers that do
    not overlap writes the first [n] bytes of the source at the start of
    the destination.  With [nullify_tail] the bytes from [n] up to 15
    become zero and the destination must have 15 bytes; without it the
    rest of the destination keeps its contents.  Nothing past the 15th
    byte is written. *)
Theorem SmallMemmove_copies (ndebug nullify_tail : bool)
    (dst src : list byte) (n : nat) :
  (n <= 15)%nat -> (n <= length src)%nat ->
  ((if nullify_tail then 15 else n) <= length dst)%nat ->
  exists dst',
    SmallMemmove ndebug nullify_tail dst src n = Ret dst' /\
    length dst' = length dst /\
    take n dst' = take n src /\
    (if nullify_tail
     then take (15 - n) (drop n dst') = replicate (15 - n) Byte.x00 /\
          drop 15 dst' = drop 15 dst
     else drop n dst' = drop n dst).
Proof.
  intros Hn Hs Hd. eexists. split; [by apply SmallMemmove_spec|].
  assert (length (take n src) = n) as Hl by (rewrite length_take; lia).
  split.
  { destruct nullify_tail;
      rewrite ?length_app, ?length_replicate, ?length_drop, Hl; lia. }
  split; [by rewrite take_app_length' by done|].
  rewrite drop_app_length' by done.
  destruct nullify_tail; [|done]. split.
  - by rewrite take_app_length' by (by rewrite length_replicate).
  - replace 15%nat with (n + (15 - n))%nat at 1 by lia.
    rewrite <- drop_drop, drop_app_length' by done.
    by rewrite drop_app_length' by (by rewrite length_replicate).
Qed.

Lemma SmallMemmove_copies_witness :
  exists dst',
    SmallMemmove false false (replicate 6 Byte.xff)
      [Byte.x61; Byte.x62; Byte.x63; Byte.x64; Byte.x65] 5 = Ret dst' /\
    length dst' = length (replicate 6 Byte.xff) /\
    take 5 dst' = take 5 [Byte.x61; Byte.x62; Byte.x63; Byte.x64; Byte.x65] /\
    drop 5 dst' = drop 5 (replicate 6 Byte.xff).
Proof.
  apply (SmallMemmove_copies false false (replicate 6 Byte.xff)
           [Byte.x61; Byte.x62; Byte.x63; Byte.x64; Byte.x65] 5).
  - lia.
  - simpl. lia.
  - simpl. lia.
Defined.

(** *** [swap] *)

Lemma mem_write_all (p bs : list byte) :
  length bs = length p -> mem_write p 0 bs = Ret bs.
Proof.
  intros Hl. unfold mem_write. rewrite decide_True by lia.
  cbn [take Nat.add]. rewrite drop_ge by lia. by rewrite app_nil_r.
Qed.

(** X28.  [swap] exchanges the 16 bytes of two values, whatever they
    hold, although [SwapValue] gets the same object as its by-value and
    its by-reference argument; swapping twice gives the values back. *)
Theorem swap_exchanges (lhs rhs : list byte) :
  length lhs = 16%nat -> length rhs = 16%nat ->
  swap lhs rhs = Ret (rhs, lhs) /\
  (p <- swap lhs rhs ;; swap (fst p) (snd p))%outcome = Ret (lhs, rhs).
Proof.
  intros Hl Hr.
  assert (forall a b : list byte,
            length a = 16%nat -> length b = 16%nat ->
            swap a b = Ret (b, a)) as Hswap.
  { intros a b Ha Hb. unfold swap, Rep_SwapValue.
    rewrite mem_read_all by done. cbn [obind].
    rewrite mem_write_all by congruence. cbn [obind].
    rewrite mem_read_all by done. cbn [obind].
    by rewrite mem_write_all by congruence. }
  split; [by apply Hswap|].
  rewrite Hswap by done. cbn [obind fst snd]. by apply Hswap.
Qed.

Lemma swap_exchanges_witness :
  swap (inline_image [Byte.x61; Byte.x62]) (Rep_of_tree 4096)
  = Ret (Rep_of_tree 4096, inline_image [Byte.x61; Byte.x62]) /\
  (p <- swap (inline_image [Byte.x61; Byte.x62]) (Rep_of_tree 4096) ;;
   swap (fst p) (snd p))%outcome
  = Ret (inline_image [Byte.x61; Byte.x62], Rep_of_tree 4096).
Proof.
  apply (swap_exchanges (inline_image [Byte.x61; Byte.x62])
           (Rep_of_tree 4096)).
  - reflexivity.
  - reflexivity.
Defined.

End Inline.

(** ** [CordRepSubstring::Substring] *)

Section Sub.
Import CordRep.
Local Open Scope Z_scope.

Lemma deref_live (h : gmap nat CordRep) a r :
  h !! a = Some r -> deref h (Some a) = Ret (a, r).
Proof. intros H. unfold deref. by rewrite H. Qed.

Lemma Ref_live ndebug (h : gmap nat CordRep) a r :
  h !! a = Some r ->
  Ref ndebug h (Some a)
  = Ret (<[a := mkCordRep (length r)
                          (RefcountAndFlags.Increment (refcount r))
                          (tag r) (fields r)]> h,
         Some a).
Proof.
  intros H. unfold Ref.
  rewrite assert_true by (by apply bool_decide_eq_true). cbn [obind].
  by rewrite (deref_live _ _ _ H).
Qed.

Lemma store_live (h : gmap nat CordRep) a r f :
  h !! a = Some r -> store h a f = Ret (<[a := f r]> h).
Proof. intros H. unfold store. by rewrite (deref_live _ _ _ H). Qed.

Lemma Get_Increment c :
  0 <= c -> c + RefcountAndFlags.kRefIncrement < 2 ^ 31 ->
  RefcountAndFlags.Get (RefcountAndFlags.Increment c)
  = RefcountAndFlags.Get c + 1.
Proof.
  unfold RefcountAndFlags.Get, RefcountAndFlags.Increment,
    RefcountAndFlags.kRefIncrement, RefcountAndFlags.kNumFlags.
  change (Z.shiftl 1 1) with 2. intros H0 H1.
  unfold to_int32, to_signed. change (2 ^ (32 - 1)) with 2147483648.
  change (2 ^ 32) with 4294967296. change (2 ^ 31) with 2147483648 in H1.
  rewrite Z.mod_small by lia.
  replace (c + 2 + 2147483648 - 2147483648) with (c + 1 * 2) by lia.
  rewrite !Z.shiftr_div_pow2 by lia. change (2 ^ 1) with 2.
  rewrite Z.div_add by lia.
  assert (0 <= c / 2 < 1073741824).
  { split; [apply Z.div_pos; lia | apply Z.div_lt_upper_bound; lia]. }
  rewrite !to_size_t_small; unfold is_size_t; lia.
Qed.

(** C5.  A request for the full range of a live node ([pos = 0],
    [n = rep->length > 0]) returns [rep] itself; the only change to the
    heap is one [Increment] of its reference count, which adds one to
    [Get] unless the 32-bit counter overflows; no node is allocated. *)
Theorem Substring_full_range (ndebug : bool) (h : gmap nat CordRep)
    (fresh p : nat) (r : CordRep) :
  h !! p = Some r -> is_size_t (length r) -> 0 < length r ->
  let r' := mkCordRep (length r) (RefcountAndFlags.Increment (refcount r))
                      (tag r) (fields r) in
  Substring ndebug h fresh (Some p) 0 (length r) = Ret (<[p := r']> h, Some p)
  /\ dom (<[p := r']> h) = dom h
  /\ (0 <= refcount r ->
      refcount r + RefcountAndFlags.kRefIncrement < 2 ^ 31 ->
      RefcountAndFlags.Get (refcount r')
      = RefcountAndFlags.Get (refcount r) + 1).
Proof.
  intros Hp Hsz Hlen r'. split; [|split].
  - unfold Substring.
    rewrite assert_true by (by apply bool_decide_eq_true). cbn [obind].
    rewrite assert_true by (apply negb_true_iff, Z.eqb_neq; lia).
    cbn [obind]. rewrite (deref_live _ _ _ Hp). cbn [obind snd].
    rewrite assert_true by (apply Z.ltb_lt; lia). cbn [obind].
    rewrite Z.sub_0_r, to_size_t_small by done.
    rewrite assert_true by (apply Z.leb_le; lia). cbn [obind].
    rewrite Z.eqb_refl. by apply Ref_live.
  - apply dom_insert_lookup_L. by eexists.
  - intros. by apply Get_Increment.
Qed.

(** C4.  A proper sub-range of a substring node [s] over a flat or
    external child [c] is a new substring node whose child is [c], which is
    not a substring node, and whose start is [s.start + pos] (in [size_t]);
    [c] gains one reference. *)
Theorem Substring_of_substring (ndebug : bool) (h : gmap nat CordRep)
    (fresh p c : nat) (s cn : CordRep) (start pos n : Z) :
  h !! p = Some s -> tag s = SUBSTRING ->
  fields s = SubstringFields start (Some c) ->
  h !! c = Some cn -> IsExternal cn || IsFlat cn = true ->
  h !! fresh = None ->
  is_size_t pos -> is_size_t start -> is_size_t (length s) ->
  0 < n -> n < length s -> pos + n <= length s ->
  exists h',
    Substring ndebug h fresh (Some p) pos n = Ret (h', Some fresh) /\
    h' !! fresh
    = Some (mkCordRep n RefcountAndFlags.RefcountAndFlags_default SUBSTRING
              (SubstringFields (to_size_t (start + pos)) (Some c))) /\
    IsSubstring cn = false /\
    h' !! c
    = Some (mkCordRep (length cn)
              (RefcountAndFlags.Increment (refcount cn)) (tag cn)
              (fields cn)) /\
    (start + pos < 2 ^ 64 -> to_size_t (start + pos) = start + pos).
Proof.
  intros Hp Htag Hf Hc Hkind Hfresh Hpos Hstart Hlen Hn0 Hn Hpn.
  assert (fresh ≠ c) as Hfc by (intros ->; congruence).
  set (c' := mkCordRep (length cn) (RefcountAndFlags.Increment (refcount cn))
                       (tag cn) (fields cn)).
  set (sub := mkCordRep n RefcountAndFlags.RefcountAndFlags_default SUBSTRING
                (SubstringFields (to_size_t (start + pos)) (Some c))).
  exists (<[fresh := sub]> (<[c := c']> h)).
  split; [|split; [by rewrite lookup_insert_eq | split; [|split]]].
  - unfold Substring.
    rewrite assert_true by (by apply bool_decide_eq_true). cbn [obind].
    rewrite assert_true by (apply negb_true_iff, Z.eqb_neq; lia).
    cbn [obind]. rewrite (deref_live _ _ _ Hp). cbn [obind snd].
    rewrite assert_true by (apply Z.ltb_lt; unfold is_size_t in *; lia).
    cbn [obind].
    rewrite to_size_t_small by (unfold is_size_t in *; lia).
    rewrite assert_true by (apply Z.leb_le; lia). cbn [obind].
    assert ((n =? length s) = false) as -> by (apply Z.eqb_neq; lia).
    assert (IsSubstring s = true) as ->
      by (unfold IsSubstring; rewrite Htag; apply Z.eqb_refl).
    unfold substring.
    rewrite assert_true
      by (unfold IsSubstring; rewrite Htag; apply Z.eqb_refl).
    cbn [obind]. rewrite Hf. cbn [obind fst snd].
    unfold new_CordRepSubstring. rewrite Hfresh. cbn [obind].
    erewrite store_live by apply lookup_insert_eq. cbn [obind].
    erewrite store_live by apply lookup_insert_eq. cbn [obind].
    erewrite deref_live by apply lookup_insert_eq. cbn [obind snd].
    unfold set_start. cbn [fields obind].
    erewrite store_live by apply lookup_insert_eq. cbn [obind].
    rewrite !insert_insert_eq.
    erewrite Ref_live by (rewrite lookup_insert_ne by done; exact Hc).
    cbn [obind fst snd].
    erewrite deref_live
      by (rewrite lookup_insert_ne by done; apply lookup_insert_eq).
    cbn [obind snd]. unfold set_child. cbn [fields obind].
    erewrite store_live
      by (rewrite lookup_insert_ne by done; apply lookup_insert_eq).
    cbn [obind length refcount tag].
    do 2 f_equal.
    rewrite (insert_insert_ne _ c fresh) by done.
    rewrite insert_insert_eq.
    rewrite Z.add_comm. reflexivity.
  - unfold IsSubstring, IsExternal, IsFlat in *.
    apply Z.eqb_neq. intros E. rewrite E in Hkind. discriminate Hkind.
  - rewrite lookup_insert_ne by done. apply lookup_insert_eq.
  - intros Hlt. apply to_size_t_small. unfold is_size_t in *. lia.
Qed.

(** The example of the specification: a flat node of 20 bytes at
    address 1, its range [5, 15) at address 2, and the range [2, 5) of
    that range, allocated at address 3. *)
Lemma Substring_of_substring_witness :
  let flat := mkCordRep 20 RefcountAndFlags.RefcountAndFlags_default FLAT
                        NoFields in
  let flat' := mkCordRep 20 4 FLAT NoFields in
  let range := mkCordRep 10 RefcountAndFlags.RefcountAndFlags_default
                         SUBSTRING (SubstringFields 5 (Some 1%nat)) in
  let h := <[2%nat := range]> (<[1%nat := flat']> ∅) in
  Substring false (<[1%nat := flat]> ∅) 2 (Some 1%nat) 5 10
  = Ret (h, Some 2%nat) /\
  exists h',
    Substring false h 3 (Some 2%nat) 2 3 = Ret (h', Some 3%nat) /\
    h' !! 3%nat
    = Some (mkCordRep 3 RefcountAndFlags.RefcountAndFlags_default SUBSTRING
              (SubstringFields 7 (Some 1%nat))) /\
    IsSubstring flat' = false /\
    h' !! 1%nat = Some (mkCordRep 20 6 FLAT NoFields) /\
    (5 + 2 < 2 ^ 64 -> to_size_t (5 + 2) = 5 + 2).
Proof.
  cbv zeta. split; [vm_compute; reflexivity|].
  apply (Substring_of_substring false
           (<[2%nat := mkCordRep 10 RefcountAndFlags.RefcountAndFlags_default
                         SUBSTRING (SubstringFields 5 (Some 1%nat))]>
              (<[1%nat := mkCordRep 20 4 FLAT NoFields]> ∅))
           3 2 1
           (mkCordRep 10 RefcountAndFlags.RefcountAndFlags_default
                      SUBSTRING (SubstringFields 5 (Some 1%nat)))
           (mkCordRep 20 4 FLAT NoFields) 5 2 3).
  - vm_compute. reflexivity.
  - reflexivity.
  - reflexivity.
  - vm_compute. reflexivity.
  - reflexivity.
  - vm_compute. reflexivity.
  - unfold is_size_t. lia.
  - unfold is_size_t. lia.
  - unfold is_size_t. simpl. lia.
  - lia.
  - simpl. lia.
  - simpl. lia.
Defined.

Lemma Substring_full_range_witness :
  let flat := mkCordRep 20 RefcountAndFlags.RefcountAndFlags_default FLAT
                        NoFields in
  let h : gmap nat CordRep := <[1%nat := flat]> ∅ in
  let r' := mkCordRep 20 (RefcountAndFlags.Increment
                            RefcountAndFlags.RefcountAndFlags_default)
                      FLAT NoFields in
  Substring false h 2 (Some 1%nat) 0 20 = Ret (<[1%nat := r']> h, Some 1%nat)
  /\ dom (<[1%nat := r']> h) = dom h
  /\ (0 <= RefcountAndFlags.RefcountAndFlags_default ->
      RefcountAndFlags.RefcountAndFlags_default
      + RefcountAndFlags.kRefIncrement < 2 ^ 31 ->
      RefcountAndFlags.Get (refcount r')
      = RefcountAndFlags.Get RefcountAndFlags.RefcountAndFlags_default + 1).
Proof.
  apply (Substring_full_range false
           (<[1%nat := mkCordRep 20 RefcountAndFlags.RefcountAndFlags_default
                         FLAT NoFields]> ∅)
           2 1
           (mkCordRep 20 RefcountAndFlags.RefcountAndFlags_default FLAT
                      NoFields)).
  - vm_compute. reflexivity.
  - unfold is_size_t. simpl. lia.
  - simpl. lia.
Defined.

(** *** [Create], and [Substring] on any node *)

Lemma new_substring_node ndebug (h : gmap nat CordRep) (fresh : nat)
    (child : nat) cn (pos n : Z) (take_ref : bool) :
  h !! fresh = None -> h !! child = Some cn ->
  let h1 := if take_ref
            then <[child := mkCordRep (length cn)
                              (RefcountAndFlags.Increment (refcount cn))
                              (tag cn) (fields cn)]> h
            else h in
  (h <- new_CordRepSubstring h fresh ;;
   h <- store h fresh (fun r => mkCordRep n (refcount r) (tag r) (fields r)) ;;
   h <- store h fresh
          (fun r => mkCordRep (length r) (refcount r) SUBSTRING (fields r)) ;;
   ar <- deref h (Some fresh) ;;
   r <- set_start pos (snd ar) ;;
   h <- store h fresh (fun _ => r) ;;
   hc <- (if take_ref then Ref ndebug h (Some child)
          else Ret (h, Some child)) ;;
   ar <- deref (fst hc) (Some fresh) ;;
   r <- set_child (snd hc) (snd ar) ;;
   h <- store (fst hc) fresh (fun _ => r) ;;
   Ret (h, Some fresh))%outcome
  = Ret (<[fresh := mkCordRep n RefcountAndFlags.RefcountAndFlags_default
                      SUBSTRING (SubstringFields pos (Some child))]> h1,
         Some fresh).
Proof.
  intros Hfresh Hc h1.
  assert (fresh ≠ child) as Hfc by (intros ->; congruence).
  unfold new_CordRepSubstring. rewrite Hfresh. cbn [obind].
  erewrite store_live by apply lookup_insert_eq. cbn [obind].
  erewrite store_live by apply lookup_insert_eq. cbn [obind].
  erewrite deref_live by apply lookup_insert_eq. cbn [obind snd].
  unfold set_start. cbn [fields obind].
  erewrite store_live by apply lookup_insert_eq. cbn [obind].
  rewrite !insert_insert_eq. unfold h1. destruct take_ref.
  - erewrite Ref_live by (rewrite lookup_insert_ne by done; exact Hc).
    cbn [obind fst snd].
    erewrite deref_live
      by (rewrite lookup_insert_ne by done; apply lookup_insert_eq).
    cbn [obind snd]. unfold set_child. cbn [fields obind].
    erewrite store_live
      by (rewrite lookup_insert_ne by done; apply lookup_insert_eq).
    cbn [obind length refcount tag]. do 2 f_equal.
    rewrite (insert_insert_ne _ child fresh) by done.
    by rewrite insert_insert_eq.
  - cbn [obind fst snd].
    erewrite deref_live by apply lookup_insert_eq.
    cbn [obind snd]. unfold set_child. cbn [fields obind].
    erewrite store_live by apply lookup_insert_eq.
    cbn [obind length refcount tag]. by rewrite insert_insert_eq.
Qed.

Lemma Substring_asserts ndebug (h : gmap nat CordRep) (fresh p : nat)
    (r : CordRep) (pos n : Z) :
  h !! p = Some r -> is_size_t (length r) ->
  0 < n -> 0 <= pos -> pos + n <= length r ->
  Substring ndebug h fresh (Some p) pos n
  = (if n =? length r then Ref ndebug h (Some p)
     else
       pr <- (if IsSubstring r
              then
                s <- substring ndebug r ;;
                Ret (to_size_t (pos + fst s), snd s)
              else Ret (pos, Some p)) ;;
       let '(pos, rep) := pr in
       h <- new_CordRepSubstring h fresh ;;
       h <- store h fresh
              (fun r => mkCordRep n (refcount r) (tag r) (fields r)) ;;
       h <- store h fresh
              (fun r => mkCordRep (length r) (refcount r) SUBSTRING
                                  (fields r)) ;;
       ar <- deref h (Some fresh) ;;
       r <- set_start pos (snd ar) ;;
       h <- store h fresh (fun _ => r) ;;
       hc <- Ref ndebug h rep ;;
       ar <- deref (fst hc) (Some fresh) ;;
       r <- set_child (snd hc) (snd ar) ;;
       h <- store (fst hc) fresh (fun _ => r) ;;
       Ret (h, Some fresh))%outcome.
Proof.
  intros Hp Hlen Hn Hpos Hpn. unfold Substring.
  rewrite assert_true by (by apply bool_decide_eq_true). cbn [obind].
  rewrite assert_true by (apply negb_true_iff, Z.eqb_neq; lia).
  cbn [obind]. rewrite (deref_live _ _ _ Hp). cbn [obind snd].
  rewrite assert_true by (apply Z.ltb_lt; lia). cbn [obind].
  rewrite to_size_t_small by (unfold is_size_t in *; lia).
  rewrite assert_true by (apply Z.leb_le; lia). cbn [obind].
  reflexivity.
Qed.

(** [Substring] on a node that is not a substring node, for a proper
    sub-range. *)
Lemma Substring_of_node ndebug (h : gmap nat CordRep) (fresh p : nat)
    (r : CordRep) (pos n : Z) :
  h !! p = Some r -> h !! fresh = None -> IsSubstring r = false ->
  is_size_t (length r) -> 0 < n -> 0 <= pos -> pos + n <= length r ->
  n <> length r ->
  Substring ndebug h fresh (Some p) pos n
  = Ret (<[fresh := mkCordRep n RefcountAndFlags.RefcountAndFlags_default
                      SUBSTRING (SubstringFields pos (Some p))]>
           (<[p := mkCordRep (length r)
                     (RefcountAndFlags.Increment (refcount r))
                     (tag r) (fields r)]> h),
         Some fresh).
Proof.
  intros Hp Hfresh Hsub Hlen Hn Hpos Hpn Hne.
  rewrite (Substring_asserts _ _ _ _ r) by done.
  apply Z.eqb_neq in Hne. rewrite Hne, Hsub. cbn [obind].
  exact (new_substring_node ndebug h fresh p r pos n true Hfresh Hp).
Qed.

(** [Substring] on a substring node, for a proper sub-range. *)
Lemma Substring_of_range ndebug (h : gmap nat CordRep) (fresh p c : nat)
    (s cn : CordRep) (start pos n : Z) :
  h !! p = Some s -> h !! fresh = None -> IsSubstring s = true ->
  fields s = SubstringFields start (Some c) -> h !! c = Some cn ->
  is_size_t (length s) -> 0 < n -> 0 <= pos -> pos + n <= length s ->
  n <> length s ->
  Substring ndebug h fresh (Some p) pos n
  = Ret (<[fresh := mkCordRep n RefcountAndFlags.RefcountAndFlags_default
                      SUBSTRING
                      (SubstringFields (to_size_t (pos + start)) (Some c))]>
           (<[c := mkCordRep (length cn)
                     (RefcountAndFlags.Increment (refcount cn))
                     (tag cn) (fields cn)]> h),
         Some fresh).
Proof.
  intros Hp Hfresh Hsub Hf Hc Hlen Hn Hpos Hpn Hne.
  rewrite (Substring_asserts _ _ _ _ s) by done.
  apply Z.eqb_neq in Hne. rewrite Hne, Hsub. unfold substring.
  rewrite assert_true by done. cbn [obind]. rewrite Hf. cbn [obind fst snd].
  exact (new_substring_node ndebug h fresh c cn _ n true Hfresh Hc).
Qed.

Lemma Create_asserts ndebug (h : gmap nat CordRep) (fresh c : nat)
    (cn : CordRep) (pos n : Z) :
  h !! c = Some cn -> is_size_t (length cn) ->
  0 < n -> 0 <= pos -> pos + n <= length cn -> n < length cn ->
  Create ndebug h fresh (Some c) pos n
  = ((if negb (IsExternal cn || IsFlat cn)
      then LogFatalNodeType (Some c)
      else Ret tt) ;;;
     h <- new_CordRepSubstring h fresh ;;
     h <- store h fresh
            (fun r => mkCordRep n (refcount r) (tag r) (fields r)) ;;
     h <- store h fresh
            (fun r => mkCordRep (length r) (refcount r) SUBSTRING
                                (fields r)) ;;
     ar <- deref h (Some fresh) ;;
     r <- set_start pos (snd ar) ;;
     h <- store h fresh (fun _ => r) ;;
     ar <- deref h (Some fresh) ;;
     r <- set_child (Some c) (snd ar) ;;
     h <- store h fresh (fun _ => r) ;;
     Ret (h, Some fresh))%outcome.
Proof.
  intros Hc Hlen Hn Hpos Hpn Hlt. unfold Create.
  rewrite assert_true by (by apply bool_decide_eq_true). cbn [obind].
  rewrite assert_true by (apply Z.ltb_lt; lia).
  cbn [obind]. rewrite (deref_live _ _ _ Hc). cbn [obind snd].
  rewrite assert_true by (apply Z.ltb_lt; lia). cbn [obind].
  rewrite assert_true by (apply Z.ltb_lt; lia). cbn [obind].
  rewrite to_size_t_small by (unfold is_size_t in *; lia).
  rewrite assert_true by (apply Z.leb_le; lia). cbn [obind].
  reflexivity.
Qed.

(** X15.  On a flat or external child and a proper sub-range, [Create]
    and [Substring] allocate the same node: length [n], tag [SUBSTRING],
    start [pos], the child itself, one reference.  [Create] leaves the
    rest of the heap as it is, so the node takes over a reference the
    caller holds; [Substring] adds a reference to the child. *)
Theorem Create_and_Substring_of_flat (ndebug : bool) (h : gmap nat CordRep)
    (fresh c : nat) (cn : CordRep) (pos n : Z) :
  h !! c = Some cn -> h !! fresh = None ->
  IsExternal cn || IsFlat cn = true ->
  is_size_t (length cn) -> 0 < n -> 0 <= pos -> pos + n <= length cn ->
  n < length cn ->
  let node := mkCordRep n RefcountAndFlags.RefcountAndFlags_default
                SUBSTRING (SubstringFields pos (Some c)) in
  let cn' := mkCordRep (length cn)
               (RefcountAndFlags.Increment (refcount cn))
               (tag cn) (fields cn) in
  Create ndebug h fresh (Some c) pos n = Ret (<[fresh := node]> h, Some fresh)
  /\ Substring ndebug h fresh (Some c) pos n
     = Ret (<[fresh := node]> (<[c := cn']> h), Some fresh)
  /\ RefcountAndFlags.IsOne (refcount node) = true.
Proof.
  intros Hc Hfresh Hkind Hlen Hn Hpos Hpn Hlt node cn'.
  split; [|split; [|reflexivity]].
  - rewrite (Create_asserts _ _ _ _ cn) by done. rewrite Hkind.
    cbn [negb obind].
    exact (new_substring_node ndebug h fresh c cn pos n false Hfresh Hc).
  - apply Substring_of_node; try done; [|lia].
    unfold IsSubstring, IsExternal, IsFlat in *.
    apply Z.eqb_neq. intros E. rewrite E in Hkind. discriminate Hkind.
Qed.

Lemma Create_and_Substring_of_flat_witness :
  let cn := mkCordRep 20 RefcountAndFlags.RefcountAndFlags_default FLAT
                      NoFields in
  let h : gmap nat CordRep := <[1%nat := cn]> ∅ in
  let node := mkCordRep 10 RefcountAndFlags.RefcountAndFlags_default
                SUBSTRING (SubstringFields 5 (Some 1%nat)) in
  let cn' := mkCordRep 20 (RefcountAndFlags.Increment
                             RefcountAndFlags.RefcountAndFlags_default)
                       FLAT NoFields in
  Create false h 2 (Some 1%nat) 5 10 = Ret (<[2%nat := node]> h, Some 2%nat)
  /\ Substring false h 2 (Some 1%nat) 5 10
     = Ret (<[2%nat := node]> (<[1%nat := cn']> h), Some 2%nat)
  /\ RefcountAndFlags.IsOne (refcount node) = true.
Proof.
  apply (Create_and_Substring_of_flat false
           (<[1%nat := mkCordRep 20 RefcountAndFlags.RefcountAndFlags_default
                         FLAT NoFields]> ∅)
           2 1
           (mkCordRep 20 RefcountAndFlags.RefcountAndFlags_default FLAT
                      NoFields) 5 10).
  - vm_compute. reflexivity.
  - vm_compute. reflexivity.
  - reflexivity.
  - unfold is_size_t. simpl. lia.
  - lia.
  - lia.
  - simpl. lia.
  - simpl. lia.
Defined.

(** X16.  [Create] accepts flat and external children only: on a live
    child of any other kind (a substring, btree or crc node) it ends in
    [LogFatalNodeType], also in a build with [NDEBUG], and allocates
    nothing. *)
Theorem Create_rejects_other_nodes (ndebug : bool) (h : gmap nat CordRep)
    (fresh c : nat) (cn : CordRep) (pos n : Z) :
  h !! c = Some cn -> IsExternal cn || IsFlat cn = false ->
  is_size_t (length cn) -> 0 < n -> 0 <= pos -> pos + n <= length cn ->
  n < length cn ->
  Create ndebug h fresh (Some c) pos n = Abort.
Proof.
  intros Hc Hkind Hlen Hn Hpos Hpn Hlt.
  rewrite (Create_asserts _ _ _ _ cn) by done. by rewrite Hkind.
Qed.

Lemma Create_rejects_other_nodes_witness :
  Create true
    (<[2%nat := mkCordRep 10 RefcountAndFlags.RefcountAndFlags_default
                  SUBSTRING (SubstringFields 5 (Some 1%nat))]>
       (<[1%nat := mkCordRep 20 4 FLAT NoFields]> ∅))
    3 (Some 2%nat) 2 3
  = Abort.
Proof.
  apply (Create_rejects_other_nodes true
           (<[2%nat := mkCordRep 10 RefcountAndFlags.RefcountAndFlags_default
                         SUBSTRING (SubstringFields 5 (Some 1%nat))]>
              (<[1%nat := mkCordRep 20 4 FLAT NoFields]> ∅))
           3 2
           (mkCordRep 10 RefcountAndFlags.RefcountAndFlags_default
                      SUBSTRING (SubstringFields 5 (Some 1%nat))) 2 3).
  - vm_compute. reflexivity.
  - reflexivity.
  - unfold is_size_t. simpl. lia.
  - lia.
  - lia.
  - simpl. lia.
  - simpl. lia.
Defined.

(** *** Heaps of well-formed substring nodes *)

Lemma substring_ok_mono (h h' : gmap nat CordRep) (s : CordRep) :
  (forall a r, h !! a = Some r ->
     exists r', h' !! a = Some r' /\ length r' = length r /\
                tag r' = tag r) ->
  substring_ok h s -> substring_ok h' s.
Proof.
  intros Hk (start & c & cn & Hf & Hc & Hns & H0 & Hl & Hb).
  destruct (Hk c cn Hc) as (cn' & Hc' & El & Et).
  exists start, c, cn'. unfold IsSubstring in *. rewrite Et, El. done.
Qed.

Lemma well_formed_Ref (h : gmap nat CordRep) (p : nat) (r : CordRep) c :
  well_formed h -> h !! p = Some r ->
  well_formed (<[p := mkCordRep (length r) c (tag r) (fields r)]> h).
Proof.
  intros Hwf Hp.
  assert (forall a ra, h !! a = Some ra ->
            exists ra', <[p := mkCordRep (length r) c (tag r) (fields r)]> h
                        !! a = Some ra' /\
                        length ra' = length ra /\ tag ra' = tag ra) as Hk.
  { intros a ra Ha. destruct (decide (a = p)) as [-> | Hne].
    - rewrite lookup_insert_eq. eexists. split; [done|].
      rewrite Hp in Ha. by injection Ha as <-.
    - rewrite lookup_insert_ne by done. by exists ra. }
  intros a ra Ha. destruct (decide (a = p)) as [-> | Hne].
  - rewrite lookup_insert_eq in Ha. injection Ha as <-.
    destruct (Hwf p r Hp) as [Hlen Hsub]. split; [exact Hlen|].
    intros Hs. apply (substring_ok_mono h); [exact Hk|].
    destruct (Hsub Hs) as (start & c0 & cn & ?). by exists start, c0, cn.
  - rewrite lookup_insert_ne in Ha by done.
    destruct (Hwf a ra Ha) as [Hlen Hsub]. split; [exact Hlen|].
    intros Hs. apply (substring_ok_mono h); [exact Hk | by apply Hsub].
Qed.

Lemma well_formed_new (h : gmap nat CordRep) (fresh c : nat)
    (cn : CordRep) (start n rc : Z) :
  well_formed h -> h !! fresh = None -> h !! c = Some cn ->
  IsSubstring cn = false -> 0 <= start -> 0 < n -> start + n <= length cn ->
  well_formed (<[fresh := mkCordRep n rc SUBSTRING
                            (SubstringFields start (Some c))]> h).
Proof.
  intros Hwf Hfresh Hc Hns H0 Hn Hb.
  assert (fresh ≠ c) as Hfc by (intros ->; congruence).
  assert (forall a ra, h !! a = Some ra ->
            exists ra', <[fresh := mkCordRep n rc SUBSTRING
                                     (SubstringFields start (Some c))]> h
                        !! a = Some ra' /\
                        length ra' = length ra /\ tag ra' = tag ra) as Hk.
  { intros a ra Ha. exists ra. split; [|done].
    rewrite lookup_insert_ne; [done | intros ->; congruence]. }
  intros a ra Ha. destruct (decide (a = fresh)) as [-> | Hne].
  - rewrite lookup_insert_eq in Ha. injection Ha as <-. cbn [length].
    split.
    { destruct (Hwf c cn Hc) as [Hlen _]. unfold is_size_t in *. lia. }
    intros _. exists start, c, cn. cbn [fields length].
    by rewrite lookup_insert_ne.
  - rewrite lookup_insert_ne in Ha by done.
    destruct (Hwf a ra Ha) as [Hlen Hsub]. split; [exact Hlen|].
    intros Hs. apply (substring_ok_mono h); [exact Hk | by apply Hsub].
Qed.

(** X17.  On a well-formed heap, [Substring(rep, pos, n)] with
    [0 < n] and [pos + n <= rep->length] returns a live node that
    stands for the bytes [pos, pos + n) of what [rep] stands for, the
    heap stays well-formed (so substring nodes are never nested and
    never reach outside their child), and the nodes that were there
    keep their length, tag and fields: only reference counts change. *)
Theorem Substring_denotes_sub_range (ndebug : bool) (h : gmap nat CordRep)
    (fresh p : nat) (r : CordRep) (pos n : Z) :
  well_formed h -> h !! p = Some r -> h !! fresh = None ->
  0 < n -> 0 <= pos -> pos + n <= length r ->
  exists h' q base start,
    Substring ndebug h fresh (Some p) pos n = Ret (h', Some q) /\
    well_formed h' /\
    range_of h p = Some (base, start, length r) /\
    range_of h' q = Some (base, start + pos, n) /\
    (forall a ra, h !! a = Some ra ->
       exists ra', h' !! a = Some ra' /\ length ra' = length ra /\
                   tag ra' = tag ra /\ fields ra' = fields ra).
Proof.
  intros Hwf Hp Hfresh Hn Hpos Hpn.
  destruct (Hwf p r Hp) as [Hlen Hsub].
  assert (forall (h0 : gmap nat CordRep) k (x x' : CordRep),
            h0 !! k = Some x -> length x' = length x -> tag x' = tag x ->
            fields x' = fields x ->
            forall a ra, h0 !! a = Some ra ->
              exists ra', <[k := x']> h0 !! a = Some ra' /\
                          length ra' = length ra /\ tag ra' = tag ra /\
                          fields ra' = fields ra) as Hkeep.
  { intros h0 k x x' Hx El Et Ef a ra Ha.
    destruct (decide (a = k)) as [-> | Hne].
    - rewrite lookup_insert_eq. exists x'. rewrite Hx in Ha.
      by injection Ha as <-.
    - rewrite lookup_insert_ne by done. by exists ra. }
  assert (forall (h0 : gmap nat CordRep) x,
            h0 !! fresh = None ->
            forall a ra, h0 !! a = Some ra ->
              <[fresh := x]> h0 !! a = Some ra) as Hfr.
  { intros h0 x H0 a ra Ha.
    rewrite lookup_insert_ne; [done | intros ->; congruence]. }
  destruct (Z.eq_dec n (length r)) as [En | Hne].
  - (* the whole of [rep] *)
    assert (pos = 0) as -> by lia.
    set (r' := mkCordRep (length r)
                 (RefcountAndFlags.Increment (refcount r)) (tag r) (fields r)).
    assert (exists base start, range_of h p = Some (base, start, length r) /\
              range_of (<[p := r']> h) p = Some (base, start + 0, n))
      as (base & start & Hr1 & Hr2).
    { subst r'. unfold range_of. rewrite Hp, lookup_insert_eq.
      unfold IsSubstring in *. cbn [tag fields length].
      destruct (tag r =? SUBSTRING) eqn:Es.
      - destruct (Hsub eq_refl) as (start & c & cn & -> & _).
        exists c, start. by rewrite Z.add_0_r, En.
      - exists p, 0. by rewrite En. }
    exists (<[p := r']> h), p, base, start.
    split.
    { rewrite (Substring_asserts _ _ _ _ r) by (done || lia).
      rewrite En, Z.eqb_refl. by apply Ref_live. }
    split; [by apply well_formed_Ref|].
    split; [exact Hr1|]. split; [exact Hr2|].
    by apply (Hkeep h p r r').
  - destruct (IsSubstring r) eqn:Es.
    + (* a range of a range: the new node is a range of the child *)
      destruct (Hsub eq_refl) as (start & c & cn & Hf & Hc & Hns & H0 & _ & Hb).
      destruct (Hwf c cn Hc) as [Hclen _].
      assert (fresh ≠ c) as Hfc by (intros ->; congruence).
      set (cn' := mkCordRep (length cn)
                    (RefcountAndFlags.Increment (refcount cn))
                    (tag cn) (fields cn)).
      assert (to_size_t (pos + start) = start + pos) as Eadd.
      { rewrite to_size_t_small; [lia|]. unfold is_size_t in *. lia. }
      eexists _, fresh, c, start. split.
      { rewrite (Substring_of_range ndebug h fresh p c r cn start)
          by done.
        rewrite Eadd. reflexivity. }
      split.
      { apply (well_formed_new _ _ _ cn');
          [ by apply well_formed_Ref
          | rewrite lookup_insert_ne by done; exact Hfresh
          | apply lookup_insert_eq
          | exact Hns
          | lia | lia | unfold cn'; cbn [length]; lia ]. }
      split; [unfold range_of; by rewrite Hp, Es, Hf|].
      split; [unfold range_of; by rewrite lookup_insert_eq|].
      intros a ra Ha.
      destruct (Hkeep h c cn cn' Hc eq_refl eq_refl eq_refl a ra Ha)
        as (ra' & Ha' & ?).
      exists ra'. split; [|done]. apply Hfr; [|exact Ha'].
      rewrite lookup_insert_ne by done. exact Hfresh.
    + (* a range of a node that holds its bytes itself *)
      assert (fresh ≠ p) as Hfp by (intros ->; congruence).
      set (r' := mkCordRep (length r)
                   (RefcountAndFlags.Increment (refcount r))
                   (tag r) (fields r)).
      eexists _, fresh, p, 0. split.
      { by rewrite (Substring_of_node ndebug h fresh p r) by done. }
      split.
      { apply (well_formed_new _ _ _ r');
          [ by apply well_formed_Ref
          | rewrite lookup_insert_ne by done; exact Hfresh
          | apply lookup_insert_eq
          | exact Es
          | lia | lia | unfold r'; cbn [length]; lia ]. }
      split; [unfold range_of; by rewrite Hp, Es|].
      split; [unfold range_of; by rewrite lookup_insert_eq|].
      intros a ra Ha.
      destruct (Hkeep h p r r' Hp eq_refl eq_refl eq_refl a ra Ha)
        as (ra' & Ha' & ?).
      exists ra'. split; [|done]. apply Hfr; [|exact Ha'].
      rewrite lookup_insert_ne by done. exact Hfresh.
Qed.

Lemma well_formed_example :
  well_formed
    (<[2%nat := mkCordRep 10 RefcountAndFlags.RefcountAndFlags_default
                  SUBSTRING (SubstringFields 5 (Some 1%nat))]>
       (<[1%nat := mkCordRep 20 4 FLAT NoFields]> ∅)).
Proof.
  intros a r Ha.
  destruct (decide (a = 2%nat)) as [-> | N2].
  - rewrite lookup_insert_eq in Ha. injection Ha as <-.
    split; [unfold is_size_t; simpl; lia|]. intros _.
    exists 5, 1%nat, (mkCordRep 20 4 FLAT NoFields).
    repeat split; try done; simpl; lia.
  - rewrite lookup_insert_ne in Ha by done.
    destruct (decide (a = 1%nat)) as [-> | N1].
    + rewrite lookup_insert_eq in Ha. injection Ha as <-.
      split; [unfold is_size_t; simpl; lia | discriminate].
    + rewrite lookup_insert_ne in Ha by done. by rewrite lookup_empty in Ha.
Qed.

Lemma Substring_denotes_sub_range_witness :
  let range := mkCordRep 10 RefcountAndFlags.RefcountAndFlags_default
                         SUBSTRING (SubstringFields 5 (Some 1%nat)) in
  let h : gmap nat CordRep :=
    <[2%nat := range]> (<[1%nat := mkCordRep 20 4 FLAT NoFields]> ∅) in
  exists h' q base start,
    Substring false h 3 (Some 2%nat) 2 3 = Ret (h', Some q) /\
    well_formed h' /\
    range_of h 2 = Some (base, start, length range) /\
    range_of h' q = Some (base, start + 2, 3) /\
    (forall a ra, h !! a = Some ra ->
       exists ra', h' !! a = Some ra' /\ length ra' = length ra /\
                   tag ra' = tag ra /\ fields ra' = fields ra).
Proof.
  apply (Substring_denotes_sub_range false
           (<[2%nat := mkCordRep 10 RefcountAndFlags.RefcountAndFlags_default
                         SUBSTRING (SubstringFields 5 (Some 1%nat))]>
              (<[1%nat := mkCordRep 20 4 FLAT NoFields]> ∅))
           3 2
           (mkCordRep 10 RefcountAndFlags.RefcountAndFlags_default
                      SUBSTRING (SubstringFields 5 (Some 1%nat))) 2 3).
  - exact well_formed_example.
  - vm_compute. reflexivity.
  - vm_compute. reflexivity.
  - lia.
  - lia.
  - simpl. lia.
Defined.

(** *** [Ref] and [Unref] *)

Section WithDestroy.
Variable Destroy
  : gmap nat CordRep -> option nat -> outcome (gmap nat CordRep).

Lemma Unref_live ndebug (h : gmap nat CordRep) (p : nat) (r : CordRep) b c :
  h !! p = Some r ->
  RefcountAndFlags.DecrementExpectHighRefcount ndebug (refcount r)
  = Ret (b, c) ->
  Unref ndebug Destroy h (Some p)
  = let h' := <[p := mkCordRep (length r) c (tag r) (fields r)]> h in
    if b then Ret h' else Destroy h' (Some p).
Proof.
  intros Hp Hd. unfold Unref.
  rewrite assert_true by (by apply bool_decide_eq_true). cbn [obind].
  rewrite (deref_live _ _ _ Hp). cbn [obind]. rewrite Hd. cbn [obind fst snd].
  by destruct b.
Qed.

(** X18.  [Ref] followed by [Unref] on a live node whose count is not
    zero gives back the heap as it was, and [Destroy] is not called:
    the result does not depend on it. *)
Theorem Ref_then_Unref (ndebug : bool) (h : gmap nat CordRep) (p : nat)
    (r : CordRep) :
  h !! p = Some r -> is_int32 (refcount r) -> refcount r <> 0 ->
  RefcountAndFlags.IsImmortal (refcount r) = true \/
  (0 <= refcount r /\
   refcount r + RefcountAndFlags.kRefIncrement < 2 ^ 31) ->
  exists h',
    Ref ndebug h (Some p) = Ret (h', Some p) /\
    Unref ndebug Destroy h' (Some p) = Ret h.
Proof.
  intros Hp Hc Hne Hlive. eexists. split; [by apply Ref_live|].
  erewrite Unref_live;
    [| apply lookup_insert_eq
     | cbn [refcount];
       by apply DecrementExpectHighRefcount_Increment ].
  apply Z.eqb_neq in Hne. rewrite Hne. cbn [negb length tag fields].
  rewrite insert_insert_eq. f_equal. apply insert_id.
  rewrite Hp. by destruct r.
Qed.

(** X19.  [Unref] on a live node calls [Destroy] exactly when the node
    held one reference and is not immortal; [Destroy] then sees the
    node with a count of zero.  Otherwise the count goes down by one
    reference, the node stays, and [Destroy] is not called. *)
Theorem Unref_destroys_last_reference (ndebug : bool)
    (h : gmap nat CordRep) (p : nat) (r : CordRep) :
  h !! p = Some r -> is_int32 (refcount r) ->
  0 < refcount r \/ RefcountAndFlags.IsImmortal (refcount r) = true ->
  Unref ndebug Destroy h (Some p)
  = (if RefcountAndFlags.IsOne (refcount r)
     then Destroy (<[p := mkCordRep (length r) 0 (tag r) (fields r)]> h)
                  (Some p)
     else Ret (<[p := mkCordRep (length r)
                        (to_int32
                           (refcount r - RefcountAndFlags.kRefIncrement))
                        (tag r) (fields r)]> h)) /\
  (RefcountAndFlags.IsOne (refcount r) = true <->
   RefcountAndFlags.Get (refcount r) = 1 /\
   RefcountAndFlags.IsImmortal (refcount r) = false).
Proof.
  intros Hp Hc Hlive. split.
  - erewrite Unref_live; [| exact Hp |].
    2: { unfold RefcountAndFlags.DecrementExpectHighRefcount.
         rewrite assert_true; [reflexivity|].
         destruct Hlive as [H0 | Hi].
         - apply Z.ltb_lt in H0. by rewrite H0.
         - unfold RefcountAndFlags.IsImmortal in Hi. rewrite Hi.
           apply orb_true_r. }
    cbv zeta. unfold RefcountAndFlags.IsOne.
    destruct (Z.eqb_spec (refcount r) RefcountAndFlags.kRefIncrement)
      as [E | N]; cbn [negb]; [|reflexivity].
    by rewrite E.
  - rewrite <- one_live_reference by done.
    unfold RefcountAndFlags.IsOne. apply Z.eqb_eq.
Qed.
End WithDestroy.

Lemma Ref_then_Unref_witness :
  let r := mkCordRep 20 RefcountAndFlags.RefcountAndFlags_default FLAT
                     NoFields in
  let h : gmap nat CordRep := <[1%nat := r]> ∅ in
  exists h',
    Ref false h (Some 1%nat) = Ret (h', Some 1%nat) /\
    Unref false (fun _ _ => Undefined) h' (Some 1%nat) = Ret h.
Proof.
  apply (Ref_then_Unref (fun _ _ => Undefined) false
           (<[1%nat := mkCordRep 20 RefcountAndFlags.RefcountAndFlags_default
                         FLAT NoFields]> ∅)
           1
           (mkCordRep 20 RefcountAndFlags.RefcountAndFlags_default FLAT
                      NoFields)).
  - vm_compute. reflexivity.
  - unfold is_int32. vm_compute. split; [discriminate | reflexivity].
  - discriminate.
  - right. vm_compute. split; [discriminate | reflexivity].
Defined.

Lemma Unref_destroys_last_reference_witness :
  let r := mkCordRep 20 RefcountAndFlags.RefcountAndFlags_default FLAT
                     NoFields in
  let h : gmap nat CordRep := <[1%nat := r]> ∅ in
  let Destroy := fun (h : gmap nat CordRep) (rep : option nat) =>
                   match rep with
                   | Some a => Ret (delete a h)
                   | None => Undefined
                   end in
  Unref false Destroy h (Some 1%nat)
  = (if RefcountAndFlags.IsOne (refcount r)
     then Destroy (<[1%nat := mkCordRep (length r) 0 (tag r) (fields r)]> h)
                  (Some 1%nat)
     else Ret (<[1%nat := mkCordRep (length r)
                        (to_int32
                           (refcount r - RefcountAndFlags.kRefIncrement))
                        (tag r) (fields r)]> h)) /\
  (RefcountAndFlags.IsOne (refcount r) = true <->
   RefcountAndFlags.Get (refcount r) = 1 /\
   RefcountAndFlags.IsImmortal (refcount r) = false).
Proof.
  apply (Unref_destroys_last_reference
           (fun (h : gmap nat CordRep) (rep : option nat) =>
              match rep with
              | Some a => Ret (delete a h)
              | None => Undefined
              end)
           false
           (<[1%nat := mkCordRep 20 RefcountAndFlags.RefcountAndFlags_default
                         FLAT NoFields]> ∅)
           1
           (mkCordRep 20 RefcountAndFlags.RefcountAndFlags_default FLAT
                      NoFields)).
  - vm_compute. reflexivity.
  - unfold is_int32. vm_compute. split; [discriminate | reflexivity].
  - left. reflexivity.
Defined.

End Sub.

(** ** Allocation of flat nodes *)

Section FlatNew.
Import CordRep CordRepFlat FlatAlloc.
Local Open Scope Z_scope.

Lemma representable_tag ndebug s :
  representable s ->
  exists t, FLAT <= t <= MAX_FLAT_TAG /\
            AllocatedSizeToTag ndebug s = Ret t /\
            TagToAllocatedSize t = s.
Proof.
  intros Hr. destruct (band_of_representable s Hr) as [t Hb].
  destruct (band_spec _ _ Hb) as (Ht & _ & Hsz & _ & Htag).
  exists t. split; [exact Ht|]. split; [|exact Hsz].
  apply AllocatedSizeToTag_checked; [exact Htag | lia].
Qed.

(** What [NewImpl] allocates: the request is clamped, the overhead added
    and the sum rounded up. *)
Lemma NewImpl_size max_flat_size len :
  representable max_flat_size -> is_size_t len ->
  let clamped :=
    if len <=? kMinFlatLength then kMinFlatLength
    else if to_size_t (max_flat_size - kFlatOverhead) <? len
         then to_size_t (max_flat_size - kFlatOverhead)
         else len in
  let size := RoundUpForTag (to_size_t (clamped + kFlatOverhead)) in
  representable size /\ size <= max_flat_size /\
  clamped + kFlatOverhead <= size /\
  kMinFlatLength <= clamped /\
  Z.min len (max_flat_size - kFlatOverhead) <= clamped.
Proof.
  intros Hmax Hlen clamped size.
  assert (kMinFlatSize <= max_flat_size <= kMaxLargeFlatSize) as Hm.
  { unfold representable, kMinFlatSize, kMaxLargeFlatSize in *. lia. }
  change kMinFlatLength with 19 in *. change kFlatOverhead with 13 in *.
  unfold kMinFlatSize, kMaxLargeFlatSize, is_size_t in *.
  change (2 ^ 64) with 18446744073709551616 in *.
  assert (to_size_t (max_flat_size - 13) = max_flat_size - 13) as Em.
  { apply to_size_t_small. unfold is_size_t.
    change (2 ^ 64) with 18446744073709551616. lia. }
  assert (19 <= clamped <= max_flat_size - 13 /\
          Z.min len (max_flat_size - 13) <= clamped) as [Hc Hreq].
  { unfold clamped. rewrite Em.
    destruct (Z.leb_spec len 19); [lia|].
    destruct (Z.ltb_spec (max_flat_size - 13) len); lia. }
  clearbody clamped.
  assert (to_size_t (clamped + 13) = clamped + 13) as Ec.
  { apply to_size_t_small. unfold is_size_t.
    change (2 ^ 64) with 18446744073709551616. lia. }
  unfold size. rewrite Ec.
  destruct (RoundUpForTag_least (clamped + 13)) as (Hr & Hle & Hleast);
    [unfold kMinFlatSize, kMaxLargeFlatSize; lia|].
  split; [exact Hr|]. split; [apply Hleast; [exact Hmax | lia]|].
  split; [exact Hle|]. split; [lia | exact Hreq].
Qed.

Lemma NewImpl_block ndebug max_flat_size (h : gmap nat block) fresh len :
  representable max_flat_size -> is_size_t len -> h !! fresh = None ->
  exists b,
    NewImpl ndebug max_flat_size h fresh len = Ret (<[fresh := b]> h, fresh) /\
    length (header b) = 0 /\
    refcount (header b) = RefcountAndFlags.RefcountAndFlags_default /\
    FLAT <= tag (header b) <= MAX_FLAT_TAG /\
    AllocatedSize b = allocated b /\
    kMinFlatSize <= allocated b <= max_flat_size /\
    Capacity b = Z.of_nat (Datatypes.length (storage b)) /\
    Capacity b = allocated b - kFlatOverhead /\
    kMinFlatLength <= Capacity b /\
    Z.min len (max_flat_size - kFlatOverhead) <= Capacity b.
Proof.
  intros Hmax Hlen Hfresh.
  destruct (NewImpl_size max_flat_size len Hmax Hlen)
    as (Hr & Hle & Hge & Hmin & Hreq).
  unfold NewImpl. rewrite Hfresh.
  set (clamped := if len <=? kMinFlatLength then _ else _) in *.
  set (size := RoundUpForTag (to_size_t (clamped + kFlatOverhead))) in *.
  clearbody size clamped.
  destruct (representable_tag ndebug size Hr) as (t & Ht & Htag & Hsz).
  rewrite Htag. cbn [obind]. eexists. split; [reflexivity|].
  unfold AllocatedSize, Capacity, TagToLength.
  cbn [header allocated storage length refcount tag].
  rewrite Hsz.
  assert (kMinFlatSize <= size) as Hlo.
  { unfold representable, kMinFlatSize in *. lia. }
  change kMinFlatLength with 19 in *. change kFlatOverhead with 13 in *.
  unfold kMinFlatSize in *.
  assert (to_size_t (size - 13) = size - 13) as ->.
  { apply to_size_t_small. unfold is_size_t, representable,
      kMaxLargeFlatSize in *.
    change (2 ^ 64) with 18446744073709551616. lia. }
  repeat split; try lia.
  rewrite length_app, !length_replicate. lia.
Qed.

(** X7.  [New] and [New(Large, len)] allocate a node whose tag encodes
    exactly the size that was allocated, between [kMinFlatSize] and the
    maximum of the variant, so that [Delete] frees it with the size it was
    allocated with; its capacity covers the request, or is the maximum
    when the request is larger; it has one reference and length zero. *)
Theorem New_then_Delete (ndebug sized large : bool) (h : gmap nat block)
    (fresh : nat) (len : Z) :
  is_size_t len -> h !! fresh = None ->
  let max_flat_size := if large then kMaxLargeFlatSize else kMaxFlatSize in
  exists b,
    (if large then New_Large ndebug h fresh len else New ndebug h fresh len)
    = Ret (<[fresh := b]> h, fresh) /\
    length (header b) = 0 /\
    RefcountAndFlags.Get (refcount (header b)) = 1 /\
    FLAT <= tag (header b) <= MAX_FLAT_TAG /\
    AllocatedSize b = allocated b /\
    kMinFlatSize <= allocated b <= max_flat_size /\
    Capacity b = allocated b - kFlatOverhead /\
    kMinFlatLength <= Capacity b /\
    Z.min len (max_flat_size - kFlatOverhead) <= Capacity b /\
    Delete ndebug sized (<[fresh := b]> h) (Some fresh) = Ret h.
Proof.
  intros Hlen Hfresh max_flat_size.
  assert (representable max_flat_size) as Hmax.
  { unfold max_flat_size, representable, kMinFlatSize, kMaxLargeFlatSize,
      kMaxFlatSize. destruct large.
    - right; right. split; [lia | reflexivity].
    - right; left. split; [lia | reflexivity]. }
  destruct (NewImpl_block ndebug max_flat_size h fresh len Hmax Hlen Hfresh)
    as (b & Hnew & H0 & Hrc & Ht & Ha & Hb & _ & Hcap & Hmin & Hreq).
  exists b. split.
  { unfold max_flat_size in Hnew. unfold New, New_Large.
    by destruct large. }
  repeat (split; [done|]).
  split; [by rewrite Hrc|]. repeat (split; [done|]).
  unfold Delete. rewrite lookup_insert_eq.
  rewrite assert_true
    by (apply andb_true_intro; split; apply Z.leb_le; lia).
  cbn [obind]. unfold AllocatedSize in Ha. rewrite Ha, Z.eqb_refl.
  rewrite delete_insert_eq, delete_id by done. by destruct sized.
Qed.

Lemma New_then_Delete_witness :
  exists b,
    New false ∅ 1 100 = Ret (<[1%nat := b]> ∅, 1%nat) /\
    length (header b) = 0 /\
    RefcountAndFlags.Get (refcount (header b)) = 1 /\
    FLAT <= tag (header b) <= MAX_FLAT_TAG /\
    AllocatedSize b = allocated b /\
    kMinFlatSize <= allocated b <= kMaxFlatSize /\
    Capacity b = allocated b - kFlatOverhead /\
    kMinFlatLength <= Capacity b /\
    Z.min 100 (kMaxFlatSize - kFlatOverhead) <= Capacity b /\
    Delete false true (<[1%nat := b]> ∅) (Some 1%nat) = Ret ∅.
Proof.
  apply (New_then_Delete false true false ∅ 1 100).
  - unfold is_size_t. lia.
  - apply lookup_empty.
Defined.

Lemma write_storage_fits (s : list (option byte)) (data : list byte) :
  (Datatypes.length data <= Datatypes.length s)%nat ->
  write_storage s data = Ret ((Some <$> data) ++ drop (Datatypes.length data) s).
Proof. intros H. unfold write_storage. by rewrite decide_True. Qed.

(** X8.  [Create(data, extra)], for data of at most [kMaxFlatLength]
    bytes, gives a new flat node of length [data.size()] whose first
    bytes are the data and whose capacity covers the data and the extra
    bytes asked for, up to [kMaxFlatLength]. *)
Theorem Create_holds_data (ndebug : bool) (h : gmap nat block)
    (fresh : nat) (data : list byte) (extra : Z) :
  Z.of_nat (Datatypes.length data) <= kMaxFlatLength ->
  is_size_t extra -> h !! fresh = None ->
  exists b,
    Create ndebug h fresh data extra = Ret (<[fresh := b]> h, fresh) /\
    length (header b) = Z.of_nat (Datatypes.length data) /\
    take (Datatypes.length data) (storage b) = Some <$> data /\
    FLAT <= tag (header b) <= MAX_FLAT_TAG /\
    AllocatedSize b = allocated b /\
    Capacity b = Z.of_nat (Datatypes.length (storage b)) /\
    Z.min (Z.of_nat (Datatypes.length data) + extra) kMaxFlatLength
    <= Capacity b <= kMaxFlatLength.
Proof.
  intros Hdata Hextra Hfresh. unfold Create.
  rewrite assert_true by (by apply Z.leb_le). cbn [obind].
  set (n := Z.of_nat (Datatypes.length data)) in *.
  assert (0 <= n) as Hn by (unfold n; lia).
  change kMaxFlatLength with 4083 in *.
  assert (is_size_t (n + Z.min extra 4083)) as Hlen.
  { unfold is_size_t in *. change (2 ^ 64) with 18446744073709551616. lia. }
  rewrite (to_size_t_small _ Hlen). unfold New.
  assert (representable kMaxFlatSize) as Hmax.
  { right; left. split; [unfold kMaxFlatSize; lia | reflexivity]. }
  destruct (NewImpl_block ndebug kMaxFlatSize h fresh _ Hmax Hlen Hfresh)
    as (b & -> & H0 & Hrc & Ht & Ha & Hb & Hst & Hcap & Hmin & Hreq).
  cbn [obind]. rewrite lookup_insert_eq.
  change (kMaxFlatSize - kFlatOverhead) with 4083 in Hreq.
  change kMaxFlatSize with 4096 in Hb. change kFlatOverhead with 13 in Hcap.
  assert (Datatypes.length data <= Datatypes.length (storage b))%nat as Hfit.
  { unfold n, is_size_t in *. lia. }
  rewrite write_storage_fits by done. cbn [obind].
  rewrite insert_insert_eq. eexists. split; [reflexivity|].
  unfold AllocatedSize, Capacity in *.
  cbn [header storage allocated length tag].
  split; [reflexivity|]. split; [apply take_app_length'; by rewrite length_fmap|].
  split; [done|]. split; [done|]. split.
  - rewrite Hst. rewrite length_app, length_fmap, length_drop. lia.
  - unfold is_size_t in Hextra. lia.
Qed.

Lemma Create_holds_data_witness :
  let data := [Byte.x61; Byte.x62; Byte.x63] in
  exists b,
    Create false ∅ 1 data 0 = Ret (<[1%nat := b]> ∅, 1%nat) /\
    length (header b) = Z.of_nat (Datatypes.length data) /\
    take (Datatypes.length data) (storage b) = Some <$> data /\
    FLAT <= tag (header b) <= MAX_FLAT_TAG /\
    AllocatedSize b = allocated b /\
    Capacity b = Z.of_nat (Datatypes.length (storage b)) /\
    Z.min (Z.of_nat (Datatypes.length data) + 0) kMaxFlatLength
    <= Capacity b <= kMaxFlatLength.
Proof.
  apply (Create_holds_data false ∅ 1 [Byte.x61; Byte.x62; Byte.x63] 0).
  - vm_compute. discriminate.
  - unfold is_size_t. lia.
  - apply lookup_empty.
Defined.

End FlatNew.

(** ** The delete queue *)

Section Handle.
Import CordzHandle.

(** The unit tests of [cordz_handle_test.cc], replayed on the model. *)

(** [TEST(CordzHandleTest, CordzHandleCreateDelete)] *)
Example test_CordzHandleCreateDelete :
  (g <- new_CordzHandle Global_init 1 false ;;
   safe <- SafeToDelete g 1 ;;
   q0 <- DiagnosticsGetDeleteQueue 1 g ;;
   g <- Delete false 1 g (Some 1) ;;
   q1 <- DiagnosticsGetDeleteQueue 1 g ;;
   Ret (safe, q0, q1, deleted g 1))
  = Ret (true, [], [], true).
Proof. vm_compute. reflexivity. Qed.

(** [TEST(CordzHandleTest, CordzSnapshotCreateDelete)] *)
Example test_CordzSnapshotCreateDelete :
  (g <- new_CordzHandle Global_init 1 true ;;
   safe <- SafeToDelete g 1 ;;
   q0 <- DiagnosticsGetDeleteQueue 1 g ;;
   g <- delete_ 1 g 1 ;;
   q1 <- DiagnosticsGetDeleteQueue 1 g ;;
   Ret (safe, q0, q1))
  = Ret (true, [1], []).
Proof. vm_compute. reflexivity. Qed.

(** [TEST(CordzHandleTest, CordzHandleCreateDeleteWithSnapshot)] *)
Example test_CordzHandleCreateDeleteWithSnapshot :
  (g <- new_CordzHandle Global_init 1 true ;;
   g <- new_CordzHandle g 2 false ;;
   safe0 <- SafeToDelete g 2 ;;
   g <- Delete false 2 g (Some 2) ;;
   q0 <- DiagnosticsGetDeleteQueue 2 g ;;
   safe1 <- SafeToDelete g 2 ;;
   let deleted0 := deleted g 2 in
   g <- delete_ 2 g 1 ;;
   q1 <- DiagnosticsGetDeleteQueue 2 g ;;
   Ret (safe0, q0, deleted0, safe1, q1, deleted g 2))
  = Ret (false, [2; 1], false, false, [], true).
Proof. vm_compute. reflexivity. Qed.

(** [TEST(CordzHandleTest, MultiSnapshot)]: [snapshot[i]] is at address
    [2 i + 1] and [handle[i]] at [2 i + 2]. *)
Example test_MultiSnapshot :
  (g <- new_CordzHandle Global_init 1 true ;;
   g <- new_CordzHandle g 2 false ;;
   g <- Delete false 6 g (Some 2) ;;
   g <- new_CordzHandle g 3 true ;;
   g <- new_CordzHandle g 4 false ;;
   g <- Delete false 6 g (Some 4) ;;
   g <- new_CordzHandle g 5 true ;;
   g <- new_CordzHandle g 6 false ;;
   g <- Delete false 6 g (Some 6) ;;
   q0 <- DiagnosticsGetDeleteQueue 6 g ;;
   let d0 := [deleted g 2; deleted g 4; deleted g 6] in
   g <- delete_ 6 g 3 ;;
   q1 <- DiagnosticsGetDeleteQueue 6 g ;;
   let d1 := [deleted g 2; deleted g 4; deleted g 6] in
   g <- delete_ 6 g 1 ;;
   q2 <- DiagnosticsGetDeleteQueue 6 g ;;
   let d2 := [deleted g 2; deleted g 4; deleted g 6] in
   g <- delete_ 6 g 5 ;;
   q3 <- DiagnosticsGetDeleteQueue 6 g ;;
   let d3 := [deleted g 2; deleted g 4; deleted g 6] in
   Ret ([q0; q1; q2; q3], [d0; d1; d2; d3]))
  = Ret ([[6; 5; 4; 3; 2; 1]; [6; 5; 4; 2; 1]; [6; 5]; []],
         [[false; false; false]; [false; false; false];
          [true; true; false]; [true; true; true]]).
Proof. vm_compute. reflexivity. Qed.

(** [TEST(CordzHandleTest, DiagnosticsHandleIsSafeToInspect)]:
    [snapshot1], [handle1], [snapshot2], [handle2] are at 1, 2, 3, 4. *)
Example test_DiagnosticsHandleIsSafeToInspect :
  (g <- new_CordzHandle Global_init 1 true ;;
   b0 <- DiagnosticsHandleIsSafeToInspect false 4 g 1 None ;;
   g <- new_CordzHandle g 2 false ;;
   b1 <- DiagnosticsHandleIsSafeToInspect false 4 g 1 (Some 2) ;;
   g <- Delete false 4 g (Some 2) ;;
   b2 <- DiagnosticsHandleIsSafeToInspect false 4 g 1 (Some 2) ;;
   g <- new_CordzHandle g 3 true ;;
   g <- new_CordzHandle g 4 false ;;
   b3 <- DiagnosticsHandleIsSafeToInspect false 4 g 1 (Some 2) ;;
   b4 <- DiagnosticsHandleIsSafeToInspect false 4 g 1 (Some 4) ;;
   b5 <- DiagnosticsHandleIsSafeToInspect false 4 g 3 (Some 2) ;;
   b6 <- DiagnosticsHandleIsSafeToInspect false 4 g 3 (Some 4) ;;
   g <- Delete false 4 g (Some 4) ;;
   b7 <- DiagnosticsHandleIsSafeToInspect false 4 g 1 (Some 2) ;;
   Ret [b0; b1; b2; b3; b4; b5; b6; b7])
  = Ret [true; true; true; true; true; false; true; true].
Proof. vm_compute. reflexivity. Qed.

(** [TEST(CordzHandleTest, DiagnosticsGetSafeToInspectDeletedHandles)]:
    [handle], [snapshot1], [snapshot2] are at 1, 2, 3. *)
Example test_DiagnosticsGetSafeToInspectDeletedHandles :
  (q0 <- DiagnosticsGetDeleteQueue 3 Global_init ;;
   g <- new_CordzHandle Global_init 1 false ;;
   g <- new_CordzHandle g 2 true ;;
   q1 <- DiagnosticsGetDeleteQueue 3 g ;;
   b1 <- DiagnosticsHandleIsSafeToInspect false 3 g 2 (Some 1) ;;
   s1 <- DiagnosticsGetSafeToInspectDeletedHandles 3 g 2 ;;
   g <- Delete false 3 g (Some 1) ;;
   g <- new_CordzHandle g 3 true ;;
   q2 <- DiagnosticsGetDeleteQueue 3 g ;;
   b2 <- DiagnosticsHandleIsSafeToInspect false 3 g 2 (Some 1) ;;
   b3 <- DiagnosticsHandleIsSafeToInspect false 3 g 3 (Some 1) ;;
   s2 <- DiagnosticsGetSafeToInspectDeletedHandles 3 g 2 ;;
   s3 <- DiagnosticsGetSafeToInspectDeletedHandles 3 g 3 ;;
   g <- Delete false 3 g (Some 2) ;;
   q3 <- DiagnosticsGetDeleteQueue 3 g ;;
   g <- Delete false 3 g (Some 3) ;;
   q4 <- DiagnosticsGetDeleteQueue 3 g ;;
   Ret ([q0; q1; q2; q3; q4], [b1; b2; b3], [s1; s2; s3]))
  = Ret ([[]; [2]; [3; 1; 2]; [3]; []], [true; true; false],
         [[]; [1]; []]).
Proof. vm_compute. reflexivity. Qed.
(** Set reasoning below clears hypotheses by name; the warning about a
    name that is gone already carries no information. *)
#[local] Set Warnings "-clear-no-such-hyp".


Ltac lookups :=
  repeat first
    [ rewrite lookup_insert_eq
    | rewrite lookup_insert_ne by congruence
    | rewrite lookup_delete_eq
    | rewrite lookup_delete_ne by congruence
    | rewrite lookup_empty ].

Ltac decides :=
  repeat first
    [ rewrite decide_True by congruence
    | rewrite decide_False by congruence
    | rewrite bool_decide_eq_true_2 by congruence
    | rewrite bool_decide_eq_false_2 by congruence ].

Lemma walk_prev_None fuel g : walk_prev fuel g None = Ret [].
Proof. by destruct fuel. Qed.

Lemma walk_next_None fuel g : walk_next fuel g None = Ret [].
Proof. by destruct fuel. Qed.

Lemma collect_to_delete_None fuel g :
  collect_to_delete fuel g None = Ret ([], None).
Proof. by destruct fuel. Qed.

Lemma inspect_loop_None fuel g this handle found :
  inspect_loop fuel g this handle found None = Ret (inr found).
Proof. by destruct fuel. Qed.

Lemma inspect_loop_found fuel g this handle found :
  inspect_loop fuel g this handle found (Some handle)
  = Ret (inl (negb found)).
Proof. destruct fuel; cbn [inspect_loop]; by rewrite decide_True. Qed.

Lemma collect_to_delete_snapshot fuel g a x :
  handles g !! a = Some x -> is_snapshot_ x = true ->
  collect_to_delete fuel g (Some a) = Ret ([], Some a).
Proof.
  intros Ha Hs. destruct fuel; cbn [collect_to_delete]; unfold deref;
    by rewrite Ha; cbn [obind]; rewrite Hs.
Qed.

Ltac run :=
  repeat (progress
            (unfold deref, set_dq_prev_, set_dq_next_, store_dq_tail, free,
               assert_;
             cbn [obind handles dq_tail is_snapshot_ dq_prev_ dq_next_
                  fst snd negb orb andb foldl
                  walk_prev walk_next inspect_loop collect_to_delete
                  destructor];
             lookups; decides;
             rewrite ?orb_true_r, ?walk_prev_None, ?walk_next_None,
               ?collect_to_delete_None, ?inspect_loop_None,
               ?inspect_loop_found)).

(** C1.  From the empty queue: a snapshot [s1]; a handle [h] whose
    [Delete] is deferred, the queue read from the tail being [h; s1]; a
    second snapshot [s2], the queue being [s2; h; s1]; [h] is safe to
    inspect for [s1] and not for [s2]; destroying [s1], the head, frees [h]
    and leaves the queue [s2].  The addresses are any three distinct ones
    and the fuel any amount from 3 on. *)
Theorem delete_queue_scenario (ndebug : bool) (fuel s1 h s2 : nat) :
  s1 ≠ h -> s1 ≠ s2 -> h ≠ s2 -> 3 <= fuel ->
  exists g1 g2 g3 g4 g5,
    new_CordzHandle Global_init s1 true = Ret g1 /\
    new_CordzHandle g1 h false = Ret g2 /\
    Delete ndebug fuel g2 (Some h) = Ret g3 /\
    DiagnosticsGetDeleteQueue fuel g3 = Ret [h; s1] /\
    new_CordzHandle g3 s2 true = Ret g4 /\
    DiagnosticsGetDeleteQueue fuel g4 = Ret [s2; h; s1] /\
    DiagnosticsHandleIsSafeToInspect ndebug fuel g4 s1 (Some h) = Ret true /\
    DiagnosticsHandleIsSafeToInspect ndebug fuel g4 s2 (Some h) = Ret false /\
    delete_ fuel g4 s1 = Ret g5 /\
    Delete ndebug fuel g4 (Some s1) = Ret g5 /\
    handles g5 !! h = None /\ handles g5 !! s1 = None /\
    DiagnosticsGetDeleteQueue fuel g5 = Ret [s2].
Proof.
  intros H1 H2 H3 Hfuel.
  destruct fuel as [|[|[|fuel]]]; try lia. clear Hfuel.
  do 5 eexists.
  split. { unfold new_CordzHandle, Global_init. run. reflexivity. }
  split. { unfold new_CordzHandle. run. reflexivity. }
  split. { unfold Delete, SafeToDelete, IsEmpty. run. reflexivity. }
  split. { unfold DiagnosticsGetDeleteQueue. run. reflexivity. }
  split. { unfold new_CordzHandle. run. reflexivity. }
  split. { unfold DiagnosticsGetDeleteQueue. run. reflexivity. }
  split. { unfold DiagnosticsHandleIsSafeToInspect. run. reflexivity. }
  split. { unfold DiagnosticsHandleIsSafeToInspect. run. reflexivity. }
  split. { unfold delete_. run. reflexivity. }
  split. { unfold Delete, SafeToDelete, IsEmpty, delete_. run. reflexivity. }
  split. { run. reflexivity. }
  split. { run. reflexivity. }
  unfold DiagnosticsGetDeleteQueue. run. reflexivity.
Qed.


Lemma delete_queue_scenario_witness :
  exists g1 g2 g3 g4 g5,
    new_CordzHandle Global_init 1 true = Ret g1 /\
    new_CordzHandle g1 2 false = Ret g2 /\
    Delete false 3 g2 (Some 2) = Ret g3 /\
    DiagnosticsGetDeleteQueue 3 g3 = Ret [2; 1] /\
    new_CordzHandle g3 3 true = Ret g4 /\
    DiagnosticsGetDeleteQueue 3 g4 = Ret [3; 2; 1] /\
    DiagnosticsHandleIsSafeToInspect false 3 g4 1 (Some 2) = Ret true /\
    DiagnosticsHandleIsSafeToInspect false 3 g4 3 (Some 2) = Ret false /\
    delete_ 3 g4 1 = Ret g5 /\
    Delete false 3 g4 (Some 1) = Ret g5 /\
    handles g5 !! 2 = None /\ handles g5 !! 1 = None /\
    DiagnosticsGetDeleteQueue 3 g5 = Ret [3].
Proof.
  apply (delete_queue_scenario false 3 1 2 3); lia.
Defined.

(** Walking forward from a handle of the queue visits the rest of the
    queue, in order, and keeps the handles that are not snapshots. *)
Lemma walk_next_segment g : forall l prev fuel,
  segment g prev l None -> length l <= fuel ->
  walk_next fuel g (first_or l None)
  = Ret (List.filter (fun a => negb (snapshot_in g a)) l).
Proof.
  induction l as [|a l IH]; intros prev fuel Hl Hfuel.
  - apply walk_next_None.
  - destruct Hl as [(x & Hx & _ & Hnext) Hl].
    destruct fuel as [|fuel]; [cbn [length] in Hfuel; lia|].
    cbn [first_or walk_next List.filter]. unfold deref, snapshot_in.
    rewrite Hx. cbn [obind]. rewrite Hnext.
    rewrite (IH (Some a) fuel Hl) by (cbn [length] in Hfuel; lia).
    reflexivity.
Qed.

Lemma segment_middle g : forall l1 prev this l2 next,
  segment g prev (l1 ++ this :: l2) next ->
  exists x, handles g !! this = Some x /\ dq_prev_ x = last_or prev l1 /\
            dq_next_ x = first_or l2 next /\
            segment g (Some this) l2 next.
Proof.
  induction l1 as [|a l1 IH]; intros prev this l2 next Hl.
  - destruct Hl as [(x & Hx & Hprev & Hnext) Hl]. by exists x.
  - destruct Hl as [_ Hl].
    destruct (IH (Some a) this l2 next Hl) as (x & Hx & Hprev & Hrest).
    by exists x.
Qed.

Lemma last_or_app prev l1 l2 :
  last_or prev (l1 ++ l2) = last_or (last_or prev l1) l2.
Proof. revert prev. induction l1 as [|a l1 IH]; intros prev; cbn; auto. Qed.

Lemma last_or_None l : last_or None l = last l.
Proof.
  induction l as [|a l IH] using rev_ind; [done|].
  by rewrite last_or_app, last_snoc.
Qed.

Lemma first_or_app l1 l2 next :
  first_or (l1 ++ l2) next = first_or l1 (first_or l2 next).
Proof. by destruct l1. Qed.

Lemma segment_ext g g' : forall l prev next,
  (forall a, a ∈ l -> handles g' !! a = handles g !! a) ->
  segment g prev l next -> segment g' prev l next.
Proof.
  induction l as [|a l IH]; intros prev next Hag Hl; [done|].
  destruct Hl as [(x & Hx & Hp & Hn) Hl]. split.
  - exists x. rewrite Hag by apply list_elem_of_here. done.
  - apply IH; [|done]. intros b Hb. apply Hag. by apply list_elem_of_further.
Qed.

Lemma segment_app g : forall l1 prev l2 next,
  segment g prev (l1 ++ l2) next <->
  segment g prev l1 (first_or l2 next) /\
  segment g (last_or prev l1) l2 next.
Proof.
  induction l1 as [|a l1 IH]; intros prev l2 next.
  - cbn. tauto.
  - cbn [app segment last_or]. rewrite first_or_app, IH. tauto.
Qed.

Lemma segment_live g a : forall l prev next,
  segment g prev l next -> a ∈ l -> is_Some (handles g !! a).
Proof.
  induction l as [|b l IH]; intros prev next Hl Ha.
  - by apply elem_of_nil in Ha.
  - destruct Hl as [(x & Hx & _) Hl].
    apply elem_of_cons in Ha as [-> | Ha]; [by eexists | by eapply IH].
Qed.

(** Changing where the last handle of a segment points to. *)
Lemma segment_set_next g g' l t prev next next' xt :
  segment g prev (l ++ [t]) next ->
  (forall a, a ∈ l -> handles g' !! a = handles g !! a) ->
  handles g !! t = Some xt ->
  handles g' !! t
  = Some (mkCordzHandle (is_snapshot_ xt) (dq_prev_ xt) next') ->
  segment g' prev (l ++ [t]) next'.
Proof.
  intros [Hl [(x & Hx & Hp & _) _]]%segment_app Hag Hxt Hxt'.
  apply segment_app. split; [by apply (segment_ext g)|].
  split; [|done]. eexists. split; [exact Hxt'|]. cbn. split; [|done].
  congruence.
Qed.

(** Changing where the first handle of a segment points back to. *)
Lemma segment_set_prev g g' n l prev prev' next xn :
  segment g prev (n :: l) next ->
  (forall a, a ∈ l -> handles g' !! a = handles g !! a) ->
  handles g !! n = Some xn ->
  handles g' !! n
  = Some (mkCordzHandle (is_snapshot_ xn) prev' (dq_next_ xn)) ->
  segment g' prev' (n :: l) next.
Proof.
  intros [(x & Hx & _ & Hn) Hl] Hag Hxn Hxn'. split.
  - eexists. split; [exact Hxn'|]. cbn. split; [done|]. congruence.
  - by apply (segment_ext g).
Qed.

Lemma queue_tail g l t : queue g (l ++ [t]) -> dq_tail g = Some t.
Proof. intros [_ ->]. apply last_snoc. Qed.

Lemma invariant_live g l a :
  invariant g l -> a ∈ l -> is_Some (handles g !! a).
Proof. intros [[Hl _] _] Ha. by eapply segment_live. Qed.

(** The linking of [a] behind the tail, as the constructor and [Delete]
    do it. *)
Lemma link_at_tail g l t a xa :
  queue g (l ++ [t]) -> NoDup (l ++ [t]) -> a ∉ l ++ [t] ->
  handles g !! a = Some xa -> dq_next_ xa = None ->
  exists g1 g2,
    set_dq_prev_ g a (Some t) = Ret g1 /\
    set_dq_next_ g1 t (Some a) = Ret g2 /\
    queue (store_dq_tail g2 (Some a)) ((l ++ [t]) ++ [a]) /\
    (forall b, b ∉ (l ++ [t]) ++ [a] -> handles g2 !! b = handles g !! b) /\
    handles g2 !! a
    = Some (mkCordzHandle (is_snapshot_ xa) (Some t) None).
Proof.
  intros [Hseg Htail] Hnd Hnotin Ha Hnext.
  assert (a ≠ t) as Hat by (intros ->; apply Hnotin; set_solver).
  assert (t ∉ l) as Htl.
  { apply NoDup_app in Hnd as (_ & Hd & _). intros Ht. apply (Hd t Ht).
    set_solver. }
  destruct (segment_live g t _ _ _ Hseg) as [xt Hxt]; [set_solver|].
  unfold set_dq_prev_, set_dq_next_, deref. rewrite Ha. cbn [obind handles].
  eexists. eexists. split; [reflexivity|]. cbn [handles dq_tail].
  rewrite lookup_insert_ne by done. rewrite Hxt. cbn [obind].
  split; [reflexivity|].
  rewrite Hnext. unfold store_dq_tail. cbn [handles dq_tail].
  split; [|split].
  - split; [|by rewrite last_snoc].
    apply segment_app. cbn [first_or]. split.
    + eapply (segment_set_next g); [exact Hseg | | exact Hxt |].
      * intros b Hb. cbn [handles].
        rewrite !lookup_insert_ne; [done | | ]; intros ->; set_solver.
      * cbn [handles]. by rewrite lookup_insert_eq.
    + cbn [segment]. split; [|done]. eexists. cbn [handles].
      split; [by rewrite lookup_insert_ne, lookup_insert_eq by done|].
      cbn. by rewrite last_or_app.
  - intros b Hb. cbn [handles].
    rewrite !lookup_insert_ne; [done | | ]; intros ->; set_solver.
  - cbn [handles]. by rewrite lookup_insert_ne, lookup_insert_eq by done.
Qed.


Lemma not_live_not_queued g l a :
  queue g l -> handles g !! a = None -> a ∉ l.
Proof.
  intros [Hl _] Ha Hin.
  destruct (segment_live g a _ _ _ Hl Hin) as [x Hx]. congruence.
Qed.

Lemma list_snoc_inv {A} (l : list A) : l = [] \/ exists l0 t, l = l0 ++ [t].
Proof. destruct l as [|a l] using rev_ind; [by left | right; eauto]. Qed.

Lemma new_CordzHandle_invariant g l this is_snapshot g' :
  invariant g l -> new_CordzHandle g this is_snapshot = Ret g' ->
  invariant g' (if is_snapshot then l ++ [this] else l).
Proof.
  intros (Hq & Hnd & Hout) Hnew. unfold new_CordzHandle in Hnew.
  destruct (handles g !! this) as [|] eqn:Hthis; [discriminate|].
  pose proof (not_live_not_queued g l this Hq Hthis) as Hnotin.
  set (g0 := mkGlobal
               (<[this := mkCordzHandle is_snapshot None None]> (handles g))
               (dq_tail g)) in *.
  assert (queue g0 l) as Hq0.
  { destruct Hq as [Hl Ht]. split; [|done].
    apply (segment_ext g); [|done]. intros b Hb. cbn.
    apply lookup_insert_ne. by intros ->. }
  assert (forall b x, handles g0 !! b = Some x -> b ∉ l ++ [this] ->
                      is_snapshot_ x = false /\ dq_next_ x = None) as Hout0.
  { intros b x Hb Hbn. cbn in Hb. rewrite lookup_insert_ne in Hb by set_solver.
    apply (Hout b x Hb). set_solver. }
  destruct is_snapshot.
  - destruct (list_snoc_inv l) as [-> | (l0 & t & ->)].
    + destruct Hq as [_ Htail]. cbn [dq_tail g0 last] in Hnew.
      rewrite Htail in Hnew. cbn in Hnew. injection Hnew as <-.
      split; [|split].
      * split; [|done]. cbn. split; [|done]. eexists.
        by rewrite lookup_insert_eq.
      * apply NoDup_singleton.
      * intros b x Hb Hbn. apply (Hout0 b x); done.
    + destruct (link_at_tail g0 l0 t this
                  (mkCordzHandle true None None))
        as (g1 & g2 & H1 & H2 & Hq2 & Hframe & Hthis2);
        [done | done | done | by apply lookup_insert_eq | done |].
      cbn [dq_tail g0] in Hnew. rewrite (queue_tail g l0 t Hq) in Hnew.
      rewrite H1 in Hnew. cbn [obind] in Hnew. rewrite H2 in Hnew.
      cbn [obind] in Hnew. injection Hnew as <-.
      split; [done|]. split.
      * apply NoDup_app. split; [done|]. split; [|apply NoDup_singleton].
        intros b Hb ->%list_elem_of_singleton. done.
      * intros b x Hb Hbn. unfold store_dq_tail in Hb. cbn [handles] in Hb.
        rewrite Hframe in Hb by done. by apply (Hout0 b x).
  - injection Hnew as <-. split; [done|]. split; [done|].
    intros b x Hb Hbn. cbn in Hb.
    destruct (decide (b = this)) as [-> | Hne].
    + rewrite lookup_insert_eq in Hb. by injection Hb as <-.
    + rewrite lookup_insert_ne in Hb by done. by apply (Hout b x).
Qed.


Lemma snapshot_split g l :
  l = up_to_next_snapshot g l ++ from_next_snapshot g l.
Proof.
  induction l as [|a l IH]; [done|]. cbn.
  destruct (snapshot_in g a); [done|]. cbn. by f_equal.
Qed.

Lemma up_to_next_snapshot_spec g l a :
  a ∈ up_to_next_snapshot g l -> snapshot_in g a = false.
Proof.
  induction l as [|b l IH]; cbn; [by intros ?%elem_of_nil|].
  destruct (snapshot_in g b) eqn:Hb; [by intros ?%elem_of_nil|].
  intros [-> | Ha]%elem_of_cons; auto.
Qed.

Lemma collect_to_delete_segment g : forall l prev fuel,
  segment g prev l None -> length (up_to_next_snapshot g l) <= fuel ->
  collect_to_delete fuel g (first_or l None)
  = Ret (up_to_next_snapshot g l, first_or (from_next_snapshot g l) None).
Proof.
  induction l as [|a l IH]; intros prev fuel Hl Hfuel.
  - apply collect_to_delete_None.
  - destruct Hl as [(x & Hx & _ & Hn) Hl].
    cbn [first_or up_to_next_snapshot from_next_snapshot] in *.
    unfold snapshot_in in *. rewrite Hx in *.
    destruct (is_snapshot_ x) eqn:Hs.
    + by apply (collect_to_delete_snapshot fuel g a x).
    + destruct fuel as [|fuel]; [cbn in Hfuel; lia|].
      cbn [collect_to_delete]. unfold deref. rewrite Hx. cbn [obind].
      rewrite Hs, Hn.
      rewrite (IH (Some a) fuel Hl) by (cbn in Hfuel; lia). done.
Qed.

Lemma lookup_free_all (d : list nat) : forall g b,
  handles (foldl free g d) !! b
  = (if decide (b ∈ d) then None else handles g !! b) /\
  dq_tail (foldl free g d) = dq_tail g.
Proof.
  induction d as [|a d IH]; intros g b; cbn [foldl].
  - rewrite decide_False by apply not_elem_of_nil. done.
  - destruct (IH (free g a) b) as [-> ->]. split; [|done].
    cbn [free handles].
    destruct (decide (b ∈ d)) as [Hd | Hd].
    + rewrite decide_True by set_solver. done.
    + destruct (decide (b = a)) as [-> | Hne].
      * rewrite decide_True by set_solver. apply lookup_delete_eq.
      * rewrite decide_False by set_solver. by apply lookup_delete_ne.
Qed.

(** Deleting the collected handles: none of them is a snapshot, so each
    destructor does nothing and the storage is freed. *)
Lemma delete_collected fuel : forall d g,
  (forall a, a ∈ d ->
     exists x, handles g !! a = Some x /\ is_snapshot_ x = false) ->
  NoDup d ->
  foldl (fun acc handle =>
           g <- acc ;;
           g <- destructor (S fuel) g handle ;;
           Ret (free g handle))
        (Ret g) d
  = Ret (foldl free g d).
Proof.
  induction d as [|a d IH]; intros g Hd Hnd; [done|].
  cbn [foldl obind destructor]. unfold deref.
  destruct (Hd a) as (x & Hx & Hs); [set_solver|].
  rewrite Hx. cbn [obind]. rewrite Hs. cbn [obind].
  apply NoDup_cons in Hnd as [Ha Hnd].
  apply IH; [|done]. intros b Hb.
  destruct (Hd b) as (y & Hy & Hsy); [set_solver|].
  exists y. split; [|done]. cbn.
  rewrite lookup_delete_ne; [done|]. by intros ->.
Qed.


Lemma last_app_cons {A} (l1 : list A) a b l2 :
  last (l1 ++ a :: b :: l2) = last (l1 ++ b :: l2).
Proof. by rewrite !last_app. Qed.

(** The destructor of a snapshot that is not the head of the queue
    unlinks it and deletes nothing. *)
Lemma delete_inner_snapshot fuel g l1 p this l2 x :
  invariant g ((l1 ++ [p]) ++ this :: l2) ->
  handles g !! this = Some x -> is_snapshot_ x = true ->
  exists g', delete_ (S fuel) g this = Ret g' /\
             invariant g' ((l1 ++ [p]) ++ l2).
Proof.
  intros ([Hseg Htail] & Hnd & Hout) Hx Hs.
  destruct (segment_middle g _ _ _ _ _ Hseg) as (x' & Hx' & Hprev & Hnext & _).
  assert (x' = x) as -> by congruence.
  rewrite last_or_app in Hprev. cbn [last_or] in Hprev.
  apply segment_app in Hseg as [Hseg1 [_ Hseg2]]. cbn [first_or] in Hseg1.
  destruct (segment_live g p _ _ _ Hseg1) as [xp Hxp]; [set_solver|].
  apply NoDup_app in Hnd as (Hn1 & Hd & Hn2).
  apply NoDup_cons in Hn2 as [Htl2 Hn2].
  assert (p ∉ l1) as Hpl1.
  { apply NoDup_app in Hn1 as (_ & Hd1 & _). intros ?. apply (Hd1 p); set_solver. }
  assert (p ≠ this) as Hpt by (intros ->; apply (Hd this); set_solver).
  assert (this ∉ l1 ++ [p]) as Htl1 by (intros ?; apply (Hd this); set_solver).
  assert (forall a, a ∈ l2 -> a ∉ l1 ++ [p]) as Hdisj.
  { intros a Ha Ha'. apply (Hd a); set_solver. }
  assert (NoDup ((l1 ++ [p]) ++ l2)) as Hnd'.
  { apply NoDup_app. split; [done|]. split; [|done].
    intros a Ha Ha2. by apply (Hdisj a). }
  unfold delete_. cbn [destructor]. unfold deref. rewrite Hx. cbn [obind].
  rewrite Hs, Hprev. unfold set_dq_next_, deref. rewrite Hxp. cbn [obind].
  rewrite Hnext.
  destruct l2 as [|n l2].
  - (* [this] was the tail *)
    cbn [first_or foldl obind]. eexists. split; [reflexivity|].
    unfold free, store_dq_tail. cbn [handles dq_tail].
    rewrite app_nil_r in *. split; [split|split; [done|]].
    + eapply (segment_set_next g); [exact Hseg1 | | exact Hxp |].
      * intros a Ha. cbn [handles].
        rewrite lookup_delete_ne by (intros ->; set_solver).
        apply lookup_insert_ne. by intros ->.
      * cbn [handles]. rewrite lookup_delete_ne by done.
        apply lookup_insert_eq.
    + cbn [dq_tail]. by rewrite last_snoc.
    + intros a y Hy Ha. cbn [handles] in Hy.
      destruct (decide (a = this)) as [-> | Hne];
        [by rewrite lookup_delete_eq in Hy|].
      rewrite lookup_delete_ne in Hy by done.
      rewrite lookup_insert_ne in Hy by (intros ->; set_solver).
      apply (Hout a y Hy). set_solver.
  - (* [n] follows [this] *)
    pose proof Hseg2 as [(xn & Hxn & _ & _) _].
    apply NoDup_cons in Hn2 as [Hnl2 Hn2].
    assert (n ≠ this) as Hnt by (intros ->; set_solver).
    assert (n ≠ p) as Hnp by (intros ->; apply (Hdisj p); set_solver).
    assert (n ∉ l1) as Hnl1 by (intros ?; apply (Hdisj n); set_solver).
    cbn [first_or]. unfold set_dq_prev_, deref. cbn [handles dq_tail].
    rewrite lookup_insert_ne by done. rewrite Hxn.
    cbn [obind foldl]. eexists. split; [reflexivity|].
    unfold free. cbn [handles dq_tail].
    split; [split|split; [done|]].
    + apply segment_app. split.
      * eapply (segment_set_next g); [exact Hseg1 | | exact Hxp |].
        -- intros a Ha. cbn [handles].
           rewrite lookup_delete_ne by (intros ->; set_solver).
           rewrite !lookup_insert_ne; [done | |]; intros ->; set_solver.
        -- cbn [handles]. rewrite lookup_delete_ne by done.
           rewrite lookup_insert_ne by done. apply lookup_insert_eq.
      * rewrite last_or_app. cbn [last_or].
        eapply (segment_set_prev g _ n l2 (Some this));
          [exact Hseg2 | | exact Hxn |].
        -- intros a Ha. cbn [handles].
           assert (this ≠ a) by (intros ->; set_solver).
           assert (n ≠ a) by (intros ->; set_solver).
           assert (p ≠ a) by (intros ->; apply (Hdisj a); set_solver).
           by rewrite lookup_delete_ne, !lookup_insert_ne by done.
        -- cbn [handles]. rewrite lookup_delete_ne by done.
           apply lookup_insert_eq.
    + cbn [dq_tail]. rewrite Htail. apply last_app_cons.
    + intros a y Hy Ha. cbn [handles] in Hy.
      destruct (decide (a = this)) as [-> | Hne];
        [by rewrite lookup_delete_eq in Hy|].
      rewrite lookup_delete_ne in Hy by done.
      rewrite !lookup_insert_ne in Hy by (intros ->; set_solver).
      apply (Hout a y Hy). set_solver.
Qed.


Lemma delete_collected_fuel fuel d g :
  (forall a, a ∈ d ->
     exists x, handles g !! a = Some x /\ is_snapshot_ x = false) ->
  NoDup d -> length d <= fuel ->
  foldl (fun acc handle =>
           g <- acc ;;
           g <- destructor fuel g handle ;;
           Ret (free g handle))
        (Ret g) d
  = Ret (foldl free g d).
Proof.
  intros Hd Hnd Hfuel. destruct fuel as [|fuel].
  - destruct d; [done | cbn in Hfuel; lia].
  - by apply delete_collected.
Qed.

(** The destructor of the snapshot at the head of the queue deletes the
    handles up to the next snapshot, which becomes the head. *)
Lemma delete_head_snapshot fuel g this l2 x :
  invariant g (this :: l2) ->
  handles g !! this = Some x -> is_snapshot_ x = true ->
  length l2 <= fuel ->
  exists g', delete_ (S fuel) g this = Ret g' /\
             invariant g' (from_next_snapshot g l2) /\
             (forall a, a ∈ up_to_next_snapshot g l2 ->
                        handles g' !! a = None).
Proof.
  intros ([Hseg Htail] & Hnd & Hout) Hx Hs Hfuel.
  pose proof Hseg as [(x' & Hx' & Hprev & Hnext) Hseg2].
  assert (x' = x) as -> by congruence.
  apply NoDup_cons in Hnd as [Htl2 Hnd2].
  pose proof (collect_to_delete_segment g l2 (Some this) fuel Hseg2)
    as Hcollect.
  pose proof (up_to_next_snapshot_spec g l2) as Hd.
  pose proof (snapshot_split g l2) as Hsplit.
  assert (length (up_to_next_snapshot g l2) <= fuel) as Hfd.
  { rewrite Hsplit, length_app in Hfuel. lia. }
  specialize (Hcollect Hfd).
  set (d := up_to_next_snapshot g l2) in *.
  set (r := from_next_snapshot g l2) in *.
  clearbody d r. subst l2.
  apply NoDup_app in Hnd2 as (Hndd & Hdr & Hndr).
  apply segment_app in Hseg2 as [Hsegd Hsegr].
  assert (forall a, a ∈ d ->
            exists y, handles g !! a = Some y /\ is_snapshot_ y = false)
    as Hdlive.
  { intros a Ha.
    destruct (segment_live g a _ _ _ Hsegd Ha) as [y Hy].
    exists y. split; [done|]. specialize (Hd a Ha).
    unfold snapshot_in in Hd. by rewrite Hy in Hd. }
  unfold delete_. cbn [destructor]. unfold deref. rewrite Hx. cbn [obind].
  rewrite Hs, Hprev, Hnext, Hcollect. cbn [obind fst snd].
  destruct r as [|n r].
  - (* no snapshot is left *)
    cbn [first_or obind].
    rewrite delete_collected_fuel by done. cbn [obind].
    eexists. split; [reflexivity|].
    split; [split; [split; [done|]|split; [apply NoDup_nil_2|]]|].
    + cbn [free dq_tail].
      by destruct (lookup_free_all d (store_dq_tail g None) this) as [_ ->].
    + intros a y Hy _. cbn [free handles] in Hy.
      destruct (decide (a = this)) as [-> | Hne];
        [by rewrite lookup_delete_eq in Hy|].
      rewrite lookup_delete_ne in Hy by done.
      destruct (lookup_free_all d (store_dq_tail g None) a) as [Hl _].
      rewrite Hl in Hy. destruct (decide (a ∈ d)); [done|].
      apply (Hout a y Hy). set_solver.
    + intros a Ha. cbn [free handles].
      destruct (decide (a = this)) as [-> | Hne];
        [apply lookup_delete_eq|].
      rewrite lookup_delete_ne by done.
      destruct (lookup_free_all d (store_dq_tail g None) a) as [-> _].
      by rewrite decide_True.
  - (* [n] is the next snapshot *)
    pose proof Hsegr as [(xn & Hxn & _ & _) _].
    apply NoDup_cons in Hndr as [Hnr Hndr].
    assert (n ∉ d) as Hnd by (intros ?; apply (Hdr n); set_solver).
    assert (n ≠ this) as Hnt by (intros ->; set_solver).
    cbn [first_or]. unfold set_dq_prev_, deref. rewrite Hxn. cbn [obind].
    set (g1 := mkGlobal _ _).
    rewrite delete_collected_fuel; [|  | done | done].
    2:{ intros a Ha. destruct (Hdlive a Ha) as (y & Hy & Hsy).
        exists y. split; [|done]. unfold g1. cbn [handles].
        rewrite lookup_insert_ne; [done|]. by intros ->. }
    cbn [obind]. eexists. split; [reflexivity|].
    assert (forall a, handles (free (foldl free g1 d) this) !! a
                      = if decide (a = this) then None
                        else if decide (a ∈ d) then None
                        else handles g1 !! a) as Hlook.
    { intros a. cbn [free handles].
      destruct (decide (a = this)) as [-> | Hne];
        [apply lookup_delete_eq|].
      rewrite lookup_delete_ne by done.
      by destruct (lookup_free_all d g1 a) as [-> _]. }
    split; [split; [split|split; [by apply NoDup_cons|]]|].
    + eapply (segment_set_prev g _ n r); [exact Hsegr | | exact Hxn |].
      * intros a Ha. rewrite Hlook.
        rewrite decide_False by (intros ->; set_solver).
        rewrite decide_False by (intros ?; apply (Hdr a); set_solver).
        unfold g1. cbn [handles]. apply lookup_insert_ne. by intros ->.
      * rewrite Hlook. rewrite !decide_False by done.
        unfold g1. cbn [handles]. apply lookup_insert_eq.
    + cbn [free dq_tail].
      destruct (lookup_free_all d g1 this) as [_ ->]. unfold g1.
      cbn [dq_tail]. rewrite Htail.
      change (this :: d ++ n :: r) with ((this :: d) ++ n :: r).
      rewrite last_app. destruct (last (n :: r)) eqn:E; [done|].
      by apply last_None in E.
    + intros a y Hy Ha. rewrite Hlook in Hy.
      destruct (decide (a = this)); [done|].
      destruct (decide (a ∈ d)); [done|].
      unfold g1 in Hy. cbn [handles] in Hy.
      rewrite lookup_insert_ne in Hy by (intros ->; set_solver).
      apply (Hout a y Hy). set_solver.
    + intros a Ha. rewrite Hlook.
      destruct (decide (a = this)); [done|]. by rewrite decide_True.
Qed.


Lemma invariant_init : invariant Global_init [].
Proof.
  split; [by split|]. split; [apply NoDup_nil_2|].
  intros a x Hx. unfold Global_init in Hx. cbn [handles] in Hx.
  by rewrite lookup_empty in Hx.
Qed.

Lemma invariant_snapshot_queued g l a x :
  invariant g l -> handles g !! a = Some x -> is_snapshot_ x = true ->
  a ∈ l.
Proof.
  intros (_ & _ & Hout) Hx Hs. destruct (decide (a ∈ l)) as [|Hn]; [done|].
  destruct (Hout a x Hx Hn) as [Hf _]. congruence.
Qed.

Lemma invariant_length g l : invariant g l -> length l <= size (handles g).
Proof.
  intros ([Hseg _] & Hnd & _).
  rewrite <- size_dom, <- (size_list_to_set (C := gset nat) l) by done.
  apply subseteq_size. intros a Ha%elem_of_list_to_set.
  apply elem_of_dom. by eapply segment_live.
Qed.

(** Read from the tail, the queue is the sequence reversed. *)
Lemma walk_prev_segment g : forall l next fuel,
  segment g None l next -> length l <= fuel ->
  walk_prev fuel g (last_or None l) = Ret (reverse l).
Proof.
  induction l as [|t l IH] using rev_ind; intros next fuel Hl Hfuel.
  - apply walk_prev_None.
  - apply segment_app in Hl as [Hl [(x & Hx & Hp & _) _]].
    rewrite length_app in Hfuel. cbn in Hfuel.
    destruct fuel as [|fuel]; [lia|].
    rewrite last_or_app. cbn [last_or walk_prev]. unfold deref.
    rewrite Hx. cbn [obind]. rewrite Hp.
    rewrite (IH _ fuel Hl) by lia. cbn [obind].
    by rewrite reverse_snoc.
Qed.

Lemma DiagnosticsGetDeleteQueue_queue fuel g l :
  queue g l -> length l <= fuel ->
  DiagnosticsGetDeleteQueue fuel g = Ret (reverse l).
Proof.
  intros [Hl Ht] Hfuel. unfold DiagnosticsGetDeleteQueue.
  rewrite Ht, <- last_or_None. by eapply walk_prev_segment.
Qed.

Lemma Delete_deferred ndebug fuel g l t h x :
  invariant g (l ++ [t]) -> handles g !! h = Some x ->
  is_snapshot_ x = false -> h ∉ l ++ [t] ->
  exists g', Delete ndebug fuel g (Some h) = Ret g' /\
             invariant g' ((l ++ [t]) ++ [h]).
Proof.
  intros (Hq & Hnd & Hout) Hx Hs Hh.
  destruct (Hout h x Hx Hh) as [_ Hnext].
  destruct (link_at_tail g l t h x Hq Hnd Hh Hx Hnext)
    as (g1 & g2 & H1 & H2 & Hq2 & Hframe & Hh2).
  unfold Delete, SafeToDelete, IsEmpty, deref.
  rewrite assert_true by (by apply bool_decide_eq_true). cbn [obind].
  rewrite Hx. cbn [obind]. rewrite Hs, (queue_tail g l t Hq).
  rewrite bool_decide_eq_false_2 by done. cbn [orb].
  rewrite H1. cbn [obind]. rewrite H2. cbn [obind].
  eexists. split; [reflexivity|]. split; [done|]. split.
  - apply NoDup_app. split; [done|]. split; [|apply NoDup_singleton].
    intros b Hb ->%list_elem_of_singleton. done.
  - intros b y Hy Hb. unfold store_dq_tail in Hy. cbn [handles] in Hy.
    rewrite Hframe in Hy by done. apply (Hout b y Hy). set_solver.
Qed.

Lemma Delete_unqueued ndebug fuel g h x :
  invariant g [] -> handles g !! h = Some x ->
  exists g', Delete ndebug (S fuel) g (Some h) = Ret g' /\ invariant g' [].
Proof.
  intros ([_ Htail] & _ & Hout) Hx.
  destruct (Hout h x Hx) as [Hs _]; [apply not_elem_of_nil|].
  unfold Delete, SafeToDelete, IsEmpty, deref.
  rewrite assert_true by (by apply bool_decide_eq_true). cbn [obind].
  rewrite Hx. cbn [obind]. rewrite Hs, Htail.
  rewrite bool_decide_eq_true_2 by done. cbn [orb last].
  unfold delete_. cbn [destructor]. unfold deref. rewrite Hx. cbn [obind].
  rewrite Hs. cbn [obind]. eexists. split; [reflexivity|].
  split; [by split|]. split; [apply NoDup_nil_2|].
  intros a y Hy _. cbn [free handles] in Hy.
  destruct (decide (a = h)) as [-> | Hne];
    [by rewrite lookup_delete_eq in Hy|].
  rewrite lookup_delete_ne in Hy by done.
  apply (Hout a y Hy). apply not_elem_of_nil.
Qed.

Lemma Delete_snapshot ndebug fuel g l1 this l2 x :
  invariant g (l1 ++ this :: l2) ->
  handles g !! this = Some x -> is_snapshot_ x = true ->
  length (l1 ++ this :: l2) <= fuel ->
  exists g', Delete ndebug fuel g (Some this) = Ret g' /\
             invariant g' (match l1 with
                           | [] => from_next_snapshot g l2
                           | _ => l1 ++ l2
                           end).
Proof.
  intros Hinv Hx Hs Hfuel.
  unfold Delete, SafeToDelete, deref.
  rewrite assert_true by (by apply bool_decide_eq_true). cbn [obind].
  rewrite Hx. cbn [obind]. rewrite Hs. cbn [orb].
  rewrite length_app in Hfuel. cbn [length] in Hfuel.
  destruct fuel as [|fuel]; [lia|].
  destruct (list_snoc_inv l1) as [-> | (l0 & p & ->)].
  - destruct (delete_head_snapshot fuel g this l2 x Hinv Hx Hs)
      as (g' & Hg' & Hinv' & _); [cbn in Hfuel; lia|].
    by exists g'.
  - destruct (delete_inner_snapshot fuel g l0 p this l2 x Hinv Hx Hs)
      as (g' & Hg' & Hinv').
    exists g'. split; [done|]. by destruct (l0 ++ [p]) eqn:E;
      [destruct l0; discriminate E|].
Qed.

(** Every reachable state is a well-formed queue. *)
Lemma reachable_invariant g : reachable g -> exists l, invariant g l.
Proof.
  induction 1 as [| g this s g' _ [l IH] Hnew
                  | ndebug fuel g h x q g' _ [l IH] Hx Hq Hfresh Hfuel HD].
  - exists []. apply invariant_init.
  - eexists. by eapply new_CordzHandle_invariant.
  - pose proof (invariant_length g l IH) as Hlen.
    rewrite (DiagnosticsGetDeleteQueue_queue fuel g l) in Hq;
      [| by destruct IH | lia].
    injection Hq as <-.
    destruct (is_snapshot_ x) eqn:Hs.
    + pose proof (invariant_snapshot_queued g l h x IH Hx Hs) as Hin.
      apply list_elem_of_split in Hin as (l1 & l2 & ->).
      destruct (Delete_snapshot ndebug fuel g l1 h l2 x IH Hx Hs)
        as (g'' & Hg'' & Hinv); [lia|].
      rewrite Hg'' in HD. injection HD as <-. eauto.
    + assert (h ∉ l) as Hh.
      { intros Hin. apply (Hfresh eq_refl). by apply elem_of_reverse. }
      destruct (list_snoc_inv l) as [-> | (l0 & t & ->)].
      * destruct fuel as [|fuel]; [lia|].
        destruct (Delete_unqueued ndebug fuel g h x IH Hx)
          as (g'' & Hg'' & Hinv).
        rewrite Hg'' in HD. injection HD as <-. eauto.
      * destruct (Delete_deferred ndebug fuel g l0 t h x IH Hx Hs Hh)
          as (g'' & Hg'' & Hinv).
        rewrite Hg'' in HD. injection HD as <-. eauto.
Qed.

Lemma safe_to_inspect_not_snapshot fuel g this x :
  handles g !! this = Some x -> is_snapshot_ x = false ->
  DiagnosticsGetSafeToInspectDeletedHandles fuel g this = Ret [].
Proof.
  intros Hx Hs. unfold DiagnosticsGetSafeToInspectDeletedHandles, deref.
  rewrite Hx. cbn [obind]. by rewrite Hs.
Qed.

Lemma safe_to_inspect_queue fuel g this x l1 l2 :
  handles g !! this = Some x -> is_snapshot_ x = true ->
  queue g (l1 ++ this :: l2) -> length l2 <= fuel ->
  DiagnosticsGetSafeToInspectDeletedHandles fuel g this
  = Ret (List.filter (fun a => negb (snapshot_in g a)) l2).
Proof.
  intros Hx Hs [Hl _] Hfuel.
  unfold DiagnosticsGetSafeToInspectDeletedHandles, deref.
  rewrite Hx. cbn [obind]. rewrite Hs. cbn [negb].
  destruct (segment_middle _ _ _ _ _ _ Hl) as (x' & Hx' & _ & Hnext & Hl2).
  assert (x' = x) as -> by congruence.
  rewrite Hnext. by apply (walk_next_segment g l2 (Some this)).
Qed.

(** C3, amended.  [DiagnosticsGetSafeToInspectDeletedHandles] returns
    the empty vector when the caller is not a snapshot, in every state.
    When the caller is a snapshot of the queue, it returns the handles that
    are not snapshots among all those queued after the caller, in queue
    order towards the tail: a later snapshot is left out but does not end
    the walk.  In every state the operations reach, a live snapshot is in
    the queue. *)
Theorem safe_to_inspect_deleted_handles (fuel : nat) (g : Global)
    (this : nat) (x : CordzHandle) :
  handles g !! this = Some x ->
  (is_snapshot_ x = false ->
   DiagnosticsGetSafeToInspectDeletedHandles fuel g this = Ret []) /\
  (is_snapshot_ x = true ->
   forall l1 l2, queue g (l1 ++ this :: l2) -> length l2 <= fuel ->
     DiagnosticsGetSafeToInspectDeletedHandles fuel g this
     = Ret (List.filter (fun a => negb (snapshot_in g a)) l2)) /\
  (is_snapshot_ x = true -> reachable g ->
   exists l1 l2, queue g (l1 ++ this :: l2) /\ length l2 < size (handles g)).
Proof.
  intros Hx. split; [|split].
  - intros Hs. apply safe_to_inspect_not_snapshot with x; done.
  - intros Hs l1 l2 Hq Hfuel. by apply safe_to_inspect_queue with x l1.
  - intros Hs [l Hinv]%reachable_invariant.
    pose proof (invariant_snapshot_queued g l this x Hinv Hx Hs) as Hin.
    apply list_elem_of_split in Hin as (l1 & l2 & ->).
    exists l1, l2. split; [by destruct Hinv|].
    apply invariant_length in Hinv. rewrite length_app in Hinv.
    cbn [length] in Hinv. lia.
Qed.

(** The claim C3 as stated fails: the handle 4, queued after the second
    snapshot, is returned to the first one. *)
Lemma safe_to_inspect_beyond_next_snapshot :
  exists g,
    two_snapshots = Ret g /\
    DiagnosticsGetDeleteQueue 4 g = Ret [4; 3; 2; 1] /\
    snapshot_in g 1 = true /\ snapshot_in g 3 = true /\
    DiagnosticsGetSafeToInspectDeletedHandles 4 g 1 = Ret [2; 4] /\
    up_to_next_snapshot g [2; 3; 4] = [2] /\
    DiagnosticsGetSafeToInspectDeletedHandles 4 g 1
    <> Ret (up_to_next_snapshot g [2; 3; 4]).
Proof.
  eexists. split; [vm_compute; reflexivity|].
  repeat split; try (vm_compute; reflexivity).
  vm_compute. discriminate.
Qed.

Lemma safe_to_inspect_deleted_handles_witness :
  two_snapshots = Ret two_snapshots_state /\
  DiagnosticsGetSafeToInspectDeletedHandles 3 two_snapshots_state 1
  = Ret (List.filter (fun a => negb (snapshot_in two_snapshots_state a))
           [2; 3; 4]).
Proof.
  split; [vm_compute; reflexivity|].
  refine (proj1 (proj2 (safe_to_inspect_deleted_handles 3
                          two_snapshots_state 1
                          (mkCordzHandle true None (Some 2)) _))
            eq_refl [] [2; 3; 4] _ _).
  - vm_compute. reflexivity.
  - split; [|reflexivity].
    cbn [segment app].
    repeat split; eexists; (split; [vm_compute; reflexivity|]);
      split; reflexivity.
  - simpl. lia.
Defined.

(** C8, amended.  [Delete(nullptr)] aborts in a build with assertions and
    returns without any effect in a build with [NDEBUG]. *)
Theorem Delete_null (fuel : nat) (g : Global) :
  Delete false fuel g None = Abort /\ Delete true fuel g None = Ret g.
Proof. split; reflexivity. Qed.

(** The claim C8 as stated fails when [NDEBUG] is defined. *)
Lemma Delete_null_returns_without_assertions :
  Delete true 0 Global_init None = Ret Global_init /\
  Delete true 0 Global_init None <> Abort.
Proof. split; [reflexivity | discriminate]. Qed.

(** *** [is_snapshot_] is constant, and no operation but the constructor
    makes a handle *)

Lemma flags_kept_refl g : flags_kept g g.
Proof. intros a x Hx. by exists x. Qed.

Lemma flags_kept_trans g1 g2 g3 :
  flags_kept g1 g2 -> flags_kept g2 g3 -> flags_kept g1 g3.
Proof.
  intros H12 H23 a x3 H3. destruct (H23 a x3 H3) as (x2 & H2 & E23).
  destruct (H12 a x2 H2) as (x1 & H1 & E12). exists x1. split; congruence.
Qed.

Lemma flags_kept_set_dq_prev_ g p v g' :
  set_dq_prev_ g p v = Ret g' -> flags_kept g g'.
Proof.
  unfold set_dq_prev_, deref. destruct (handles g !! p) as [x|] eqn:Hp;
    [|discriminate]. cbn [obind]. intros [= <-] a x' Hx'. cbn [handles] in Hx'.
  destruct (decide (a = p)) as [-> | Hne].
  - rewrite lookup_insert_eq in Hx'. injection Hx' as <-. by exists x.
  - rewrite lookup_insert_ne in Hx' by done. by exists x'.
Qed.

Lemma flags_kept_set_dq_next_ g p v g' :
  set_dq_next_ g p v = Ret g' -> flags_kept g g'.
Proof.
  unfold set_dq_next_, deref. destruct (handles g !! p) as [x|] eqn:Hp;
    [|discriminate]. cbn [obind]. intros [= <-] a x' Hx'. cbn [handles] in Hx'.
  destruct (decide (a = p)) as [-> | Hne].
  - rewrite lookup_insert_eq in Hx'. injection Hx' as <-. by exists x.
  - rewrite lookup_insert_ne in Hx' by done. by exists x'.
Qed.

Lemma flags_kept_free g p : flags_kept g (free g p).
Proof.
  intros a x' Hx'. cbn [free handles] in Hx'.
  apply lookup_delete_Some in Hx' as [_ Hx']. by exists x'.
Qed.

Lemma flags_kept_store_dq_tail g v : flags_kept g (store_dq_tail g v).
Proof. intros a x' Hx'. by exists x'. Qed.

Lemma obind_Ret {A B} (m : outcome A) (k : A -> outcome B) b :
  obind m k = Ret b -> exists a, m = Ret a /\ k a = Ret b.
Proof. destruct m; try discriminate. intros H. by eexists. Qed.

Lemma flags_kept_foldl (f : Global -> nat -> outcome Global) :
  (forall g a g', f g a = Ret g' -> flags_kept g g') ->
  forall d acc g',
    foldl (fun acc handle => (g <- acc ;; g <- f g handle ;;
                              Ret (free g handle))%outcome) acc d = Ret g' ->
    exists g0, acc = Ret g0 /\ flags_kept g0 g'.
Proof.
  intros Hf. induction d as [|a d IH]; intros acc g' H; cbn [foldl] in H.
  - exists g'. split; [done | apply flags_kept_refl].
  - destruct (IH _ _ H) as (g1 & H1 & K1).
    apply obind_Ret in H1 as (g0 & -> & H1).
    apply obind_Ret in H1 as (g2 & H2 & [= <-]).
    exists g0. split; [done|].
    eapply flags_kept_trans; [by eapply Hf|].
    eapply flags_kept_trans; [apply flags_kept_free | exact K1].
Qed.

Lemma flags_kept_destructor fuel : forall g this g',
  destructor fuel g this = Ret g' -> flags_kept g g'.
Proof.
  induction fuel as [|fuel IH]; intros g this g' H; [discriminate|].
  cbn [destructor] in H.
  apply obind_Ret in H as (x & Hx & H).
  destruct (is_snapshot_ x); [|injection H as <-; apply flags_kept_refl].
  apply obind_Ret in H as ([[to_delete next] g1] & Hr & H).
  apply obind_Ret in H as (g2 & H2 & H).
  destruct (flags_kept_foldl (destructor fuel) IH _ _ _ H) as (g3 & [= <-] & K).
  assert (flags_kept g g1) as K1.
  { destruct (dq_prev_ x) as [prev|].
    - apply obind_Ret in Hr as (g0 & H0 & [= _ _ <-]).
      by eapply flags_kept_set_dq_next_.
    - apply obind_Ret in Hr as (r & _ & [= _ _ <-]). apply flags_kept_refl. }
  assert (flags_kept g1 g2) as K2.
  { destruct next as [nx|].
    - by eapply flags_kept_set_dq_prev_.
    - injection H2 as <-. apply flags_kept_store_dq_tail. }
  eauto using flags_kept_trans.
Qed.

Lemma flags_kept_Delete ndebug fuel g handle g' :
  Delete ndebug fuel g handle = Ret g' -> flags_kept g g'.
Proof.
  unfold Delete. intros H. apply obind_Ret in H as ([] & _ & H).
  destruct handle as [h|]; [|injection H as <-; apply flags_kept_refl].
  apply obind_Ret in H as (safe & _ & H).
  destruct (if safe then None else dq_tail g) as [tail|].
  - apply obind_Ret in H as (g1 & H1 & H).
    apply obind_Ret in H as (g2 & H2 & [= <-]).
    eapply flags_kept_trans; [by eapply flags_kept_set_dq_prev_|].
    eapply flags_kept_trans; [by eapply flags_kept_set_dq_next_|].
    apply flags_kept_store_dq_tail.
  - unfold delete_ in H. apply obind_Ret in H as (g1 & H1 & [= <-]).
    eapply flags_kept_trans; [by eapply flags_kept_destructor|].
    apply flags_kept_free.
Qed.

Lemma flags_kept_set_dq_prev_rev g p v g' :
  set_dq_prev_ g p v = Ret g' -> flags_kept g' g.
Proof.
  unfold set_dq_prev_, deref. destruct (handles g !! p) as [x|] eqn:Hp;
    [|discriminate]. cbn [obind]. intros [= <-] a x' Hx'. cbn [handles].
  destruct (decide (a = p)) as [-> | Hne].
  - rewrite lookup_insert_eq. eexists. split; [done|]. cbn. congruence.
  - rewrite lookup_insert_ne by done. by exists x'.
Qed.

Lemma flags_kept_set_dq_next_rev g p v g' :
  set_dq_next_ g p v = Ret g' -> flags_kept g' g.
Proof.
  unfold set_dq_next_, deref. destruct (handles g !! p) as [x|] eqn:Hp;
    [|discriminate]. cbn [obind]. intros [= <-] a x' Hx'. cbn [handles].
  destruct (decide (a = p)) as [-> | Hne].
  - rewrite lookup_insert_eq. eexists. split; [done|]. cbn. congruence.
  - rewrite lookup_insert_ne by done. by exists x'.
Qed.

(** The constructor keeps the handles there are, with their flags, and
    adds [this] with the flag it is given. *)
Lemma new_CordzHandle_flags g this s g' :
  new_CordzHandle g this s = Ret g' ->
  handles g !! this = None /\
  (exists x, handles g' !! this = Some x /\ is_snapshot_ x = s) /\
  (forall a x, handles g !! a = Some x ->
     exists x', handles g' !! a = Some x' /\
                is_snapshot_ x' = is_snapshot_ x) /\
  (forall a x', handles g' !! a = Some x' -> a <> this ->
     exists x, handles g !! a = Some x /\ is_snapshot_ x' = is_snapshot_ x).
Proof.
  unfold new_CordzHandle.
  destruct (handles g !! this) eqn:Hthis; [discriminate|]. intros H.
  split; [done|].
  set (g0 := mkGlobal (<[this := mkCordzHandle s None None]> (handles g))
                      (dq_tail g)) in *.
  assert (flags_kept g' g0 /\ flags_kept g0 g') as [Kf Kb].
  { destruct s; [|injection H as <-; split; apply flags_kept_refl].
    apply obind_Ret in H as (g2 & H2 & [= <-]).
    destruct (dq_tail g0) as [tail|].
    - apply obind_Ret in H2 as (g1 & H1 & H2). split.
      + eapply flags_kept_trans; [|by eapply flags_kept_set_dq_prev_rev].
        eapply flags_kept_trans; [|by eapply flags_kept_set_dq_next_rev].
        intros a x Hx. by exists x.
      + eapply flags_kept_trans; [by eapply flags_kept_set_dq_prev_|].
        eapply flags_kept_trans; [by eapply flags_kept_set_dq_next_|].
        apply flags_kept_store_dq_tail.
    - injection H2 as <-. split; intros a x Hx; by exists x. }
  split; [|split].
  - destruct (Kf this (mkCordzHandle s None None)) as (x & Hx & E).
    { cbn. apply lookup_insert_eq. }
    exists x. by split.
  - intros a x Ha. destruct (Kf a x) as (x' & Hx' & E).
    { cbn. rewrite lookup_insert_ne; [done | congruence]. }
    exists x'. by split.
  - intros a x' Ha Hne. destruct (Kb a x' Ha) as (x & Hx & E).
    cbn in Hx. rewrite lookup_insert_ne in Hx by done. by exists x.
Qed.

(** X20.  [Delete] makes no handle and changes no [is_snapshot_]: a
    handle that is live after [Delete] returned was live before, and is
    a snapshot if and only if it was one.  The constructor adds the
    handle it builds and keeps all the others the same way. *)
Theorem is_snapshot_never_changes (ndebug : bool) (fuel : nat)
    (g g1 g2 : Global) (handle : option nat) (this : nat) (s : bool) :
  Delete ndebug fuel g handle = Ret g1 ->
  new_CordzHandle g this s = Ret g2 ->
  (forall a, deleted g1 a = false ->
     deleted g a = false /\ snapshot_in g1 a = snapshot_in g a) /\
  (forall a, deleted g2 a = false ->
     if decide (a = this) then deleted g a = true /\ snapshot_in g2 a = s
     else deleted g a = false /\ snapshot_in g2 a = snapshot_in g a) /\
  (forall a, deleted g a = false -> deleted g2 a = false).
Proof.
  intros HD Hnew. apply flags_kept_Delete in HD.
  apply new_CordzHandle_flags in Hnew as (Hthis & (xt & Hxt & Est) & Hf & Hb).
  unfold deleted, snapshot_in. split; [|split].
  - intros a Ha. destruct (handles g1 !! a) as [x'|] eqn:Hx'; [|done].
    destruct (HD a x' Hx') as (x & -> & E). done.
  - intros a Ha. destruct (decide (a = this)) as [-> | Hne].
    + by rewrite Hthis, Hxt.
    + destruct (handles g2 !! a) as [x'|] eqn:Hx'; [|done].
      destruct (Hb a x' Hx' Hne) as (x & -> & E). done.
  - intros a Ha. destruct (handles g !! a) as [x|] eqn:Hx; [|done].
    by destruct (Hf a x Hx) as (x' & -> & _).
Qed.

Lemma is_snapshot_never_changes_witness :
  let g := two_snapshots_state in
  let g1 := mkGlobal (<[3 := mkCordzHandle true None (Some 4)]>
                      (<[4 := mkCordzHandle false (Some 3) None]> ∅))
                     (Some 4) in
  let g2 := mkGlobal (<[5 := mkCordzHandle false None None]> (handles g))
                     (Some 4) in
  (forall a, deleted g1 a = false ->
     deleted g a = false /\ snapshot_in g1 a = snapshot_in g a) /\
  (forall a, deleted g2 a = false ->
     if decide (a = 5) then deleted g a = true /\ snapshot_in g2 a = false
     else deleted g a = false /\ snapshot_in g2 a = snapshot_in g a) /\
  (forall a, deleted g a = false -> deleted g2 a = false).
Proof.
  apply (is_snapshot_never_changes false 5 two_snapshots_state
           (mkGlobal (<[3 := mkCordzHandle true None (Some 4)]>
                        (<[4 := mkCordzHandle false (Some 3) None]> ∅))
                     (Some 4))
           (mkGlobal (<[5 := mkCordzHandle false None None]>
                        (handles two_snapshots_state))
                     (Some 4))
           (Some 1) 5 false).
  - vm_compute. reflexivity.
  - vm_compute. reflexivity.
Defined.

(** *** The queue of a reachable state *)

Lemma snapshot_in_kept g g' a :
  flags_kept g g' -> is_Some (handles g' !! a) ->
  snapshot_in g' a = snapshot_in g a.
Proof.
  intros K [x' Hx']. destruct (K a x' Hx') as (x & Hx & E).
  unfold snapshot_in. by rewrite Hx, Hx'.
Qed.

Lemma head_from_next_snapshot g l a :
  head (from_next_snapshot g l) = Some a -> snapshot_in g a = true.
Proof.
  induction l as [|b l IH]; cbn [from_next_snapshot]; [done|].
  destruct (snapshot_in g b) eqn:Hb; [|exact IH].
  cbn [head]. by intros [= <-].
Qed.

Lemma head_app_nonempty {A} (l l' : list A) :
  l <> [] -> head (l ++ l') = head l.
Proof. by destruct l. Qed.

(** Every reachable state is a well-formed queue whose oldest handle,
    if there is one, is a snapshot. *)
Lemma reachable_head_snapshot g :
  reachable g ->
  exists l, invariant g l /\
            forall a, head l = Some a -> snapshot_in g a = true.
Proof.
  induction 1 as [| g this s g' _ (l & IH & Hhd) Hnew
                  | ndebug fuel g h x q g' _ (l & IH & Hhd)
                      Hx Hq Hfresh Hfuel HD].
  - exists []. split; [apply invariant_init | done].
  - pose proof (new_CordzHandle_invariant g l this s g' IH Hnew) as Hinv.
    apply new_CordzHandle_flags in Hnew as (Hthis & (xt & Hxt & Est) & Hf & _).
    eexists. split; [exact Hinv|]. intros a Ha.
    assert (forall b, head l = Some b -> snapshot_in g' b = true) as Hold.
    { intros b Hb. pose proof (Hhd b Hb) as Hs.
      destruct (invariant_live g l b IH) as [xb Hxb];
        [by apply head_Some_elem_of|].
      destruct (Hf b xb Hxb) as (xb' & Hxb' & E).
      unfold snapshot_in in *. rewrite Hxb in Hs. by rewrite Hxb', E. }
    destruct s; [|by apply Hold].
    destruct l as [|b l]; [|by apply Hold].
    cbn in Ha. injection Ha as <-. unfold snapshot_in. by rewrite Hxt.
  - pose proof (invariant_length g l IH) as Hlen.
    pose proof (flags_kept_Delete _ _ _ _ _ HD) as K.
    rewrite (DiagnosticsGetDeleteQueue_queue fuel g l) in Hq;
      [| by destruct IH | lia].
    injection Hq as <-.
    assert (forall l' a, invariant g' l' -> head l' = Some a ->
              snapshot_in g a = true -> snapshot_in g' a = true) as Hkeep.
    { intros l' a Hinv Ha Hs. rewrite (snapshot_in_kept g g'); [done..|].
      eapply invariant_live; [exact Hinv | by apply head_Some_elem_of]. }
    destruct (is_snapshot_ x) eqn:Hs.
    + pose proof (invariant_snapshot_queued g l h x IH Hx Hs) as Hin.
      apply list_elem_of_split in Hin as (l1 & l2 & ->).
      destruct (Delete_snapshot ndebug fuel g l1 h l2 x IH Hx Hs)
        as (g'' & Hg'' & Hinv); [lia|].
      rewrite Hg'' in HD. injection HD as <-.
      eexists. split; [exact Hinv|]. intros a Ha.
      apply (Hkeep _ a Hinv Ha). destruct l1 as [|b l1].
      * by apply head_from_next_snapshot with l2.
      * apply Hhd. by rewrite head_app_nonempty in * by done.
    + assert (h ∉ l) as Hh.
      { intros Hin. apply (Hfresh eq_refl). by apply elem_of_reverse. }
      destruct (list_snoc_inv l) as [-> | (l0 & t & ->)].
      * destruct fuel as [|fuel]; [lia|].
        destruct (Delete_unqueued ndebug fuel g h x IH Hx)
          as (g'' & Hg'' & Hinv).
        rewrite Hg'' in HD. injection HD as <-. by exists [].
      * destruct (Delete_deferred ndebug fuel g l0 t h x IH Hx Hs Hh)
          as (g'' & Hg'' & Hinv).
        rewrite Hg'' in HD. injection HD as <-.
        eexists. split; [exact Hinv|]. intros a Ha.
        apply (Hkeep _ a Hinv Ha). apply Hhd.
        rewrite head_app_nonempty in Ha; [done|]. by destruct l0.
Qed.

(** X21.  In every state the operations reach,
    [DiagnosticsGetDeleteQueue] returns (with fuel for every live
    handle) a list without repetition of live handles that holds every
    live snapshot; it starts with [dq_tail] and is empty exactly when
    [IsEmpty] holds; and its last, oldest element is a snapshot: a
    handle that is not a snapshot waits in the queue only behind a
    snapshot that was there when [Delete] was called on it. *)
Theorem reachable_delete_queue (fuel : nat) (g : Global) :
  reachable g -> size (handles g) <= fuel ->
  exists q,
    DiagnosticsGetDeleteQueue fuel g = Ret q /\
    NoDup q /\
    (forall a, a ∈ q -> deleted g a = false) /\
    (forall a, snapshot_in g a = true -> a ∈ q) /\
    head q = dq_tail g /\
    (IsEmpty g = true <-> q = []) /\
    (forall a, last q = Some a -> snapshot_in g a = true).
Proof.
  intros (l & Hinv & Hhd)%reachable_head_snapshot Hfuel.
  pose proof (invariant_length g l Hinv) as Hlen.
  pose proof Hinv as ([Hseg Htail] & Hnd & Hout).
  exists (reverse l).
  split; [apply DiagnosticsGetDeleteQueue_queue; [by split | lia]|].
  split; [by rewrite reverse_Permutation|].
  split.
  { intros a Ha. rewrite elem_of_reverse in Ha.
    destruct (invariant_live g l a Hinv Ha) as [x Hx].
    unfold deleted. by rewrite Hx. }
  split.
  { intros a Ha. apply elem_of_reverse. unfold snapshot_in in Ha.
    destruct (handles g !! a) as [x|] eqn:Hx; [|done].
    by apply (invariant_snapshot_queued g l a x). }
  split; [by rewrite head_reverse|].
  split.
  { unfold IsEmpty. rewrite bool_decide_eq_true, Htail.
    rewrite last_None. split; [by intros -> | ].
    intros E. apply (f_equal reverse) in E.
    by rewrite reverse_involutive in E. }
  intros a Ha. apply Hhd. by rewrite last_reverse in Ha.
Qed.

(** The state [two_snapshots] ends in is reachable. *)
Lemma reachable_two_snapshots : reachable two_snapshots_state.
Proof.
  pose (g1 := mkGlobal (<[1 := mkCordzHandle true None None]> ∅) (Some 1)).
  pose (g2 := mkGlobal (<[1 := mkCordzHandle true None None]>
                        (<[2 := mkCordzHandle false None None]> ∅))
                       (Some 1)).
  pose (g3 := mkGlobal (<[1 := mkCordzHandle true None (Some 2)]>
                        (<[2 := mkCordzHandle false (Some 1) None]> ∅))
                       (Some 2)).
  pose (g4 := mkGlobal (<[1 := mkCordzHandle true None (Some 2)]>
                        (<[2 := mkCordzHandle false (Some 1) (Some 3)]>
                         (<[3 := mkCordzHandle true (Some 2) None]> ∅)))
                       (Some 3)).
  pose (g5 := mkGlobal (<[1 := mkCordzHandle true None (Some 2)]>
                        (<[2 := mkCordzHandle false (Some 1) (Some 3)]>
                         (<[3 := mkCordzHandle true (Some 2) None]>
                          (<[4 := mkCordzHandle false None None]> ∅))))
                       (Some 3)).
  assert (reachable g1) as R1.
  { apply (reach_new Global_init 1 true); [apply reach_init|].
    vm_compute. reflexivity. }
  assert (reachable g2) as R2.
  { apply (reach_new g1 2 false); [exact R1|]. vm_compute. reflexivity. }
  assert (reachable g3) as R3.
  { apply (reach_Delete false 5 g2 2 (mkCordzHandle false None None) [1]);
      [exact R2 | vm_compute; reflexivity | vm_compute; reflexivity
      | intros _; set_solver
      | vm_compute; lia | vm_compute; reflexivity]. }
  assert (reachable g4) as R4.
  { apply (reach_new g3 3 true); [exact R3|]. vm_compute. reflexivity. }
  assert (reachable g5) as R5.
  { apply (reach_new g4 4 false); [exact R4|]. vm_compute. reflexivity. }
  apply (reach_Delete false 5 g5 4 (mkCordzHandle false None None) [3; 2; 1]);
    [exact R5 | vm_compute; reflexivity | vm_compute; reflexivity
    | intros _; set_solver
    | vm_compute; lia | vm_compute; reflexivity].
Qed.

Lemma reachable_delete_queue_witness :
  exists q,
    DiagnosticsGetDeleteQueue 4 two_snapshots_state = Ret q /\
    NoDup q /\
    (forall a, a ∈ q -> deleted two_snapshots_state a = false) /\
    (forall a, snapshot_in two_snapshots_state a = true -> a ∈ q) /\
    head q = dq_tail two_snapshots_state /\
    (IsEmpty two_snapshots_state = true <-> q = []) /\
    (forall a, last q = Some a -> snapshot_in two_snapshots_state a = true).
Proof.
  apply (reachable_delete_queue 4 two_snapshots_state).
  - exact reachable_two_snapshots.
  - vm_compute. lia.
Defined.

(** *** The constructor and [Delete] on a well-formed queue *)

Lemma new_CordzHandle_returns g l this s :
  invariant g l -> handles g !! this = None ->
  exists g', new_CordzHandle g this s = Ret g'.
Proof.
  intros Hinv Hthis. unfold new_CordzHandle. rewrite Hthis.
  destruct s; [|eauto]. cbn [dq_tail].
  destruct (dq_tail g) as [tail|] eqn:Ht; [|eauto].
  unfold set_dq_prev_, deref. cbn [handles].
  rewrite lookup_insert_eq. cbn [obind].
  unfold set_dq_next_, deref. cbn [handles]. rewrite insert_insert_eq.
  assert (tail ≠ this) as Hne.
  { intros ->. destruct Hinv as ([Hseg Htl] & _).
    rewrite Htl in Ht. apply last_Some_elem_of in Ht.
    destruct (segment_live g this _ _ _ Hseg Ht) as [? ?]. congruence. }
  rewrite lookup_insert_ne by done.
  destruct (handles g !! tail) as [xt|] eqn:Hxt; [cbn [obind]; eauto|].
  destruct Hinv as ([Hseg Htl] & _).
  rewrite Htl in Ht. apply last_Some_elem_of in Ht.
  destruct (segment_live g tail _ _ _ Hseg Ht) as [? ?]. congruence.
Qed.

(** X22.  In a reachable state the constructor, run on storage that
    holds no live handle, returns; the new handle is live with the flag
    it was given; a snapshot joins the delete queue as its newest
    element, and a handle that is not a snapshot leaves the queue as it
    is. *)
Theorem new_CordzHandle_queue (fuel : nat) (g : Global) (this : nat)
    (s : bool) :
  reachable g -> deleted g this = true -> size (handles g) <= fuel ->
  exists q g',
    DiagnosticsGetDeleteQueue fuel g = Ret q /\
    new_CordzHandle g this s = Ret g' /\
    reachable g' /\
    is_snapshot g' this = Ret s /\
    DiagnosticsGetDeleteQueue (S fuel) g' = Ret (if s then this :: q else q).
Proof.
  intros Hr Hdel Hfuel.
  assert (handles g !! this = None) as Hthis
    by (unfold deleted in Hdel; by destruct (handles g !! this)).
  destruct (reachable_invariant g Hr) as [l Hinv].
  pose proof (invariant_length g l Hinv) as Hlen.
  destruct (new_CordzHandle_returns g l this s Hinv Hthis) as [g' Hnew].
  pose proof (new_CordzHandle_invariant g l this s g' Hinv Hnew) as Hinv'.
  exists (reverse l), g'.
  split; [apply DiagnosticsGetDeleteQueue_queue; [by destruct Hinv | lia]|].
  split; [exact Hnew|].
  split; [by apply (reach_new g this s)|].
  split.
  { apply new_CordzHandle_flags in Hnew as (_ & (x & Hx & <-) & _).
    unfold is_snapshot, deref. by rewrite Hx. }
  rewrite (DiagnosticsGetDeleteQueue_queue (S fuel) g' _ (proj1 Hinv')).
  - destruct s; [|done]. by rewrite reverse_snoc.
  - destruct s; rewrite ?length_app; cbn [length]; lia.
Qed.

Lemma new_CordzHandle_queue_witness :
  exists q g',
    DiagnosticsGetDeleteQueue 4 two_snapshots_state = Ret q /\
    new_CordzHandle two_snapshots_state 5 true = Ret g' /\
    reachable g' /\
    is_snapshot g' 5 = Ret true /\
    DiagnosticsGetDeleteQueue 5 g' = Ret (5 :: q).
Proof.
  apply (new_CordzHandle_queue 4 two_snapshots_state 5 true).
  - exact reachable_two_snapshots.
  - reflexivity.
  - vm_compute. lia.
Defined.

Lemma Delete_unqueued_free ndebug fuel g h x :
  invariant g [] -> handles g !! h = Some x ->
  Delete ndebug (S fuel) g (Some h) = Ret (free g h).
Proof.
  intros ([_ Htail] & _ & Hout) Hx.
  destruct (Hout h x Hx) as [Hs _]; [apply not_elem_of_nil|].
  unfold Delete, SafeToDelete, IsEmpty, deref.
  rewrite assert_true by (by apply bool_decide_eq_true). cbn [obind].
  rewrite Hx. cbn [obind]. rewrite Hs, Htail.
  rewrite bool_decide_eq_true_2 by done. cbn [orb last].
  unfold delete_. cbn [destructor]. unfold deref. rewrite Hx. cbn [obind].
  by rewrite Hs.
Qed.

(** X23.  [Delete] on a live handle that is not a snapshot and was not
    passed to [Delete] before: when the delete queue is empty the
    handle is deleted at once and nothing else changes; otherwise the
    handle stays live and becomes the newest element of the queue. *)
Theorem Delete_handle (ndebug : bool) (fuel : nat) (g : Global) (h : nat)
    (x : CordzHandle) (q : list nat) :
  reachable g -> handles g !! h = Some x -> is_snapshot_ x = false ->
  size (handles g) < fuel ->
  DiagnosticsGetDeleteQueue fuel g = Ret q -> h ∉ q ->
  exists g',
    Delete ndebug fuel g (Some h) = Ret g' /\
    reachable g' /\
    if IsEmpty g
    then q = [] /\ g' = free g h /\ deleted g' h = true
    else deleted g' h = false /\
         DiagnosticsGetDeleteQueue (S fuel) g' = Ret (h :: q).
Proof.
  intros Hr Hx Hs Hfuel Hq Hh.
  destruct (reachable_invariant g Hr) as [l Hinv].
  pose proof (invariant_length g l Hinv) as Hlen.
  pose proof Hq as Hq'.
  rewrite (DiagnosticsGetDeleteQueue_queue fuel g l) in Hq';
    [| by destruct Hinv | lia].
  injection Hq' as <-.
  assert (h ∉ l) as Hhl by (by rewrite elem_of_reverse in Hh).
  assert (forall g', Delete ndebug fuel g (Some h) = Ret g' -> reachable g')
    as Hreach.
  { intros g' HD. by apply (reach_Delete ndebug fuel g h x (reverse l)). }
  destruct (list_snoc_inv l) as [-> | (l0 & t & ->)].
  - destruct fuel as [|fuel]; [lia|].
    pose proof (Delete_unqueued_free ndebug fuel g h x Hinv Hx) as HD.
    exists (free g h). split; [exact HD|]. split; [by apply Hreach|].
    destruct Hinv as ([_ Htail] & _). unfold IsEmpty.
    rewrite bool_decide_eq_true_2 by done.
    split; [done|]. split; [done|].
    unfold deleted. cbn [free handles]. by rewrite lookup_delete_eq.
  - destruct (Delete_deferred ndebug fuel g l0 t h x Hinv Hx Hs Hhl)
      as (g' & HD & Hinv').
    exists g'. split; [exact HD|]. split; [by apply Hreach|].
    unfold IsEmpty. rewrite (queue_tail g l0 t (proj1 Hinv)).
    rewrite bool_decide_eq_false_2 by done. split.
    + destruct (invariant_live g' _ h Hinv') as [y Hy]; [set_solver|].
      unfold deleted. by rewrite Hy.
    + rewrite (DiagnosticsGetDeleteQueue_queue (S fuel) g' _ (proj1 Hinv')).
      * by rewrite reverse_snoc.
      * rewrite length_app. cbn [length]. lia.
Qed.

Lemma Delete_handle_witness :
  let g := mkGlobal (<[5 := mkCordzHandle false None None]>
                       (handles two_snapshots_state)) (Some 4) in
  exists g',
    Delete false 6 g (Some 5) = Ret g' /\
    reachable g' /\
    deleted g' 5 = false /\
    DiagnosticsGetDeleteQueue 7 g' = Ret [5; 4; 3; 2; 1].
Proof.
  apply (Delete_handle false 6
           (mkGlobal (<[5 := mkCordzHandle false None None]>
                        (handles two_snapshots_state)) (Some 4))
           5 (mkCordzHandle false None None) [4; 3; 2; 1]).
  - apply (reach_new two_snapshots_state 5 false).
    + exact reachable_two_snapshots.
    + vm_compute. reflexivity.
  - vm_compute. reflexivity.
  - reflexivity.
  - vm_compute. lia.
  - vm_compute. reflexivity.
  - set_solver.
Defined.

Lemma Delete_of_snapshot ndebug fuel g s x :
  handles g !! s = Some x -> is_snapshot_ x = true ->
  Delete ndebug fuel g (Some s) = delete_ fuel g s.
Proof.
  intros Hx Hs. unfold Delete, SafeToDelete, deref.
  rewrite assert_true by (by apply bool_decide_eq_true). cbn [obind].
  rewrite Hx. cbn [obind]. by rewrite Hs.
Qed.

Lemma delete__frees fuel g s g' :
  delete_ fuel g s = Ret g' -> handles g' !! s = None.
Proof.
  unfold delete_. intros (g1 & _ & [= <-])%obind_Ret.
  cbn [free handles]. apply lookup_delete_eq.
Qed.

(** X24.  [Delete] on a live snapshot of a reachable state returns and
    the snapshot is deleted.  When it was the oldest element of the
    queue, the handles queued behind it up to the next snapshot are
    deleted with it and that snapshot becomes the oldest element; when
    it was not, it is unlinked and no other element of the queue is
    deleted. *)
Theorem Delete_snapshot_queue (ndebug : bool) (fuel : nat) (g : Global)
    (s : nat) (x : CordzHandle) :
  reachable g -> handles g !! s = Some x -> is_snapshot_ x = true ->
  size (handles g) < fuel ->
  exists l1 l2 g',
    DiagnosticsGetDeleteQueue fuel g = Ret (reverse (l1 ++ s :: l2)) /\
    Delete ndebug fuel g (Some s) = Ret g' /\
    reachable g' /\
    deleted g' s = true /\
    let l' := match l1 with
              | [] => from_next_snapshot g l2
              | _ => l1 ++ l2
              end in
    DiagnosticsGetDeleteQueue fuel g' = Ret (reverse l') /\
    (forall a, a ∈ l' -> deleted g' a = false) /\
    (l1 = [] -> forall a, a ∈ up_to_next_snapshot g l2 ->
                          deleted g' a = true).
Proof.
  intros Hr Hx Hs Hfuel.
  destruct (reachable_invariant g Hr) as [l Hinv].
  pose proof (invariant_length g l Hinv) as Hlen.
  pose proof (invariant_snapshot_queued g l s x Hinv Hx Hs) as Hin.
  apply list_elem_of_split in Hin as (l1 & l2 & ->).
  assert (DiagnosticsGetDeleteQueue fuel g = Ret (reverse (l1 ++ s :: l2)))
    as Hq by (apply DiagnosticsGetDeleteQueue_queue; [by destruct Hinv | lia]).
  rewrite length_app in Hlen. cbn [length] in Hlen.
  destruct fuel as [|fuel]; [lia|].
  assert (exists g',
            delete_ (S fuel) g s = Ret g' /\
            invariant g' (match l1 with
                          | [] => from_next_snapshot g l2
                          | _ => l1 ++ l2
                          end) /\
            (l1 = [] -> forall a, a ∈ up_to_next_snapshot g l2 ->
                                  handles g' !! a = None))
    as (g' & HD & Hinv' & Hfreed).
  { destruct (list_snoc_inv l1) as [-> | (l0 & p & ->)].
    - destruct (delete_head_snapshot fuel g s l2 x Hinv Hx Hs)
        as (g' & Hg' & Hinv' & Hfreed); [cbn [app length] in Hlen; lia|].
      exists g'. done.
    - destruct (delete_inner_snapshot fuel g l0 p s l2 x Hinv Hx Hs)
        as (g' & Hg' & Hinv').
      exists g'. split; [done|].
      destruct (l0 ++ [p]) eqn:E; [by destruct l0|]. done. }
  rewrite <- (Delete_of_snapshot ndebug (S fuel) g s x Hx Hs) in HD.
  exists l1, l2, g'. split; [exact Hq|]. split; [exact HD|].
  split.
  { apply (reach_Delete ndebug (S fuel) g s x (reverse (l1 ++ s :: l2)));
      try done. by rewrite Hs. }
  split.
  { rewrite (Delete_of_snapshot ndebug (S fuel) g s x Hx Hs) in HD.
    unfold deleted. by rewrite (delete__frees _ _ _ _ HD). }
  cbv zeta. split.
  { apply DiagnosticsGetDeleteQueue_queue; [by destruct Hinv'|].
    pose proof (invariant_length g' _ Hinv') as Hlen'.
    assert (length (match l1 with
                    | [] => from_next_snapshot g l2
                    | _ => l1 ++ l2
                    end) <= length l1 + length l2); [|lia].
    destruct l1; [|by rewrite length_app].
    rewrite (snapshot_split g l2) at 2. rewrite length_app. cbn. lia. }
  split.
  { intros a Ha. destruct (invariant_live g' _ a Hinv' Ha) as [y Hy].
    unfold deleted. by rewrite Hy. }
  intros E a Ha. unfold deleted. by rewrite (Hfreed E a Ha).
Qed.

Lemma Delete_snapshot_queue_witness :
  exists l1 l2 g',
    DiagnosticsGetDeleteQueue 5 two_snapshots_state
    = Ret (reverse (l1 ++ 1 :: l2)) /\
    Delete false 5 two_snapshots_state (Some 1) = Ret g' /\
    reachable g' /\
    deleted g' 1 = true /\
    let l' := match l1 with
              | [] => from_next_snapshot two_snapshots_state l2
              | _ => l1 ++ l2
              end in
    DiagnosticsGetDeleteQueue 5 g' = Ret (reverse l') /\
    (forall a, a ∈ l' -> deleted g' a = false) /\
    (l1 = [] -> forall a, a ∈ up_to_next_snapshot two_snapshots_state l2 ->
                          deleted g' a = true).
Proof.
  apply (Delete_snapshot_queue false 5 two_snapshots_state 1
           (mkCordzHandle true None (Some 2))).
  - exact reachable_two_snapshots.
  - vm_compute. reflexivity.
  - reflexivity.
  - vm_compute. lia.
Defined.

(** *** [DiagnosticsHandleIsSafeToInspect] *)

Lemma inspect_loop_segment g this h : forall l next fuel found,
  segment g None l next -> length l <= fuel ->
  inspect_loop fuel g this h found (last_or None l)
  = Ret (inspect_list this h found (reverse l)).
Proof.
  induction l as [|t l IH] using rev_ind; intros next fuel found Hl Hfuel.
  - apply inspect_loop_None.
  - apply segment_app in Hl as [Hl [(x & Hx & Hp & _) _]].
    rewrite length_app in Hfuel. cbn in Hfuel.
    destruct fuel as [|fuel]; [lia|].
    rewrite last_or_app, reverse_snoc.
    cbn [last_or inspect_loop inspect_list].
    destruct (decide (t = h)); [done|].
    unfold deref. rewrite Hx. cbn [obind]. rewrite Hp.
    apply (IH _ fuel _ Hl). lia.
Qed.

Lemma inspect_list_found this h found v1 v2 :
  h ∈ v1 -> this ∉ v1 ->
  inspect_list this h found (v1 ++ v2) = inl (negb found).
Proof.
  induction v1 as [|a v1 IH]; intros Hh Ht; [by apply elem_of_nil in Hh|].
  cbn [app inspect_list]. destruct (decide (a = h)); [done|].
  rewrite decide_False by set_solver. apply IH; set_solver.
Qed.

Lemma inspect_list_skip this h found v1 v2 :
  h ∉ v1 -> this ∉ v1 ->
  inspect_list this h found (v1 ++ v2) = inspect_list this h found v2.
Proof.
  induction v1 as [|a v1 IH]; intros Hh Ht; [done|].
  cbn [app inspect_list]. rewrite !decide_False by set_solver.
  apply IH; set_solver.
Qed.

Lemma inspect_list_after this h v :
  inspect_list this h true v = if decide (h ∈ v) then inl false else inr true.
Proof.
  induction v as [|a v IH]; cbn [inspect_list].
  - by rewrite decide_False by apply not_elem_of_nil.
  - destruct (decide (a = h)) as [-> | Hne].
    + by rewrite decide_True by apply list_elem_of_here.
    + replace (if decide (a = this) then true else true) with true
        by (by destruct (decide (a = this))).
      rewrite IH. destruct (decide (h ∈ v)).
      * by rewrite decide_True by (by apply list_elem_of_further).
      * by rewrite decide_False by set_solver.
Qed.

Lemma inspect_list_queue this h l1 l2 :
  NoDup (l1 ++ this :: l2) -> h <> this ->
  inspect_list this h false (reverse (l1 ++ this :: l2))
  = if decide (h ∈ l1) then inl false
    else if decide (h ∈ l2) then inl true else inr true.
Proof.
  intros Hnd Hne. rewrite reverse_app, reverse_cons, <- app_assoc.
  apply NoDup_app in Hnd as (_ & Hdis & [Ht2 _]%NoDup_cons).
  destruct (decide (h ∈ l2)) as [H2 | H2].
  - rewrite inspect_list_found by (by rewrite elem_of_reverse).
    rewrite decide_False; [done|]. intros H1. apply (Hdis h H1). set_solver.
  - rewrite inspect_list_skip by (by rewrite elem_of_reverse).
    cbn [app inspect_list]. rewrite decide_False by done.
    rewrite decide_True by done. rewrite inspect_list_after.
    destruct (decide (h ∈ l1)) as [H1 | H1].
    + by rewrite decide_True by (by rewrite elem_of_reverse).
    + by rewrite decide_False by (by rewrite elem_of_reverse).
Qed.

Lemma IsSafeToInspect_queue ndebug fuel g l1 this l2 x h y :
  invariant g (l1 ++ this :: l2) ->
  handles g !! this = Some x -> is_snapshot_ x = true ->
  handles g !! h = Some y ->
  length (l1 ++ this :: l2) <= fuel ->
  DiagnosticsHandleIsSafeToInspect ndebug fuel g this (Some h)
  = Ret (negb (is_snapshot_ y) && bool_decide (h ∉ l1)).
Proof.
  intros ([Hseg Htail] & Hnd & _) Hx Hs Hy Hfuel.
  unfold DiagnosticsHandleIsSafeToInspect, deref.
  rewrite Hx. cbn [obind]. rewrite Hs. cbn [negb]. rewrite Hy. cbn [obind].
  destruct (is_snapshot_ y) eqn:Hsy; [done|]. cbn [negb andb].
  assert (h ≠ this) as Hne by (intros ->; congruence).
  rewrite Htail, <- last_or_None.
  rewrite (inspect_loop_segment g this h _ None fuel false) by done.
  cbn [obind]. rewrite inspect_list_queue by done.
  destruct (decide (h ∈ l1)) as [H1 | H1].
  - by rewrite bool_decide_eq_false_2 by (by intros ?).
  - rewrite bool_decide_eq_true_2 by done.
    destruct (decide (h ∈ l2)); [done|].
    by rewrite assert_true.
Qed.

(** X25.  For a snapshot [this] of the delete queue and a live handle,
    [DiagnosticsHandleIsSafeToInspect] returns [false] on a snapshot,
    and on a handle that is not a snapshot it returns [false] exactly
    when the handle is in the queue before [this], that is, when
    [Delete] was called on it before [this] was created.  It returns
    [true] on [nullptr], and [false] on every handle when [this] is not
    a snapshot. *)
Theorem IsSafeToInspect_iff_not_older (ndebug : bool) (fuel : nat)
    (g : Global) (l1 l2 : list nat) (this h : nat) (x y : CordzHandle) :
  invariant g (l1 ++ this :: l2) ->
  handles g !! this = Some x -> is_snapshot_ x = true ->
  handles g !! h = Some y ->
  length (l1 ++ this :: l2) <= fuel ->
  DiagnosticsHandleIsSafeToInspect ndebug fuel g this (Some h)
  = Ret (negb (is_snapshot_ y) && bool_decide (h ∉ l1)) /\
  DiagnosticsHandleIsSafeToInspect ndebug fuel g this None = Ret true /\
  (is_snapshot_ y = false ->
   forall handle,
     DiagnosticsHandleIsSafeToInspect ndebug fuel g h handle = Ret false).
Proof.
  intros Hinv Hx Hs Hy Hfuel.
  split; [by eapply IsSafeToInspect_queue|]. split.
  - unfold DiagnosticsHandleIsSafeToInspect, deref.
    rewrite Hx. cbn [obind]. by rewrite Hs.
  - intros Hsy handle. unfold DiagnosticsHandleIsSafeToInspect, deref.
    rewrite Hy. cbn [obind]. by rewrite Hsy.
Qed.

Lemma invariant_two_snapshots : invariant two_snapshots_state [1; 2; 3; 4].
Proof.
  destruct (reachable_head_snapshot _ reachable_two_snapshots)
    as (l & Hinv & _).
  pose proof (DiagnosticsGetDeleteQueue_queue 4 two_snapshots_state l
                (proj1 Hinv)) as Hq.
  pose proof (invariant_length _ _ Hinv) as Hlen.
  change (size (handles two_snapshots_state)) with 4 in Hlen.
  specialize (Hq Hlen).
  assert (DiagnosticsGetDeleteQueue 4 two_snapshots_state = Ret [4; 3; 2; 1])
    as Hq' by (vm_compute; reflexivity).
  rewrite Hq' in Hq. injection Hq as Hq.
  apply (f_equal reverse) in Hq. rewrite reverse_involutive in Hq.
  by rewrite <- Hq in Hinv.
Qed.

Lemma IsSafeToInspect_iff_not_older_witness :
  DiagnosticsHandleIsSafeToInspect false 4 two_snapshots_state 3 (Some 2)
  = Ret (negb false && bool_decide (2 ∉ [1; 2])) /\
  DiagnosticsHandleIsSafeToInspect false 4 two_snapshots_state 3 None
  = Ret true /\
  (false = false ->
   forall handle,
     DiagnosticsHandleIsSafeToInspect false 4 two_snapshots_state 2 handle
     = Ret false).
Proof.
  apply (IsSafeToInspect_iff_not_older false 4 two_snapshots_state
           [1; 2] [4] 3 2
           (mkCordzHandle true (Some 2) (Some 4))
           (mkCordzHandle false (Some 1) (Some 3))).
  - exact invariant_two_snapshots.
  - vm_compute. reflexivity.
  - reflexivity.
  - vm_compute. reflexivity.
  - simpl. lia.
Defined.

(** X26.  The two diagnostics agree on the delete queue: for a snapshot
    [this] of the queue, a handle of the queue is in the list that
    [DiagnosticsGetSafeToInspectDeletedHandles] returns if and only if
    [DiagnosticsHandleIsSafeToInspect] returns [true] on it. *)
Theorem safe_to_inspect_diagnostics_agree (ndebug : bool) (fuel : nat)
    (g : Global) (l1 l2 : list nat) (this : nat) (x : CordzHandle) :
  invariant g (l1 ++ this :: l2) ->
  handles g !! this = Some x -> is_snapshot_ x = true ->
  length (l1 ++ this :: l2) <= fuel ->
  exists safe,
    DiagnosticsGetSafeToInspectDeletedHandles fuel g this = Ret safe /\
    forall h, h ∈ l1 ++ this :: l2 ->
      (h ∈ safe <->
       DiagnosticsHandleIsSafeToInspect ndebug fuel g this (Some h)
       = Ret true).
Proof.
  intros Hinv Hx Hs Hfuel.
  pose proof Hinv as (Hq & Hnd & _).
  exists (List.filter (fun a => negb (snapshot_in g a)) l2). split.
  { apply safe_to_inspect_queue with x l1; try done.
    rewrite length_app in Hfuel. cbn [length] in Hfuel. lia. }
  intros h Hh. destruct (invariant_live g _ h Hinv Hh) as [y Hy].
  rewrite (IsSafeToInspect_queue ndebug fuel g l1 this l2 x h y) by done.
  rewrite list_elem_of_In, filter_In, <- list_elem_of_In.
  unfold snapshot_in. rewrite Hy.
  apply NoDup_app in Hnd as (_ & Hdis & [Ht2 _]%NoDup_cons).
  split.
  - intros [H2 Hsy]. rewrite Hsy. cbn [andb]. f_equal.
    apply bool_decide_eq_true_2. intros H1. apply (Hdis h H1). set_solver.
  - intros [= E]. apply andb_true_iff in E as [Hsy H1].
    apply bool_decide_eq_true in H1. split; [|done].
    apply elem_of_app in Hh as [? | [-> | ?]%elem_of_cons]; try done.
    rewrite Hx in Hy. injection Hy as <-. by rewrite Hs in Hsy.
Qed.

Lemma safe_to_inspect_diagnostics_agree_witness :
  exists safe,
    DiagnosticsGetSafeToInspectDeletedHandles 4 two_snapshots_state 3
    = Ret safe /\
    forall h, h ∈ [1; 2] ++ 3 :: [4] ->
      (h ∈ safe <->
       DiagnosticsHandleIsSafeToInspect false 4 two_snapshots_state 3 (Some h)
       = Ret true).
Proof.
  apply (safe_to_inspect_diagnostics_agree false 4 two_snapshots_state
           [1; 2] [4] 3 (mkCordzHandle true (Some 2) (Some 4))).
  - exact invariant_two_snapshots.
  - vm_compute. reflexivity.
  - reflexivity.
  - simpl. lia.
Defined.

(** *** What a snapshot protects *)

Lemma list_two_splits {A} (l1 l2 m1 m2 : list A) (s t : A) :
  l1 ++ s :: l2 = m1 ++ t :: m2 -> s <> t ->
  (exists r, l1 = m1 ++ t :: r /\ m2 = r ++ s :: l2) \/
  (exists r, m1 = l1 ++ s :: r /\ l2 = r ++ t :: m2).
Proof.
  revert m1. induction l1 as [|a l1 IH]; intros [|b m1] E Hne;
    cbn [app] in E.
  - injection E as E _. done.
  - injection E as <- ->. right. by exists m1.
  - injection E as -> <-. left. by exists l1.
  - injection E as <- E. destruct (IH m1 E Hne) as [(r & -> & ->) | (r & -> & ->)].
    + left. by exists r.
    + right. by exists r.
Qed.

Lemma from_next_snapshot_keeps g (r : list nat) s l2 :
  snapshot_in g s = true ->
  exists p, from_next_snapshot g (r ++ s :: l2) = p ++ s :: l2.
Proof.
  intros Hs. induction r as [|a r IH]; cbn [app from_next_snapshot].
  - rewrite Hs. by exists [].
  - destruct (snapshot_in g a); [by exists (a :: r) | exact IH].
Qed.

(** X27.  A handle queued behind a live snapshot [s] outlives every
    [Delete] that is not the one of [s] or its own: after [Delete] on
    any other snapshot, or on a live handle not yet in the queue, [s]
    is still a snapshot of the queue, the handle is still live and
    queued behind [s], and when it is not a snapshot [s] is told that
    it is safe to inspect. *)
Theorem snapshot_protects (ndebug : bool) (fuel : nat) (g : Global)
    (l1 l2 : list nat) (s h t : nat) (xt : CordzHandle) :
  invariant g (l1 ++ s :: l2) -> snapshot_in g s = true -> h ∈ l2 ->
  handles g !! t = Some xt -> t <> s -> t <> h ->
  (is_snapshot_ xt = false -> t ∉ l1 ++ s :: l2) ->
  length (l1 ++ s :: l2) < fuel ->
  exists g' l1' l2',
    Delete ndebug fuel g (Some t) = Ret g' /\
    invariant g' (l1' ++ s :: l2') /\
    snapshot_in g' s = true /\
    h ∈ l2' /\ deleted g' h = false /\
    (snapshot_in g h = false ->
     DiagnosticsHandleIsSafeToInspect ndebug fuel g' s (Some h) = Ret true).
Proof.
  intros Hinv Hs Hh Ht Hts Hth Hfresh Hfuel.
  assert (exists g' l1' l2',
            Delete ndebug fuel g (Some t) = Ret g' /\
            invariant g' (l1' ++ s :: l2') /\ h ∈ l2' /\
            length (l1' ++ s :: l2') <= fuel)
    as (g' & l1' & l2' & HD & Hinv' & Hh' & Hfuel').
  { destruct (is_snapshot_ xt) eqn:Hst.
    - pose proof (invariant_snapshot_queued g _ t xt Hinv Ht Hst) as Hin.
      apply list_elem_of_split in Hin as (m1 & m2 & E).
      rewrite E in Hinv, Hfuel.
      destruct (Delete_snapshot ndebug fuel g m1 t m2 xt Hinv Ht Hst)
        as (g' & HD & Hinv'); [lia|].
      exists g'.
      apply list_two_splits in E as [(r & -> & ->) | (r & -> & ->)];
        [| | congruence].
      + destruct m1 as [|b m1].
        * destruct (from_next_snapshot_keeps g r s l2 Hs) as [p Hp].
          rewrite Hp in Hinv'. exists p, l2.
          split; [done|]. split; [done|]. split; [done|].
          pose proof (f_equal length (snapshot_split g (r ++ s :: l2)))
            as El.
          rewrite Hp in El. cbn [app] in Hfuel.
          rewrite !length_app in *. cbn [length] in *.
          rewrite ?length_app in *. cbn [length] in *. lia.
        * exists ((b :: m1) ++ r), l2.
          rewrite <- app_assoc. split; [done|]. split; [done|].
          split; [done|].
          rewrite !length_app in *. cbn [length] in *.
          rewrite !length_app in *. cbn [length] in *. lia.
      + exists l1, (r ++ m2).
        assert (match l1 ++ s :: r with
                | [] => from_next_snapshot g m2
                | _ => (l1 ++ s :: r) ++ m2
                end = l1 ++ s :: r ++ m2) as El.
        { rewrite <- app_assoc. by destruct l1. }
        rewrite El in Hinv'. split; [done|]. split; [done|]. split.
        * apply elem_of_app in Hh as [? | [-> | ?]%elem_of_cons];
            [set_solver | done | set_solver].
        * rewrite !length_app in *. cbn [length] in *.
          rewrite !length_app in *. cbn [length] in *. lia.
    - specialize (Hfresh eq_refl).
      destruct (list_snoc_inv (l1 ++ s :: l2)) as [E | (l0 & t0 & E)];
        [by destruct l1|].
      rewrite E in Hinv, Hfresh.
      destruct (Delete_deferred ndebug fuel g l0 t0 t xt Hinv Ht Hst Hfresh)
        as (g' & HD & Hinv').
      rewrite <- E in Hinv'. rewrite <- app_assoc in Hinv'.
      exists g', l1, (l2 ++ [t]).
      split; [done|]. split; [done|]. split; [set_solver|].
      rewrite !length_app in *. cbn [length] in *.
      rewrite !length_app in *. cbn [length] in *. lia. }
  pose proof (flags_kept_Delete _ _ _ _ _ HD) as K.
  assert (forall a, a ∈ l1' ++ s :: l2' ->
            is_Some (handles g' !! a) /\ snapshot_in g' a = snapshot_in g a)
    as Hlive.
  { intros a Ha. pose proof (invariant_live g' _ a Hinv' Ha) as Hl.
    split; [done | by apply snapshot_in_kept]. }
  exists g', l1', l2'. split; [exact HD|]. split; [exact Hinv'|].
  destruct (Hlive s) as [[xs Hxs] Es]; [set_solver|].
  destruct (Hlive h) as [[y Hy] Eh]; [set_solver|].
  split; [by rewrite Es|]. split; [exact Hh'|].
  split; [unfold deleted; by rewrite Hy|].
  intros Hnh.
  rewrite (IsSafeToInspect_queue ndebug fuel g' l1' s l2' xs h y);
    try done.
  - rewrite <- Eh in Hnh. unfold snapshot_in in Hnh. rewrite Hy in Hnh.
    rewrite Hnh. cbn [negb andb]. f_equal. apply bool_decide_eq_true_2.
    destruct Hinv' as (_ & Hnd & _).
    apply NoDup_app in Hnd as (_ & Hdis & _).
    intros H1. apply (Hdis h H1). set_solver.
  - rewrite <- Es in Hs. unfold snapshot_in in Hs. by rewrite Hxs in Hs.
Qed.

Lemma snapshot_protects_witness :
  exists g' l1' l2',
    Delete false 5 two_snapshots_state (Some 1) = Ret g' /\
    invariant g' (l1' ++ 3 :: l2') /\
    snapshot_in g' 3 = true /\
    4 ∈ l2' /\ deleted g' 4 = false /\
    (snapshot_in two_snapshots_state 4 = false ->
     DiagnosticsHandleIsSafeToInspect false 5 g' 3 (Some 4) = Ret true).
Proof.
  apply (snapshot_protects false 5 two_snapshots_state [1; 2] [4] 3 4 1
           (mkCordzHandle true None (Some 2))).
  - exact invariant_two_snapshots.
  - reflexivity.
  - set_solver.
  - vm_compute. reflexivity.
  - lia.
  - lia.
  - discriminate.
  - simpl. lia.
Defined.

End Handle.
